(** * Spotify listening insights: OAuth token lifecycle and API client

    A shallow embedding of [src/auth.py] and [src/api_client.py].

    Python values are modelled by the types below.  Effects (the token file,
    the process environment, the clock, the token endpoint, the Web API,
    [time.sleep]) are threaded through an explicit world; exceptions are a
    result constructor.  Console output ([print]) is not modelled.
    Asynchronous [BaseException]s (KeyboardInterrupt, SystemExit) are outside
    the model, so [except Exception] and a bare [except] catch the same
    exceptions here. *)

From Stdlib Require Import Ascii String QArith Qround Lqa.
From stdpp Require Import gmap strings list fin_maps pretty.

Local Open Scope string_scope.
Local Open Scope Z_scope.

(** ** Python values *)

(** The values JSON can carry: what [json.load] and [response.json()]
    return.  A [dict] is a finite map, so records are compared the way
    Python's [==] compares dicts, regardless of member order.  A Python
    [float] is modelled by an exact rational: binary64 rounding is outside
    the model. *)
#[warnings="-register-all"] Inductive pyval :=
| VNone
| VBool (b : bool)
| VInt (n : Z)
| VFloat (x : Q)
| VStr (s : string)
| VList (l : list pyval)
| VDict (d : gmap string pyval).

(** [int], [float] and [bool] operands of Python arithmetic. *)
Definition as_number (v : pyval) : option Q :=
  match v with
  | VInt n => Some (inject_Z n)
  | VFloat x => Some x
  | VBool b => Some (if b then 1%Q else 0%Q)
  | _ => None
  end.

(** Truth value, as tested by [not v] and [if v]. *)
Definition truthy (v : pyval) : bool :=
  match v with
  | VNone => false
  | VBool b => b
  | VInt n => negb (n =? 0)
  | VFloat x => negb (Qeq_bool x 0)
  | VStr s => negb (String.eqb s EmptyString)
  | VList l => match l with [] => false | _ => true end
  | VDict d => negb (bool_decide (d = ∅))
  end.

(** ** Exceptions *)

Inductive exn :=
| ValueError (msg : string)
| UnicodeDecodeError          (* a ValueError, raised by text-mode reads *)
| JSONDecodeError             (* json.JSONDecodeError *)
| KeyError (key : string)
| IndexError
| TypeError
| AttributeError
| OSError                     (* IOError is an alias of OSError *)
| RequestException (msg : string)
| SpotifyException (http_status : Z) (headers : option (gmap string string))
| RecursionError              (* a RuntimeError *)
| Exception (msg : string).

(** The error names of the specification; the code raises [ValueError] with
    these messages. *)
Definition ConfigurationError : exn :=
  ValueError ("Missing Spotify credentials. Please set SPOTIFY_CLIENT_ID and "
              +:+ "SPOTIFY_CLIENT_SECRET in your .env file or environment variables.").
Definition NoTokenError : exn :=
  ValueError "No tokens found. Please run authenticate() first to obtain tokens.".
Definition NoRefreshTokenError : exn :=
  ValueError "Token expired and no refresh token available.".
Definition AuthorizationDenied (error : string) : exn :=
  ValueError ("Authorization failed: " +:+ error).
Definition MissingAuthorizationCode : exn :=
  ValueError "No authorization code found in redirect URL".
Definition TokenRefreshError (cause : string) : exn :=
  ValueError ("Failed to refresh token: " +:+ cause).

(** ** Results and the world monad *)

(** [Diverge] is the answer of a loop that ran out of fuel; no handler
    catches it. *)
Inductive res (A : Type) :=
| Ok (a : A)
| Raise (e : exn)
| Diverge.
Arguments Ok {A} a.
Arguments Raise {A} e.
Arguments Diverge {A}.

Section Monad.
Context {W : Type}.

Definition M (A : Type) : Type := W → res A * W.

Definition ret {A} (a : A) : M A := λ w, (Ok a, w).
Definition raise {A} (e : exn) : M A := λ w, (Raise e, w).
Definition diverge {A} : M A := λ w, (Diverge, w).

Definition bind {A B} (m : M A) (f : A → M B) : M B :=
  λ w, match m w with
       | (Ok a, w') => f a w'
       | (Raise e, w') => (Raise e, w')
       | (Diverge, w') => (Diverge, w')
       end.

(** [try: m except <handles>: h]. *)
Definition try_except {A} (m : M A) (handles : exn → bool) (h : exn → M A) : M A :=
  λ w, match m w with
       | (Raise e, w') => if handles e then h e w' else (Raise e, w')
       | r => r
       end.

Definition gets {A} (f : W → A) : M A := λ w, (Ok (f w), w).
Definition modify (f : W → W) : M unit := λ w, (Ok tt, f w).
End Monad.
Arguments M : clear implicits.

Notation "'let*' x ':=' m 'in' k" := (bind m (λ x, k))
  (at level 10, x pattern, m at level 100, k at level 200).
Notation "m ';;' k" := (bind m (λ _, k))
  (at level 100, k at level 200, right associativity).

(** ** The world of [auth.py] *)

(** The file system is a flat map from path strings to nodes; paths are
    text without NUL and are compared literally (no [.], [..] or
    symbolic-link resolution); there are no permissions and no limits on
    sizes.  A file holds bytes. *)
Inductive node :=
| Dir
| File (content : string).

(** [requests.post(url, data=..., auth=...)]. *)
Record post_request := PostRequest {
  pr_url : string;
  pr_data : list (string * pyval);
  pr_auth : string * string;
}.

(** What the token endpoint answers.  [resp_error] is the text of the
    [HTTPError] that [raise_for_status] raises for an error status;
    [resp_json] is the parsed body, or the text of the error [json()]
    raises when the body is not JSON. *)
Record response := Response {
  resp_status : Z;
  resp_error : string;
  resp_json : string + pyval;
}.

Inductive post_outcome :=
| PostRaises (msg : string)      (* ConnectionError, Timeout, ... *)
| PostReturns (r : response).

(** The clock and the token endpoint are oracles indexed by the number of
    interactions so far, so that successive calls may answer differently. *)
Record world := World {
  w_fs : gmap string node;
  w_environ : gmap string string;
  w_clock : nat → Q;
  w_endpoint : nat → post_request → post_outcome;
  w_io : nat;
  w_posts : list post_request;
}.

Definition set_fs (f : gmap string node → gmap string node) (w : world) : world :=
  World (f (w_fs w)) (w_environ w) (w_clock w) (w_endpoint w) (w_io w) (w_posts w).
Definition tick (w : world) : world :=
  World (w_fs w) (w_environ w) (w_clock w) (w_endpoint w) (S (w_io w)) (w_posts w).
Definition log_post (r : post_request) (w : world) : world :=
  World (w_fs w) (w_environ w) (w_clock w) (w_endpoint w) (w_io w) (w_posts w ++ [r])%list.

(** ** Library functions used by [auth.py] *)

(** *** [time], [os.environ], [requests] *)

Definition time_time : M world Q :=
  λ w, (Ok (w_clock w (w_io w)), tick w).

Definition os_getenv (name : string) : M world (option string) :=
  gets (λ w, w_environ w !! name).

Definition requests_post (req : post_request) : M world response :=
  λ w, match w_endpoint w (w_io w) req with
       | PostRaises msg => (Raise (RequestException msg), tick (log_post req w))
       | PostReturns r => (Ok r, tick (log_post req w))
       end.

(** [response.raise_for_status()]: an [HTTPError] (a [RequestException])
    for 4xx and 5xx. *)
Definition raise_for_status (r : response) : M world unit :=
  if (400 <=? resp_status r) && (resp_status r <? 600)
  then raise (RequestException (resp_error r))
  else ret tt.

(** [response.json()]; its decode error is a [RequestException]
    (requests 2.27 and later). *)
Definition response_json (r : response) : M world pyval :=
  match resp_json r with
  | inl msg => raise (RequestException msg)
  | inr v => ret v
  end.

(** *** [os.path] and files *)

Definition is_slash (c : ascii) : bool := Ascii.eqb c "/"%char.

Fixpoint drop_while {A} (p : A → bool) (l : list A) : list A :=
  match l with
  | [] => []
  | x :: l' => if p x then drop_while p l' else l
  end.

Fixpoint take_while {A} (p : A → bool) (l : list A) : list A :=
  match l with
  | [] => []
  | x :: l' => if p x then x :: take_while p l' else []
  end.

(** [os.path.dirname]: the part up to the last slash, without trailing
    slashes unless it consists of slashes only. *)
Definition dirname (p : string) : string :=
  let head_rev := drop_while (λ c, negb (is_slash c)) (rev (list_ascii_of_string p)) in
  if forallb is_slash head_rev
  then string_of_list_ascii head_rev
  else string_of_list_ascii (rev (drop_while is_slash head_rev)).

(** The root directory, however many slashes spell it. *)
Definition is_root (p : string) : bool :=
  negb (String.eqb p EmptyString) && forallb is_slash (list_ascii_of_string p).

Definition is_dir (fs : gmap string node) (p : string) : bool :=
  is_root p || match fs !! p with Some Dir => true | _ => false end.

(** The directories [os.makedirs name] has to find or make, outermost
    first: every prefix of [name] that ends before a slash, then [name]. *)
Fixpoint prefixes_at_slash (seen_rev rest : list ascii) : list string :=
  match rest with
  | [] => []
  | c :: rest' =>
      ((match seen_rev with
        | last :: _ =>
            if is_slash c && negb (is_slash last)
            then [string_of_list_ascii (rev seen_rev)] else []
        | [] => []
        end) ++ prefixes_at_slash (c :: seen_rev) rest')%list
  end.

Definition ancestors (name : string) : list string :=
  (prefixes_at_slash [] (list_ascii_of_string name)
   ++ (if is_root name then [] else [name]))%list.

Fixpoint make_each (dirs : list string) : M world unit :=
  match dirs with
  | [] => ret tt
  | d :: dirs' =>
      let* existing := gets (λ w, w_fs w !! d) in
      match existing with
      | Some (File _) => raise OSError
      | Some Dir => make_each dirs'
      | None => modify (set_fs (insert d Dir)) ;; make_each dirs'
      end
  end.

(** [os.makedirs(name, exist_ok=True)]: [FileNotFoundError] for the empty
    name, an [OSError] when a component exists as a regular file. *)
Definition os_makedirs (name : string) : M world unit :=
  if String.eqb name EmptyString then raise OSError else make_each (ancestors name).

Definition os_path_exists (p : string) : M world bool :=
  gets (λ w, is_root p || bool_decide (is_Some (w_fs w !! p))).

(** Well-formed UTF-8 (Unicode 15, table 3-7), on byte values. *)
Definition between (lo hi b : Z) : bool := (lo <=? b) && (b <=? hi).

Fixpoint utf8_valid (bs : list Z) : bool :=
  match bs with
  | [] => true
  | b0 :: r0 =>
      if b0 <=? 0x7F then utf8_valid r0 else
      match r0 with
      | [] => false
      | b1 :: r1 =>
          if between 0xC2 0xDF b0 then between 0x80 0xBF b1 && utf8_valid r1 else
          match r1 with
          | [] => false
          | b2 :: r2 =>
              if between 0xE0 0xEF b0 then
                between (if b0 =? 0xE0 then 0xA0 else 0x80)
                        (if b0 =? 0xED then 0x9F else 0xBF) b1
                && between 0x80 0xBF b2 && utf8_valid r2
              else
              match r2 with
              | [] => false
              | b3 :: r3 =>
                  between 0xF0 0xF4 b0
                  && between (if b0 =? 0xF0 then 0x90 else 0x80)
                             (if b0 =? 0xF4 then 0x8F else 0xBF) b1
                  && between 0x80 0xBF b2 && between 0x80 0xBF b3
                  && utf8_valid r3
              end
          end
      end
  end.

Definition bytes_of (s : string) : list Z :=
  (λ c, Z.of_N (N_of_ascii c)) <$> list_ascii_of_string s.

(** [bytes.decode("utf-8", errors="replace")], the result again in its
    UTF-8 form: well-formed sequences are kept, and every longest run of
    bytes that starts a well-formed sequence without completing it, like
    every byte that starts none, becomes U+FFFD. *)
Definition replacement : list Z := [0xEF; 0xBF; 0xBD].

Fixpoint utf8_replace (bs : list Z) : list Z :=
  match bs with
  | [] => []
  | b0 :: r0 =>
      if b0 <=? 0x7F then b0 :: utf8_replace r0
      else if between 0xC2 0xDF b0 then
        match r0 with
        | [] => replacement
        | b1 :: r1 =>
            if between 0x80 0xBF b1 then b0 :: b1 :: utf8_replace r1
            else (replacement ++ utf8_replace r0)%list
        end
      else if between 0xE0 0xEF b0 then
        match r0 with
        | [] => replacement
        | b1 :: r1 =>
            if between (if b0 =? 0xE0 then 0xA0 else 0x80)
                       (if b0 =? 0xED then 0x9F else 0xBF) b1
            then
              match r1 with
              | [] => replacement
              | b2 :: r2 =>
                  if between 0x80 0xBF b2 then b0 :: b1 :: b2 :: utf8_replace r2
                  else (replacement ++ utf8_replace r1)%list
              end
            else (replacement ++ utf8_replace r0)%list
        end
      else if between 0xF0 0xF4 b0 then
        match r0 with
        | [] => replacement
        | b1 :: r1 =>
            if between (if b0 =? 0xF0 then 0x90 else 0x80)
                       (if b0 =? 0xF4 then 0x8F else 0xBF) b1
            then
              match r1 with
              | [] => replacement
              | b2 :: r2 =>
                  if between 0x80 0xBF b2 then
                    match r2 with
                    | [] => replacement
                    | b3 :: r3 =>
                        if between 0x80 0xBF b3
                        then b0 :: b1 :: b2 :: b3 :: utf8_replace r3
                        else (replacement ++ utf8_replace r2)%list
                    end
                  else (replacement ++ utf8_replace r1)%list
              end
            else (replacement ++ utf8_replace r0)%list
        end
      else (replacement ++ utf8_replace r0)%list
  end.

Definition chars_of (bs : list Z) : list ascii :=
  (λ b, ascii_of_N (Z.to_N b)) <$> bs.

(** [open(p, "r")] and reading the whole file.  Text mode decodes the bytes
    with the default encoding, UTF-8, and strict error handling: ill-formed
    bytes raise [UnicodeDecodeError].  Text is kept in its UTF-8 form; the
    translation of line endings is not modelled. *)
Definition read_text (p : string) : M world string :=
  let* n := gets (λ w, w_fs w !! p) in
  match n with
  | None => raise OSError                (* FileNotFoundError *)
  | Some Dir => raise OSError            (* IsADirectoryError *)
  | Some (File content) =>
      if utf8_valid (bytes_of content) then ret content
      else raise UnicodeDecodeError
  end.

(** [os.path.basename]: what follows the last slash. *)
Definition basename (p : string) : string :=
  string_of_list_ascii
    (rev (take_while (λ c, negb (is_slash c)) (rev (list_ascii_of_string p)))).

(** A path that names no file: its last component is empty (the empty path,
    a path that ends in a slash), [.] or [..]. *)
Definition names_no_file (p : string) : bool :=
  let name := basename p in
  String.eqb name EmptyString || String.eqb name "." || String.eqb name "..".

(** [open(p, "w")], writing [text] and closing: the file is created or
    truncated. *)
Definition write_text (p text : string) : M world unit :=
  let* fs := gets w_fs in
  if names_no_file p then raise OSError  (* FileNotFoundError, IsADirectoryError,
                                            NotADirectoryError *)
  else
    match fs !! p with
    | Some Dir => raise OSError          (* IsADirectoryError *)
    | _ =>
        if String.eqb (dirname p) EmptyString || is_dir fs (dirname p)
        then modify (set_fs (insert p (File text)))
        else raise OSError               (* FileNotFoundError *)
    end.

(** *** [json] *)

(** The [json] module is an interface here: [json_dumps v] is the text
    [json.dump(v, f, indent=2)] writes (for one order of the members of
    each object); [json_loads] is [json.load] on the decoded text: the value
    it returns, or the exception it raises, which is [JSONDecodeError] for
    text that is not JSON and [RecursionError] for text nested deeper than
    the interpreter allows.  (A text that holds [NaN], an infinity or a
    number beyond the floats, which [json.load] reads as a float that is no
    number, denotes no [pyval].) *)
Class Json := {
  json_dumps : pyval → string;
  json_loads : string → exn + pyval;
}.

(** ** [auth.py] *)

Definition SPOTIFY_TOKEN_URL : string := "https://accounts.spotify.com/api/token".
Definition TOKEN_FILE : string := "data/token.json".

Definition nonempty (o : option string) : bool :=
  match o with
  | Some s => negb (String.eqb s EmptyString)
  | None => false
  end.

Definition get_client_credentials : M world (string * string * string) :=
  let* client_id := os_getenv "SPOTIFY_CLIENT_ID" in
  let* client_secret := os_getenv "SPOTIFY_CLIENT_SECRET" in
  let* redirect_uri := os_getenv "SPOTIFY_REDIRECT_URI" in
  if negb (nonempty client_id) || negb (nonempty client_secret)
  then raise ConfigurationError
  else ret (default EmptyString client_id, default EmptyString client_secret,
            default "http://localhost:8888/callback" redirect_uri).

(** *** [urllib.parse] *)

Definition is_char (c d : ascii) : bool := Ascii.eqb c d.

Fixpoint take_until {A} (p : A → bool) (l : list A) : list A :=
  match l with
  | [] => []
  | x :: l' => if p x then [] else x :: take_until p l'
  end.

(** [urlsplit], which [urlparse] starts with, refuses some URLs with a
    [ValueError]: a host with a bracket that has no partner ("Invalid IPv6
    URL"), a host between brackets that is no IP literal, a host that NFKC
    normalisation changes.  Which URLs it refuses is left to the interface:
    [urlsplit_error url] is the message of that [ValueError]. *)
Class Urllib := {
  urlsplit_error : string → option string;
}.

(** The query component of a URL that [urlsplit] accepts: tabs and newlines
    are removed from the URL, the fragment is cut at the first [#], and the
    query is what follows the first [?] of the rest. *)
Definition urlparse_query (url : string) : list ascii :=
  let unsafe c := is_char c "009" || is_char c "010" || is_char c "013" in
  let chars := List.filter (λ c, negb (unsafe c)) (list_ascii_of_string url) in
  let before_fragment := take_until (is_char "#") chars in
  match drop_while (λ c, negb (is_char "?" c)) before_fragment with
  | [] => []
  | _ :: query => query
  end.

Fixpoint split_on (sep : ascii) (cur_rev : list ascii) (s : list ascii) : list (list ascii) :=
  match s with
  | [] => [rev cur_rev]
  | c :: s' =>
      if is_char sep c then rev cur_rev :: split_on sep [] s'
      else split_on sep (c :: cur_rev) s'
  end.

Definition hex_value (c : ascii) : option N :=
  let n := N_of_ascii c in
  if (48 <=? n)%N && (n <=? 57)%N then Some (n - 48)%N
  else if (65 <=? n)%N && (n <=? 70)%N then Some (n - 55)%N
  else if (97 <=? n)%N && (n <=? 102)%N then Some (n - 87)%N
  else None.

(** [unquote_to_bytes]: [%XX] becomes the byte [XX]. *)
Fixpoint unquote_to_bytes (s : list ascii) : list ascii :=
  match s with
  | [] => []
  | c :: s' =>
      if is_char "%" c then
        match s' with
        | h :: l :: rest =>
            match hex_value h, hex_value l with
            | Some a, Some b => ascii_of_N (16 * a + b) :: unquote_to_bytes rest
            | _, _ => c :: unquote_to_bytes s'
            end
        | _ => c :: unquote_to_bytes s'
        end
      else c :: unquote_to_bytes s'
  end.

(** What [unquote] makes of one run of ASCII characters: the bytes it
    stands for, decoded with [errors="replace"]. *)
Definition unquote_run (run : list ascii) : list ascii :=
  chars_of (utf8_replace (bytes_of (string_of_list_ascii (unquote_to_bytes run)))).

(** [unquote], on the UTF-8 form of the text: each longest run of ASCII
    characters is unquoted, the characters between the runs are kept.
    [run_rev] is the run read so far. *)
Fixpoint unquote_runs (run_rev s : list ascii) : list ascii :=
  match s with
  | [] => unquote_run (rev run_rev)
  | c :: s' =>
      if (N_of_ascii c <? 128)%N then unquote_runs (c :: run_rev) s'
      else (unquote_run (rev run_rev) ++ c :: unquote_runs [] s')%list
  end.

Definition unquote (s : list ascii) : list ascii := unquote_runs [] s.

Definition plus_to_space (s : list ascii) : list ascii :=
  (λ c, if is_char "+" c then " "%char else c) <$> s.

(** [parse_qsl(qs)]: fields are separated by [&]; a field is split at its
    first [=]; fields with a blank value are dropped. *)
Definition parse_qsl (qs : list ascii) : list (string * string) :=
  omap (λ field,
          let name := take_until (is_char "=") field in
          let value := match drop_while (λ c, negb (is_char "=" c)) field with
                       | [] => []
                       | _ :: v => v
                       end in
          match value with
          | [] => None
          | _ => Some (string_of_list_ascii (unquote (plus_to_space name)),
                       string_of_list_ascii (unquote (plus_to_space value)))
          end)
       (split_on "&" [] qs).

(** [parse_qs(qs)]: the values of each name, in order of appearance. *)
Definition parse_qs (qs : list ascii) : gmap string (list string) :=
  fold_left (λ (parsed : gmap string (list string)) '(name, value),
               <[name := (default [] (parsed !! name) ++ [value])%list]> parsed)
            (parse_qsl qs) ∅.

(** ** [auth.py], continued *)

Section Redirect.
Context `{Urllib}.

(** [urlparse(url)], of which the code reads the query. *)
Definition urlparse (url : string) : res (list ascii) :=
  match urlsplit_error url with
  | Some msg => Raise (ValueError msg)
  | None => Ok (urlparse_query url)
  end.

Definition extract_code_from_url (redirect_url : string) : res string :=
  match urlparse redirect_url with
  | Ok query =>
      let query_params := parse_qs query in
      match query_params !! "code" with
      | None =>
          match query_params !! "error" with
          | Some (error :: _) => Raise (AuthorizationDenied error)
          | Some [] => Raise IndexError
          | None => Raise MissingAuthorizationCode
          end
      | Some (code :: _) => Ok code
      | Some [] => Raise IndexError
      end
  | Raise e => Raise e
  | Diverge => Diverge
  end.
End Redirect.

Section Auth.
Context `{Json}.

Definition save_tokens (token_data : gmap string pyval) (filepath : string)
  : M world unit :=
  os_makedirs (dirname filepath) ;;
  write_text filepath (json_dumps (VDict token_data)).

(** The result is a Python value; [VNone] is "absent". *)
Definition load_tokens (filepath : string) : M world pyval :=
  let* present := os_path_exists filepath in
  if negb present then ret VNone
  else
    try_except
      (let* text := read_text filepath in
       match json_loads text with
       | inr v => ret v
       | inl e => raise e
       end)
      (λ e, match e with JSONDecodeError | OSError => true | _ => false end)
      (λ _, ret VNone).

(** [d.get(key, dflt)]; only a [dict] has the method. *)
Definition dict_get (v : pyval) (key : string) (dflt : pyval) : M world pyval :=
  match v with
  | VDict d => ret (default dflt (d !! key))
  | _ => raise AttributeError
  end.

(** [key in d] and [d[key]] on a [dict].  (On another type the code
    below never gets that far: [dict_get] has failed before.) *)
Definition dict_contains (v : pyval) (key : string) : M world bool :=
  match v with
  | VDict d => ret (bool_decide (is_Some (d !! key)))
  | _ => raise TypeError
  end.

Definition dict_item (v : pyval) (key : string) : M world pyval :=
  match v with
  | VDict d => match d !! key with
               | Some x => ret x
               | None => raise (KeyError key)
               end
  | _ => raise TypeError
  end.

Definition is_token_expired (token_data : pyval) : M world bool :=
  let* expires_at := dict_get token_data "expires_at" (VInt 0) in
  let* now := time_time in
  match as_number expires_at with
  | Some e => ret (Qle_bool (e - 60) now)     (* now >= expires_at - 60 *)
  | None => raise TypeError
  end.

(** The form [refresh_access_token] posts, with the client's credentials
    as HTTP basic authentication. *)
Definition refresh_request (refresh_token : pyval) (client_id client_secret : string)
  : post_request :=
  PostRequest SPOTIFY_TOKEN_URL
    [("grant_type", VStr "refresh_token"); ("refresh_token", refresh_token)]
    (client_id, client_secret).

Definition refresh_access_token (refresh_token : pyval)
  : M world (gmap string pyval) :=
  let* (client_id, client_secret, _) := get_client_credentials in
  let* response :=
    requests_post (refresh_request refresh_token client_id client_secret) in
  raise_for_status response ;;
  let* body := response_json response in
  match body with
  | VDict token_data =>
      (* Preserve refresh token if not returned *)
      let token_data :=
        match token_data !! "refresh_token" with
        | None => <["refresh_token" := refresh_token]> token_data
        | Some _ => token_data
        end in
      (* Update expiration *)
      let* now := time_time in
      match as_number (default (VInt 3600) (token_data !! "expires_in")) with
      | Some expires_in =>
          ret (<["expires_at" := VFloat (now + expires_in)]> token_data)
      | None => raise TypeError
      end
  | _ => raise TypeError   (* a body that is not an object: TypeError or
                              AttributeError, which nothing here catches *)
  end.

Definition get_valid_token : M world pyval :=
  let* token_data := load_tokens TOKEN_FILE in
  if negb (truthy token_data) then raise NoTokenError
  else
    let* expired := is_token_expired token_data in
    let* token_data :=
      if expired then
        let* has_refresh := dict_contains token_data "refresh_token" in
        if negb has_refresh then raise NoRefreshTokenError
        else
          try_except
            (let* refresh_token := dict_item token_data "refresh_token" in
             let* refreshed := refresh_access_token refresh_token in
             save_tokens refreshed TOKEN_FILE ;;
             ret (VDict refreshed))
            (λ e, match e with RequestException _ => true | _ => false end)
            (λ e, match e with
                  | RequestException msg => raise (TokenRefreshError msg)
                  | _ => raise e
                  end)
      else ret token_data in
    dict_item token_data "access_token".
End Auth.

(** ** [auth.py]: the authorization flow *)

Definition SPOTIFY_AUTH_URL : string := "https://accounts.spotify.com/authorize".

Definition SCOPES : list string :=
  ["user-top-read"; "user-read-recently-played"; "user-library-read"].

(** *** [urllib.parse.urlencode] *)

(** [sep.join(parts)]. *)
Fixpoint str_join (sep : string) (parts : list string) : string :=
  match parts with
  | [] => EmptyString
  | [p] => p
  | p :: parts' => p +:+ sep +:+ str_join sep parts'
  end.

(** The characters [quote_plus] leaves as they are: letters, digits and
    [_.-~]. *)
Definition is_unreserved (c : ascii) : bool :=
  let n := N_of_ascii c in
  ((65 <=? n) && (n <=? 90) || (97 <=? n) && (n <=? 122) || (48 <=? n) && (n <=? 57))%N
  || is_char "_" c || is_char "." c || is_char "-" c || is_char "~" c.

Definition hex_upper (n : N) : ascii :=
  if (n <? 10)%N then ascii_of_N (48 + n) else ascii_of_N (55 + n).

(** One byte of the UTF-8 form of the text: kept, written as [+] when it
    is a space, or written as [%XX]. *)
Definition quote_byte (c : ascii) : list ascii :=
  if is_unreserved c then [c]
  else if is_char " " c then ["+"%char]
  else ["%"%char; hex_upper (N_of_ascii c / 16); hex_upper (N_of_ascii c mod 16)].

Definition quote_plus (s : string) : string :=
  string_of_list_ascii (flat_map quote_byte (list_ascii_of_string s)).

(** [urlencode(query)] on a [dict] of strings, given as the list of its
    items in insertion order. *)
Definition urlencode (query : list (string * string)) : string :=
  str_join "&" ((λ '(k, v), quote_plus k +:+ "=" +:+ quote_plus v) <$> query).

(** *** The authorization URL and the code exchange *)

Definition build_auth_url (state : option string) : M world string :=
  let* (client_id, _, redirect_uri) := get_client_credentials in
  let params :=
    [("client_id", client_id); ("response_type", "code");
     ("redirect_uri", redirect_uri); ("scope", str_join " " SCOPES);
     ("show_dialog", "false")] in
  let params :=
    if nonempty state then (params ++ [("state", default EmptyString state)])%list
    else params in
  ret (SPOTIFY_AUTH_URL +:+ "?" +:+ urlencode params).

(** The form [exchange_code_for_token] posts. *)
Definition exchange_request (auth_code client_id client_secret redirect_uri : string)
  : post_request :=
  PostRequest SPOTIFY_TOKEN_URL
    [("grant_type", VStr "authorization_code"); ("code", VStr auth_code);
     ("redirect_uri", VStr redirect_uri)]
    (client_id, client_secret).

Definition exchange_code_for_token (auth_code : string)
  : M world (gmap string pyval) :=
  let* (client_id, client_secret, redirect_uri) := get_client_credentials in
  let* response :=
    requests_post (exchange_request auth_code client_id client_secret redirect_uri) in
  raise_for_status response ;;
  let* body := response_json response in
  (* Add timestamp for expiration tracking *)
  let* now := time_time in
  match body with
  | VDict token_data =>
      match as_number (default (VInt 3600) (token_data !! "expires_in")) with
      | Some expires_in =>
          ret (<["expires_at" := VFloat (now + expires_in)]> token_data)
      | None => raise TypeError
      end
  | VList _ | VStr _ | VNone | VBool _ | VInt _ | VFloat _ =>
      raise AttributeError                (* no [get] on these *)
  end.

(** *** The console *)

(** What [authenticate] talks to besides the world of the token store: the
    lines waiting on standard input and the pages [webbrowser.open] was
    asked to show. *)
Record console := Console {
  c_world : world;
  c_stdin : list string;
  c_opened : list string;
}.

Definition set_world (a : world) (c : console) : console :=
  Console a (c_stdin c) (c_opened c).

(** Running a computation of the token store at the console. *)
Definition at_console {A} (m : M world A) : M console A :=
  λ c, let (r, a) := m (c_world c) in (r, set_world a c).

Definition webbrowser_open (url : string) : M console unit :=
  modify (λ c, Console (c_world c) (c_stdin c) (c_opened c ++ [url])%list).

(** [input(prompt)]: the next line, without its line end; [EOFError] (an
    [Exception]) when there is none. *)
Definition input : M console string :=
  λ c, match c_stdin c with
       | line :: rest => (Ok line, Console (c_world c) rest (c_opened c))
       | [] => (Raise (Exception "EOF when reading a line"), c)
       end.

(** [str.strip()], on the UTF-8 form of the text.  The characters stripped
    are those of [str.isspace]: U+0009 to U+000D, U+001C to U+0020, U+0085,
    U+00A0, U+1680, U+2000 to U+200A, U+2028, U+2029, U+202F, U+205F and
    U+3000. *)
Definition space1 (a : ascii) : bool :=
  let n := N_of_ascii a in
  ((9 <=? n) && (n <=? 13) || (28 <=? n) && (n <=? 32))%N.

Definition space2 (a b : ascii) : bool :=
  (N_of_ascii a =? 0xC2)%N && ((N_of_ascii b =? 0x85) || (N_of_ascii b =? 0xA0))%N.

Definition space3 (a b c : ascii) : bool :=
  let '(x, y, z) := (N_of_ascii a, N_of_ascii b, N_of_ascii c) in
  ((x =? 0xE1) && (y =? 0x9A) && (z =? 0x80)
   || (x =? 0xE2) && (y =? 0x80)
      && ((0x80 <=? z) && (z <=? 0x8A) || (z =? 0xA8) || (z =? 0xA9) || (z =? 0xAF))
   || (x =? 0xE2) && (y =? 0x81) && (z =? 0x9F)
   || (x =? 0xE3) && (y =? 0x80) && (z =? 0x80))%N.

Fixpoint lstrip (s : list ascii) : list ascii :=
  match s with
  | a :: s1 =>
      if space1 a then lstrip s1 else
      match s1 with
      | b :: s2 =>
          if space2 a b then lstrip s2 else
          match s2 with
          | c :: s3 => if space3 a b c then lstrip s3 else s
          | [] => s
          end
      | [] => s
      end
  | [] => []
  end.

(** The same from the end, on the reversed text. *)
Fixpoint lstrip_reversed (s : list ascii) : list ascii :=
  match s with
  | c :: s1 =>
      if space1 c then lstrip_reversed s1 else
      match s1 with
      | b :: s2 =>
          if space2 b c then lstrip_reversed s2 else
          match s2 with
          | a :: s3 => if space3 a b c then lstrip_reversed s3 else s
          | [] => s
          end
      | [] => s
      end
  | [] => []
  end.

Definition strip (s : string) : string :=
  string_of_list_ascii
    (rev (lstrip_reversed (rev (lstrip (list_ascii_of_string s))))).

Section AuthFlow.
Context `{Json} `{Urllib}.

(** [print] is not modelled, so the handler of [authenticate], which
    prints and raises the exception again, only raises it again. *)
Definition authenticate (interactive : bool) : M console (gmap string pyval) :=
  let* auth_url := at_console (build_auth_url None) in
  (if interactive then webbrowser_open auth_url else ret tt) ;;
  let* line := input in
  let redirect_url := strip line in
  try_except
    (let* auth_code := (λ c, (extract_code_from_url redirect_url, c)) in
     let* token_data := at_console (exchange_code_for_token auth_code) in
     at_console (save_tokens token_data TOKEN_FILE) ;;
     ret token_data)
    (λ _, true)
    (λ e, raise e).
End AuthFlow.

(** ** The world of [api_client.py] *)

(** Python's [==] on JSON values: numbers by value, containers member by
    member. *)
Fixpoint py_eq (a b : pyval) {struct a} : bool :=
  match a, b with
  | VNone, VNone => true
  | VStr s, VStr t => String.eqb s t
  | VList l, VList m =>
      (fix go (l m : list pyval) : bool :=
         match l, m with
         | [], [] => true
         | x :: l', y :: m' => py_eq x y && go l' m'
         | _, _ => false
         end) l m
  | VDict d, VDict e =>
      bool_decide (merge (λ x y, match x, y with
                                 | Some x, Some y => if py_eq x y then None else Some tt
                                 | None, None => None
                                 | _, _ => Some tt
                                 end) d e = (∅ : gmap string unit))
  | _, _ =>
      match as_number a, as_number b with
      | Some x, Some y => Qeq_bool x y
      | _, _ => false
      end
  end.

(** [spotipy.Spotify(auth=token)]. *)
Record spotipy := Spotify { auth : pyval }.

(** A paging object: [page_items] is [None] when the response has no
    ["items"], [page_next] is [None] when ["next"] is missing or null. *)
Record page := Page {
  page_items : option (list pyval);
  page_next : option string;
}.

Inductive api_request :=
| CurrentUserTopTracks (time_range : string) (limit : Z)
| Next (url : string)
| AudioFeatures (tracks : list string).

Inductive event :=
| Sleep (seconds : Q)
| ApiCall (bearer : pyval) (req : api_request).

(** The Web API is an oracle indexed by the number of calls made so far and
    by the bearer token: [aw_pages] answers the paging endpoints,
    [aw_features] answers [audio_features] with one entry per track
    ([VNone] for an unknown id).  [aw_access_token] and [aw_client] are the
    fields [self._access_token] and [self._spotipy_client]. *)
Record api_world := ApiWorld {
  aw_auth : world;
  aw_pages : nat → pyval → api_request → exn + page;
  aw_features : nat → pyval → list string → exn + list pyval;
  aw_calls : nat;
  aw_log : list event;
  aw_access_token : pyval;
  aw_client : option spotipy;
}.

Definition set_auth (a : world) (w : api_world) : api_world :=
  ApiWorld a (aw_pages w) (aw_features w) (aw_calls w) (aw_log w)
           (aw_access_token w) (aw_client w).
Definition log_event (e : event) (w : api_world) : api_world :=
  ApiWorld (aw_auth w) (aw_pages w) (aw_features w) (aw_calls w)
           (aw_log w ++ [e])%list (aw_access_token w) (aw_client w).
Definition count_call (w : api_world) : api_world :=
  ApiWorld (aw_auth w) (aw_pages w) (aw_features w) (S (aw_calls w)) (aw_log w)
           (aw_access_token w) (aw_client w).
Definition set_access_token (t : pyval) (w : api_world) : api_world :=
  ApiWorld (aw_auth w) (aw_pages w) (aw_features w) (aw_calls w) (aw_log w)
           t (aw_client w).
Definition set_client (c : spotipy) (w : api_world) : api_world :=
  ApiWorld (aw_auth w) (aw_pages w) (aw_features w) (aw_calls w) (aw_log w)
           (aw_access_token w) (Some c).

(** Running a computation of [auth.py] inside the client's world. *)
Definition lift_auth {A} (m : M world A) : M api_world A :=
  λ w, let (r, a) := m (aw_auth w) in (r, set_auth a w).

Definition of_answer {A} (answer : exn + A) : res A :=
  match answer with
  | inl e => Raise e
  | inr a => Ok a
  end.

(** One request for a paging object. *)
Definition call_pages (client : spotipy) (req : api_request) : M api_world page :=
  λ w, (of_answer (aw_pages w (aw_calls w) (auth client) req),
        count_call (log_event (ApiCall (auth client) req) w)).

(** [client.audio_features(tracks)]. *)
Definition audio_features (client : spotipy) (tracks : list string)
  : M api_world (list pyval) :=
  λ w, (of_answer (aw_features w (aw_calls w) (auth client) tracks),
        count_call (log_event (ApiCall (auth client) (AudioFeatures tracks)) w)).

(** [time.sleep]. *)
Definition time_sleep (seconds : Q) : M api_world unit :=
  if Qle_bool 0 seconds then modify (log_event (Sleep seconds))
  else raise (ValueError "sleep length must be non-negative").

(** [int(s)] on a string: optional blanks around an optional sign and
    decimal digits, which single underscores may separate.  (The decimal
    digits and the blanks outside ASCII, which [int] reads as well, are not
    modelled: a string that holds one is not read.) *)
Definition digit_value (c : ascii) : option Z :=
  let n := Z.of_N (N_of_ascii c) in
  if (48 <=? n) && (n <=? 57) then Some (n - 48) else None.

(** [after_digit]: the character before was a digit. *)
Fixpoint digits_value (acc : Z) (after_digit : bool) (s : list ascii) : option Z :=
  match s with
  | [] => if after_digit then Some acc else None
  | c :: s' =>
      if is_char "_" c then
        if after_digit then digits_value acc false s' else None
      else
        match digit_value c with
        | Some d => digits_value (10 * acc + d) true s'
        | None => None
        end
  end.

Definition is_blank (c : ascii) : bool :=
  is_char " " c || ((9 <=? N_of_ascii c)%N && (N_of_ascii c <=? 13)%N).

Definition int_of_string (s : string) : option Z :=
  let body := rev (drop_while is_blank (rev (drop_while is_blank (list_ascii_of_string s)))) in
  let unsigned ds := digits_value 0 false ds in
  match body with
  | c :: ds =>
      if is_char "-" c then Z.opp <$> unsigned ds
      else if is_char "+" c then unsigned ds
      else unsigned body
  | [] => None
  end.

(** [int(x)] on a float truncates towards zero. *)
Definition int_of_float (x : Q) : Z := Z.quot (Qnum x) (Z.pos (Qden x)).

(** ** [api_client.py] *)

Section ApiClient.
Context `{Json}.

Definition _get_client : M api_world spotipy :=
  let* cached := gets aw_client in
  let* rebuild :=
    match cached with
    | None => ret true
    | Some _ =>
        let* access_token := gets aw_access_token in
        let* valid := lift_auth get_valid_token in
        ret (negb (py_eq access_token valid))
    end in
  match rebuild, cached with
  | false, Some client => ret client
  | _, _ =>
      let* token := lift_auth get_valid_token in
      modify (set_access_token token) ;;
      lift_auth get_client_credentials ;;
      modify (set_client (Spotify token)) ;;
      ret (Spotify token)
  end.

(** [int(e.headers.get("Retry-After", delay))].  Header names are kept in
    lower case, the way the case-insensitive [headers] compares them. *)
Definition retry_after_of (headers : option (gmap string string)) (delay : Q)
  : M api_world Z :=
  match headers with
  | None => raise AttributeError
  | Some h =>
      match h !! "retry-after" with
      | Some s =>
          match int_of_string s with
          | Some n => ret n
          | None => raise (ValueError ("invalid literal for int() with base 10: " +:+ s))
          end
      | None => ret (int_of_float delay)
      end
  end.

(** The body of [for attempt in range(max_retries)], over the attempts
    still to make. *)
Fixpoint retry_loop {A} (func : M api_world A) (max_retries : Z) (delay : Q)
    (attempts : list Z) : M api_world A :=
  match attempts with
  | [] => raise (Exception "Max retries exceeded")
  | attempt :: rest =>
      let backoff e :=
        if attempt <? max_retries - 1 then
          time_sleep (delay * inject_Z (2 ^ attempt)) ;;
          retry_loop func max_retries delay rest
        else raise e in
      try_except func (λ _, true)
        (λ e,
           match e with
           | SpotifyException http_status headers =>
               if http_status =? 429 then         (* Rate limited *)
                 let* retry_after := retry_after_of headers delay in
                 if attempt <? max_retries - 1 then
                   time_sleep (inject_Z retry_after) ;;
                   retry_loop func max_retries delay rest
                 else raise e
               else if 500 <=? http_status then   (* Server error *)
                 backoff e
               else raise e
           | _ => backoff e
           end)
  end.

Definition range (n : Z) : list Z := Z.of_nat <$> seq 0 (Z.to_nat n).

Definition _retry_request {A} (func : M api_world A) (max_retries : Z) (delay : Q)
  : M api_world A :=
  retry_loop func max_retries delay (range max_retries).

Definition items_of (results : page) : list pyval :=
  default [] (page_items results).

(** [results.get("next")], when it is truthy. *)
Definition next_of (results : page) : option string :=
  match page_next results with
  | Some url => if String.eqb url EmptyString then None else Some url
  | None => None
  end.

(** [while results.get("next"): ...], with [fuel] bounding the number of
    iterations. *)
Fixpoint drain (fuel : nat) (client : spotipy) (results : page) (tracks : list pyval)
  : M api_world (list pyval) :=
  match next_of results with
  | None => ret tracks
  | Some url =>
      match fuel with
      | O => diverge
      | S fuel' =>
          let* results := call_pages client (Next url) in
          drain fuel' client results (tracks ++ items_of results)%list
      end
  end.

Definition get_top_tracks (fuel : nat) (time_range : string) (limit : Z)
  : M api_world (list pyval) :=
  let* client := _get_client in
  let _fetch :=
    let* results := call_pages client (CurrentUserTopTracks time_range limit) in
    drain fuel client results (items_of results) in
  _retry_request _fetch 3 1.

(** One turn of the item-by-item fallback: the [try] block around the
    request for a single track. *)
Definition fetch_one (client : spotipy) (track_id : string)
  : M api_world (option pyval) :=
  try_except
    (time_sleep (1 # 10) ;;
     let* feat := audio_features client [track_id] in
     match feat with
     | f :: _ => if truthy f then ret (Some f) else ret None
     | [] => ret None
     end)
    (λ _, true)
    (λ _, ret None).

(** The item-by-item fallback of [_fetch_batch]. *)
Fixpoint fetch_individually (client : spotipy) (batch : list string)
    (individual_features : list pyval) : M api_world (list pyval) :=
  match batch with
  | [] => ret individual_features
  | track_id :: batch' =>
      let* found := fetch_one client track_id in
      fetch_individually client batch'
        (match found with
         | Some f => individual_features ++ [f]
         | None => individual_features
         end)%list
  end.

Definition _fetch_batch (client : spotipy) (batch : list string)
  : M api_world (list pyval) :=
  try_except (audio_features client batch) (λ _, true)
    (λ _, fetch_individually client batch []).

Definition is_not_None (v : pyval) : bool :=
  match v with
  | VNone => false
  | _ => true
  end.

(** [range(0, n, 20)]. *)
Definition batch_starts (n : nat) : list nat :=
  (λ k, 20 * k)%nat <$> seq 0 ((n + 19) / 20).

(** The body of [for i in range(0, len(track_ids), 20)]. *)
Fixpoint batches_loop (client : spotipy) (track_ids : list string)
    (starts : list nat) (all_features : list pyval) : M api_world (list pyval) :=
  match starts with
  | [] => ret all_features
  | i :: starts' =>
      let batch := take 20 (drop i track_ids) in
      let* features := _retry_request (_fetch_batch client batch) 3 1 in
      let all_features := (all_features ++ List.filter is_not_None features)%list in
      (if (i + 20 <? length track_ids)%nat then time_sleep (2 # 10) else ret tt) ;;
      batches_loop client track_ids starts' all_features
  end.

Definition get_audio_features_for_tracks (track_ids : list string)
  : M api_world (list pyval) :=
  let* client := _get_client in
  batches_loop client track_ids (batch_starts (length track_ids)) [].
End ApiClient.

(** ** [api_client.py]: the other endpoints *)

(** The methods of [spotipy.Spotify] behind the remaining endpoints are
    parameters: each is some computation in the client's world. *)
Section Endpoints.
Context `{Json}.
Variable current_user_top_artists : spotipy → string → Z → M api_world page.
Variable current_user_recently_played : spotipy → Z → M api_world page.
Variable track : spotipy → string → M api_world pyval.

Definition get_top_artists (fuel : nat) (time_range : string) (limit : Z)
  : M api_world (list pyval) :=
  let* client := _get_client in
  let _fetch :=
    let* results := current_user_top_artists client time_range limit in
    drain fuel client results (items_of results) in
  _retry_request _fetch 3 1.

Definition get_recently_played (limit : Z) : M api_world (list pyval) :=
  let* client := _get_client in
  let _fetch :=
    let* results := current_user_recently_played client limit in
    ret (items_of results) in
  _retry_request _fetch 3 1.

Definition get_track_info (track_id : string) : M api_world pyval :=
  let* client := _get_client in
  let _fetch := track client track_id in
  _retry_request _fetch 3 1.
End Endpoints.

(** ** Vocabulary of the client's properties *)

(** [n] more calls made and [events] more events logged. *)
Definition advance (n : nat) (events : list event) (w : api_world) : api_world :=
  ApiWorld (aw_auth w) (aw_pages w) (aw_features w) (n + aw_calls w)
           (aw_log w ++ events)%list (aw_access_token w) (aw_client w).

(** From its [k]-th call on, the API answers [req], and then the "next" link
    of each page in turn, with [pages]; every page but the last has a "next"
    link. *)
Fixpoint serves (oracle : nat → pyval → api_request → exn + page) (bearer : pyval)
    (k : nat) (req : api_request) (pages : list page) : Prop :=
  match pages with
  | [] => False
  | p :: rest =>
      oracle k bearer req = inr p
      ∧ match rest with
        | [] => next_of p = None
        | _ => ∃ url, next_of p = Some url ∧ serves oracle bearer (S k) (Next url) rest
        end
  end.

(** What a single-track request contributes: the first entry of its
    answer, when the request succeeds and the entry is truthy. *)
Definition individually (answer : exn + list pyval) : option pyval :=
  match answer with
  | inr (f :: _) => if truthy f then Some f else None
  | _ => None
  end.

(** The features of the tracks of [batch] whose own requests, the [k]-th
    call and the following, succeed. *)
Fixpoint kept_individually (oracle : nat → pyval → list string → exn + list pyval)
    (bearer : pyval) (k : nat) (batch : list string) : list pyval :=
  match batch with
  | [] => []
  | track_id :: batch' =>
      (match individually (oracle k bearer [track_id]) with
       | Some f => [f]
       | None => []
       end ++ kept_individually oracle bearer (S k) batch')%list
  end.

(** The events of the item-by-item fallback: for each track of the batch, a
    pause and a request for that track alone. *)
Definition individual_events (bearer : pyval) (batch : list string) : list event :=
  flat_map (λ track_id, [Sleep (1 # 10); ApiCall bearer (AudioFeatures [track_id])]) batch.

(** The two ways a batch goes, from world [w] to world [w'] with
    [features]: one batch request that is answered; or one batch request
    that fails, followed by the fallback over the tracks of this batch. *)
Inductive batch_outcome (client : spotipy) (batch : list string) (w : api_world)
  : list pyval → api_world → Prop :=
| batch_answered features :
    aw_features w (aw_calls w) (auth client) batch = inr features →
    batch_outcome client batch w features
      (advance 1 [ApiCall (auth client) (AudioFeatures batch)] w)
| batch_fell_back e :
    aw_features w (aw_calls w) (auth client) batch = inl e →
    batch_outcome client batch w
      (kept_individually (aw_features w) (auth client) (S (aw_calls w)) batch)
      (advance (S (length batch))
         (ApiCall (auth client) (AudioFeatures batch)
          :: individual_events (auth client) batch) w).

(** ** Vocabulary of the token store's properties *)

(** Text of ASCII characters only: what RFC 6749 allows in tokens, token
    types and scopes. *)
Definition ascii_text (s : string) : Prop :=
  Forall (λ c, Z.of_N (N_of_ascii c) < 128) (list_ascii_of_string s).

(** As many decimal places as the expansion of a fraction in lowest terms
    with denominator [d] has, when the expansion ends: there are no more of
    them than [d] has binary digits. *)
Definition places (d : positive) : nat := S (Z.to_nat (Z.log2 (Z.pos d))).

(** An instant whose decimal expansion ends: a fraction in lowest terms
    whose denominator divides a power of ten.  Every binary64 value is
    one. *)
Definition decimal (x : Q) : Prop :=
  Qred x = x ∧ (Z.pos (Qden x) | 10 ^ Z.of_nat (places (Qden x))).

(** The member values of a token record: strings of ASCII characters,
    integers, booleans, [None], and decimal instants. *)
Definition exact_scalar (v : pyval) : Prop :=
  match v with
  | VNone | VBool _ | VInt _ => True
  | VFloat x => decimal x
  | VStr s => ascii_text s
  | VList _ | VDict _ => False
  end.

(** A token record: an object whose member names are ASCII text and whose
    member values are such scalars. *)
Definition token_record (d : gmap string pyval) : Prop :=
  map_Forall (λ name value, ascii_text name ∧ exact_scalar value) d.

(** [json] reads back what it writes for the value [v]: the text
    [json.dump] writes for [v] is text a file gives back (well-formed
    UTF-8; with [ensure_ascii], the default, it is ASCII), and [json.load]
    makes [v] of it. *)
Definition json_reads_back `{Json} (v : pyval) : Prop :=
  utf8_valid (bytes_of (json_dumps v)) = true ∧ json_loads (json_dumps v) = inr v.

(** What the handler of [load_tokens] makes of the answer of [json.load]. *)
Definition loaded (answer : exn + pyval) : res pyval :=
  match answer with
  | inr v => Ok v
  | inl JSONDecodeError | inl OSError => Ok VNone
  | inl e => Raise e
  end.

(** ** Vocabulary of the authorization flow's properties *)

(** The marks of the URL syntax: the separators of a query, the marks that
    begin the query and the fragment, and the characters [urlparse]
    removes. *)
Definition query_mark (c : ascii) : bool :=
  is_char "=" c || is_char "&" c || is_char "#" c || is_char "?" c
  || is_char "009" c || is_char "010" c || is_char "013" c.

Definition query_plain (c : ascii) : bool := negb (query_mark c).

(** A character that [urlparse] keeps and that does not begin the
    fragment. *)
Definition url_plain (c : ascii) : bool :=
  negb (is_char "#" c || is_char "009" c || is_char "010" c || is_char "013" c).

(** An address with no query and no fragment of its own. *)
Definition address_plain (c : ascii) : bool :=
  url_plain c && negb (is_char "?" c).

Definition plain_address (base : string) : Prop :=
  Forall (λ c, address_plain c = true) (list_ascii_of_string base).

(** The items of a query that have a value. *)
Definition nonblank (query : list (string * string)) : list (string * string) :=
  filter (λ p, p.2 ≠ EmptyString) query.

(** The values a list of parameters gives to [name], in their order. *)
Definition values_of (name : string) (params : list (string * string)) : list string :=
  snd <$> filter (λ p, p.1 = name) params.

(** What the redirect says, by its parameters: the first code when there is
    one; else the denial with the first error, when there is one; else that
    the code is missing. *)
Definition redirect_outcome (params : list (string * string)) : res string :=
  match values_of "code" params with
  | code :: _ => Ok code
  | [] =>
      match values_of "error" params with
      | error :: _ => Raise (AuthorizationDenied error)
      | [] => Raise MissingAuthorizationCode
      end
  end.

(** Text as [bytes.decode(errors="replace")] reads it: itself when it is
    well-formed UTF-8. *)
Definition as_text (s : string) : string :=
  string_of_list_ascii (chars_of (utf8_replace (bytes_of s))).

(** The parameters a query is read back as. *)
Definition read_back (query : list (string * string)) : list (string * string) :=
  (λ p, (as_text p.1, as_text p.2)) <$> nonblank query.

(** The text of one item of a query. *)
Definition field_text (p : string * string) : string :=
  quote_plus p.1 +:+ "=" +:+ quote_plus p.2.


(** ** Vocabulary of the client's further properties *)

(** The cached client, if there is one, carries the cached access
    token. *)
Definition cache_coherent (w : api_world) : Prop :=
  ∀ client, aw_client w = Some client → auth client = aw_access_token w.

(** The failures [_retry_request] answers with its exponential backoff:
    server errors, and everything that is no [SpotifyException]. *)
Definition backs_off (e : exn) : Prop :=
  match e with
  | SpotifyException status _ => 500 ≤ status
  | _ => True
  end.

(** The characters that [int] reads: digits, signs, the underscore and
    blanks, and outside ASCII some more digits and blanks. *)
Definition literal_char (c : ascii) : bool :=
  bool_decide (is_Some (digit_value c)) || is_char "+" c || is_char "-" c
  || is_char "_" c || is_blank c || (128 <=? N_of_ascii c)%N.

(** A text that is no integer for [int], whatever else it holds: it holds a
    character that [int] does not read. *)
Definition no_integer (s : string) : Prop :=
  Exists (λ c, literal_char c = false) (list_ascii_of_string s).

(** The pauses of a log, in order. *)
Definition sleeps (log : list event) : list Q :=
  omap (λ e, match e with Sleep seconds => Some seconds | ApiCall _ _ => None end) log.

(** The pauses of the exponential backoff after the attempts [first],
    [first + 1], ..., [pauses] of them. *)
Definition backoffs (delay : Q) (first : nat) (pauses : nat) : list Q :=
  (λ attempt : nat, delay * inject_Z (2 ^ Z.of_nat attempt))%Q <$> seq first pauses.

(** One attempt of [get_top_tracks]: the first request, then the pages
    that follow. *)
Definition fetch_pages (fuel : nat) (client : spotipy) (req : api_request)
  : M api_world (list pyval) :=
  let* results := call_pages client req in
  drain fuel client results (items_of results).

(** ** A reference implementation of the [json] interface

    A printer that lays text out as [json.dump(..., indent=2)] does, with
    non-ASCII characters escaped, and a parser for the JSON grammar.  It
    gives the examples below a concrete [json]; the theorems hold for every
    implementation of the interface.  It is not Python's [json] in every
    respect: a float is printed with all the digits of its decimal expansion
    (Python prints the shortest text that reads back as the same binary64
    value) and a number is read as the exact value of its text (Python
    rounds it to binary64), so that both read back every binary64 value,
    by different texts; [NaN] and the infinities are not read; and no
    nesting is too deep. *)
Module RefJson.
Definition chars (s : string) : list ascii := list_ascii_of_string s.
Definition quote : ascii := "034"%char.
Definition newline : ascii := "010"%char.

(** UTF-8, on well-formed input. *)
Fixpoint utf8_decode (bs : list Z) : list Z :=
  match bs with
  | [] => []
  | b0 :: r0 =>
      if b0 <? 0x80 then b0 :: utf8_decode r0 else
      match r0 with
      | [] => [b0]
      | b1 :: r1 =>
          if b0 <? 0xE0 then
            Z.lor (Z.shiftl (Z.land b0 0x1F) 6) (Z.land b1 0x3F) :: utf8_decode r1
          else
          match r1 with
          | [] => [b0; b1]
          | b2 :: r2 =>
              if b0 <? 0xF0 then
                Z.lor (Z.shiftl (Z.land b0 0x0F) 12)
                  (Z.lor (Z.shiftl (Z.land b1 0x3F) 6) (Z.land b2 0x3F))
                :: utf8_decode r2
              else
              match r2 with
              | [] => [b0; b1; b2]
              | b3 :: r3 =>
                  Z.lor (Z.shiftl (Z.land b0 0x07) 18)
                    (Z.lor (Z.shiftl (Z.land b1 0x3F) 12)
                       (Z.lor (Z.shiftl (Z.land b2 0x3F) 6) (Z.land b3 0x3F)))
                  :: utf8_decode r3
              end
          end
      end
  end.

Definition utf8_encode (cp : Z) : list Z :=
  if cp <? 0x80 then [cp]
  else if cp <? 0x800 then
    [Z.lor 0xC0 (Z.shiftr cp 6); Z.lor 0x80 (Z.land cp 0x3F)]
  else if cp <? 0x10000 then
    [Z.lor 0xE0 (Z.shiftr cp 12); Z.lor 0x80 (Z.land (Z.shiftr cp 6) 0x3F);
     Z.lor 0x80 (Z.land cp 0x3F)]
  else
    [Z.lor 0xF0 (Z.shiftr cp 18); Z.lor 0x80 (Z.land (Z.shiftr cp 12) 0x3F);
     Z.lor 0x80 (Z.land (Z.shiftr cp 6) 0x3F); Z.lor 0x80 (Z.land cp 0x3F)].

Definition char_of (b : Z) : ascii := ascii_of_N (Z.to_N b).
Definition code_of (c : ascii) : Z := Z.of_N (N_of_ascii c).

Definition hex_digit (n : Z) : ascii :=
  if n <? 10 then char_of (48 + n) else char_of (87 + n).

Definition u_escape (n : Z) : list ascii :=
  ["\"%char; "u"%char; hex_digit (Z.land (Z.shiftr n 12) 15);
   hex_digit (Z.land (Z.shiftr n 8) 15); hex_digit (Z.land (Z.shiftr n 4) 15);
   hex_digit (Z.land n 15)].

Definition escape_code_point (cp : Z) : list ascii :=
  if cp =? 34 then ["\"%char; quote]
  else if cp =? 92 then ["\"%char; "\"%char]
  else if cp =? 10 then ["\"%char; "n"%char]
  else if cp =? 13 then ["\"%char; "r"%char]
  else if cp =? 9 then ["\"%char; "t"%char]
  else if cp =? 8 then ["\"%char; "b"%char]
  else if cp =? 12 then ["\"%char; "f"%char]
  else if (cp <? 32) || (126 <? cp) && (cp <? 0x10000) then u_escape cp
  else if 0x10000 <=? cp then
    (u_escape (0xD800 + Z.shiftr (cp - 0x10000) 10)
     ++ u_escape (0xDC00 + Z.land (cp - 0x10000) 0x3FF))%list
  else [char_of cp].

Definition dump_string (s : string) : list ascii :=
  (quote :: concat (escape_code_point <$> utf8_decode (code_of <$> chars s))
   ++ [quote])%list.

(** The decimal expansion of [r / d], digit by digit. *)
Fixpoint fraction_digits (fuel : nat) (r d : Z) : list ascii :=
  match fuel with
  | O => []
  | S fuel' =>
      if r =? 0 then []
      else char_of (48 + (10 * r) / d) :: fraction_digits fuel' ((10 * r) mod d) d
  end.

(** A float: the integer part, the point and the digits of the fraction,
    all of them when the expansion ends. *)
Definition dump_float (x : Q) : list ascii :=
  let n := Z.abs (Qnum x) in
  let d := Z.pos (Qden x) in
  let frac := fraction_digits (places (Qden x)) (n mod d) d in
  ((if Qnum x <? 0 then ["-"%char] else [])
   ++ chars (pretty (n / d)) ++ "."%char
   :: match frac with [] => ["0"%char] | _ => frac end)%list.

Definition indent (level : nat) : list ascii :=
  concat (replicate level [" "%char; " "%char]).

Fixpoint join (sep : list ascii) (parts : list (list ascii)) : list ascii :=
  match parts with
  | [] => []
  | [p] => p
  | p :: parts' => (p ++ sep ++ join sep parts')%list
  end.

Definition block (open close : ascii) (level : nat) (parts : list (list ascii))
  : list ascii :=
  match parts with
  | [] => [open; close]
  | _ =>
      (open :: newline :: indent (S level)
       ++ join ("," :: newline :: indent (S level))%char parts
       ++ newline :: indent level ++ [close])%list
  end.

Fixpoint dump (level : nat) (v : pyval) {struct v} : list ascii :=
  match v with
  | VNone => chars "null"
  | VBool b => chars (if b then "true" else "false")
  | VInt n => chars (pretty n)
  | VFloat x => dump_float x
  | VStr s => dump_string s
  | VList l => block "[" "]" level (map (dump (S level)) l)
  | VDict d =>
      block "{" "}" level
        (map_fold (λ k x parts,
                     (parts ++ [dump_string k ++ ":"%char :: " "%char :: dump (S level) x])%list)
                  [] d)
  end.

Definition dumps (v : pyval) : string := string_of_list_ascii (dump 0 v).

(** Parsing.  Every parser takes the remaining input and returns the
    value read and the input left. *)
Definition is_ws (c : ascii) : bool :=
  let n := code_of c in (n =? 32) || (n =? 9) || (n =? 10) || (n =? 13).

Fixpoint skip_ws (s : list ascii) : list ascii :=
  match s with
  | c :: s' => if is_ws c then skip_ws s' else s
  | [] => []
  end.

Definition hex_of (c : ascii) : option Z :=
  let n := code_of c in
  if (48 <=? n) && (n <=? 57) then Some (n - 48)
  else if (65 <=? n) && (n <=? 70) then Some (n - 55)
  else if (97 <=? n) && (n <=? 102) then Some (n - 87)
  else None.

(** The body of a string literal, up to the closing quote: literal bytes
    ([inl]) and the code units of [\uXXXX] escapes ([inr]). *)
Fixpoint string_units (acc : list (Z + Z)) (s : list ascii)
  : option (list (Z + Z) * list ascii) :=
  match s with
  | [] => None
  | c :: s' =>
      if Ascii.eqb c quote then Some (rev acc, s')
      else if Ascii.eqb c "\" then
        match s' with
        | e :: s'' =>
            let simple b := string_units (inl b :: acc) s'' in
            if Ascii.eqb e "u" then
              match s'' with
              | h1 :: h2 :: h3 :: h4 :: rest =>
                  match hex_of h1, hex_of h2, hex_of h3, hex_of h4 with
                  | Some a, Some b, Some c, Some d =>
                      string_units (inr (((a * 16 + b) * 16 + c) * 16 + d) :: acc) rest
                  | _, _, _, _ => None
                  end
              | _ => None
              end
            else if Ascii.eqb e quote then simple 34
            else if Ascii.eqb e "\" then simple 92
            else if Ascii.eqb e "/" then simple 47
            else if Ascii.eqb e "b" then simple 8
            else if Ascii.eqb e "f" then simple 12
            else if Ascii.eqb e "n" then simple 10
            else if Ascii.eqb e "r" then simple 13
            else if Ascii.eqb e "t" then simple 9
            else None
        | [] => None
        end
      else if code_of c <? 32 then None
      else string_units (inl (code_of c) :: acc) s'
  end.

(** Surrogate pairs are joined, and every code point is written in
    UTF-8. *)
Fixpoint units_to_bytes (us : list (Z + Z)) : list Z :=
  match us with
  | [] => []
  | inl b :: us' => b :: units_to_bytes us'
  | inr hi :: us' =>
      match us' with
      | inr lo :: us'' =>
          if (0xD800 <=? hi) && (hi <? 0xDC00) && (0xDC00 <=? lo) && (lo <? 0xE000)
          then (utf8_encode (0x10000 + Z.shiftl (hi - 0xD800) 10 + (lo - 0xDC00))
                ++ units_to_bytes us'')%list
          else (utf8_encode hi ++ units_to_bytes us')%list
      | _ => (utf8_encode hi ++ units_to_bytes us')%list
      end
  end.

Definition parse_string (s : list ascii) : option (string * list ascii) :=
  match string_units [] s with
  | Some (us, rest) =>
      Some (string_of_list_ascii (char_of <$> units_to_bytes us), rest)
  | None => None
  end.

Definition is_digit (c : ascii) : bool := (48 <=? code_of c) && (code_of c <=? 57).

Fixpoint take_digits (s : list ascii) : list ascii * list ascii :=
  match s with
  | c :: s' =>
      if is_digit c then let (ds, rest) := take_digits s' in (c :: ds, rest)
      else ([], s)
  | [] => ([], [])
  end.

Definition digits_to_Z (ds : list ascii) : Z :=
  fold_left (λ acc c, 10 * acc + (code_of c - 48)) ds 0.

Definition pow10 (e : Z) : Q :=
  if 0 <=? e then inject_Z (10 ^ e) else 1 # Z.to_pos (10 ^ (- e)).

(** The parts of a number: [-? int frac? exp?]. *)
Definition split_sign (s : list ascii) : bool * list ascii :=
  match s with
  | c :: s' => if Ascii.eqb c "-" then (true, s') else (false, s)
  | [] => (false, s)
  end.

Definition split_int (s : list ascii) : list ascii * list ascii :=
  match s with
  | c :: s' => if Ascii.eqb c "0" then ([c], s') else take_digits s
  | [] => ([], s)
  end.

Definition split_frac (s : list ascii) : option (list ascii) * list ascii :=
  match s with
  | c :: s' =>
      if Ascii.eqb c "." then let (ds, rest) := take_digits s' in (Some ds, rest)
      else (None, s)
  | [] => (None, s)
  end.

Definition split_exp (s : list ascii) : option (bool * list ascii) * list ascii :=
  match s with
  | c :: s' =>
      if Ascii.eqb c "e" || Ascii.eqb c "E" then
        let (minus, s'') :=
          match s' with
          | g :: t => if Ascii.eqb g "-" then (true, t)
                      else if Ascii.eqb g "+" then (false, t)
                      else (false, s')
          | [] => (false, s')
          end in
        let (ds, rest) := take_digits s'' in
        (Some (minus, ds), rest)
      else (None, s)
  | [] => (None, s)
  end.

(** A number: an [int] without fraction and exponent, a [float]
    otherwise. *)
Definition parse_number (s : list ascii) : option (pyval * list ascii) :=
  let (negative, s1) := split_sign s in
  let (int_digits, s2) := split_int s1 in
  let (frac_digits, s3) := split_frac s2 in
  let (exponent, s4) := split_exp s3 in
  let sign z := if negative : bool then - z else z in
  match int_digits, frac_digits, exponent with
  | [], _, _ | _, Some [], _ | _, _, Some (_, []) => None
  | _, None, None => Some (VInt (sign (digits_to_Z int_digits)), s4)
  | _, _, _ =>
      let fd := default [] frac_digits in
      let mantissa := digits_to_Z (int_digits ++ fd) in
      let e := match exponent with
               | Some (minus, ds) =>
                   if minus : bool then - digits_to_Z ds else digits_to_Z ds
               | None => 0
               end in
      Some (VFloat (Qred (inject_Z (sign mantissa)
                          * pow10 (e - Z.of_nat (length fd)))), s4)
  end.

Fixpoint expect (word : list ascii) (s : list ascii) : option (list ascii) :=
  match word, s with
  | [], _ => Some s
  | a :: word', c :: s' => if Ascii.eqb a c then expect word' s' else None
  | _ :: _, [] => None
  end.

(** [elem (sep elem)* close], the input standing at the first element. *)
Fixpoint parse_sequence {A} (elem : list ascii → option (A * list ascii))
    (close : ascii) (fuel : nat) (acc : list A) (s : list ascii)
  : option (list A * list ascii) :=
  match fuel with
  | O => None
  | S fuel' =>
      match elem s with
      | Some (x, s1) =>
          match skip_ws s1 with
          | c :: s2 =>
              if Ascii.eqb c "," then parse_sequence elem close fuel' (acc ++ [x])%list s2
              else if Ascii.eqb c close then Some ((acc ++ [x])%list, s2)
              else None
          | [] => None
          end
      | None => None
      end
  end.

Definition parse_member (value : list ascii → option (pyval * list ascii))
    (s : list ascii) : option (string * pyval * list ascii) :=
  match skip_ws s with
  | c :: s1 =>
      if Ascii.eqb c quote then
        match parse_string s1 with
        | Some (key, s2) =>
            match skip_ws s2 with
            | d :: s3 =>
                if Ascii.eqb d ":" then
                  match value s3 with
                  | Some (v, s4) => Some (key, v, s4)
                  | None => None
                  end
                else None
            | [] => None
            end
        | None => None
        end
      else None
  | [] => None
  end.

(** A value, after optional blanks; [fuel] bounds the nesting depth. *)
Fixpoint parse_value (fuel : nat) (s : list ascii) : option (pyval * list ascii) :=
  match fuel with
  | O => None
  | S fuel' =>
      match skip_ws s with
      | [] => None
      | c :: s1 =>
          if Ascii.eqb c quote then
            match parse_string s1 with
            | Some (str, rest) => Some (VStr str, rest)
            | None => None
            end
          else if Ascii.eqb c "[" then
            match skip_ws s1 with
            | d :: s2 =>
                if Ascii.eqb d "]" then Some (VList [], s2)
                else
                  match parse_sequence (parse_value fuel') "]" (length s1) [] s1 with
                  | Some (l, rest) => Some (VList l, rest)
                  | None => None
                  end
            | [] => None
            end
          else if Ascii.eqb c "{" then
            match skip_ws s1 with
            | d :: s2 =>
                if Ascii.eqb d "}" then Some (VDict ∅, s2)
                else
                  match parse_sequence (parse_member (parse_value fuel')) "}"
                          (length s1) [] s1 with
                  | Some (members, rest) =>
                      Some (VDict (fold_left (λ m '(k, v), <[k := v]> m) members ∅), rest)
                  | None => None
                  end
            | [] => None
            end
          else if Ascii.eqb c "n" then
            match expect (chars "ull") s1 with Some rest => Some (VNone, rest) | None => None end
          else if Ascii.eqb c "t" then
            match expect (chars "rue") s1 with Some rest => Some (VBool true, rest) | None => None end
          else if Ascii.eqb c "f" then
            match expect (chars "alse") s1 with Some rest => Some (VBool false, rest) | None => None end
          else parse_number (c :: s1)
      end
  end.

(** A document is one value and nothing but blanks after it. *)
Definition loads (text : string) : option pyval :=
  match parse_value (S (String.length text)) (chars text) with
  | Some (v, rest) => match skip_ws rest with [] => Some v | _ => None end
  | None => None
  end.

(** Notions in which the properties of the printer and the parser are
    stated. *)

(** How the parser reads back what [escape_code_point] writes for a byte:
    as a literal byte, or as the code unit of a [\u] escape. *)
Definition unit_of (cp : Z) : Z + Z :=
  if (cp <? 32) && negb ((cp =? 8) || (cp =? 9) || (cp =? 10) || (cp =? 12) || (cp =? 13))
     || (126 <? cp)
  then inr cp else inl cp.

Definition digits (ds : list ascii) : Prop := Forall (λ c, is_digit c = true) ds.

(** What may follow the digits of a number without being read as part of
    it. *)
Definition ends_number (rest : list ascii) : Prop :=
  match rest with
  | [] => True
  | c :: _ => is_digit c = false ∧ c ≠ "."%char ∧ c ≠ "e"%char ∧ c ≠ "E"%char
  end.

Definition sign_text (negative : bool) : list ascii :=
  if negative then ["-"%char] else [].

Definition signed (negative : bool) (z : Z) : Z := if negative then - z else z.

(** The text of one member of an object printed at [level]. *)
Definition member_text (level : nat) (m : string * pyval) : list ascii :=
  (dump_string m.1 ++ ":"%char :: " "%char :: dump (S level) m.2)%list.

Definition exact_member (m : string * pyval) : Prop :=
  ascii_text m.1 ∧ exact_scalar m.2.

(** What separates two members, and what closes the object. *)
Definition separator (level : nat) : list ascii :=
  (","%char :: newline :: indent (S level))%list.

Definition all_ascii (l : list ascii) : Prop := Forall (λ c, code_of c < 128) l.
End RefJson.

#[export] Instance ref_json : Json := {|
  json_dumps := RefJson.dumps;
  json_loads text := match RefJson.loads text with
                      | Some v => inr v
                      | None => inl JSONDecodeError
                      end;
|}.

(** ** A reference implementation of the [urllib] interface

    The first check of [urlsplit]: after leading blanks and control
    characters are dropped and tabs and newlines removed, a host (what
    follows [//] after the scheme, up to the first of [/?#]) that holds one
    of the brackets without the other is refused.  The further checks are
    left out: every other URL is accepted. *)
Module RefUrllib.
Definition is_letter (c : ascii) : bool :=
  let n := N_of_ascii c in
  ((65 <=? n) && (n <=? 90) || (97 <=? n) && (n <=? 122))%N.

Definition is_scheme_char (c : ascii) : bool :=
  is_letter c || ((48 <=? N_of_ascii c) && (N_of_ascii c <=? 57))%N
  || is_char "+" c || is_char "-" c || is_char "." c.

(** The URL without its scheme, when it starts with one. *)
Definition after_scheme (url : list ascii) : list ascii :=
  match url with
  | first :: _ =>
      match drop_while (λ c, negb (is_char ":" c)) url with
      | _ :: rest =>
          if is_letter first && forallb is_scheme_char (take_until (is_char ":") url)
          then rest else url
      | [] => url
      end
  | [] => []
  end.

Definition netloc (url : list ascii) : option (list ascii) :=
  match url with
  | a :: b :: rest =>
      if is_slash a && is_slash b
      then Some (take_until (λ c, is_slash c || is_char "?" c || is_char "#" c) rest)
      else None
  | _ => None
  end.

Definition urlsplit_error (url : string) : option string :=
  let unsafe c := is_char c "009" || is_char c "010" || is_char c "013" in
  let stripped := drop_while (λ c, (N_of_ascii c <=? 32)%N) (list_ascii_of_string url) in
  match netloc (after_scheme (List.filter (λ c, negb (unsafe c)) stripped)) with
  | Some host =>
      if xorb (existsb (is_char "[") host) (existsb (is_char "]") host)
      then Some "Invalid IPv6 URL"
      else None
  | None => None
  end.
End RefUrllib.

#[export] Instance ref_urllib : Urllib := {|
  urlsplit_error := RefUrllib.urlsplit_error;
|}.

(** ** Sample worlds *)

(** A machine with nothing on disk and no credentials, a clock that stands
    at [now] and a token endpoint that is unreachable. *)
Definition bare_world (now : Q) : world :=
  World ∅ ∅ (λ _, now) (λ _ _, PostRaises "connection refused") 0 [].

Definition sample_environ : gmap string string :=
  {[ "SPOTIFY_CLIENT_ID" := "client-id"; "SPOTIFY_CLIENT_SECRET" := "client-secret" ]}.

(** A token record as [exchange_code_for_token] leaves it. *)
Definition stored_token (expires_at : Q) : gmap string pyval :=
  {[ "access_token" := VStr "BQD-stored"; "token_type" := VStr "Bearer";
     "scope" := VStr "user-top-read user-library-read"; "expires_in" := VInt 3600;
     "refresh_token" := VStr "AQC-refresh"; "expires_at" := VFloat expires_at ]}.

(** The provider's answer to a refresh: a new access token and no new
    refresh token. *)
Definition refreshed_body : gmap string pyval :=
  {[ "access_token" := VStr "BQD-fresh"; "token_type" := VStr "Bearer";
     "scope" := VStr "user-top-read user-library-read"; "expires_in" := VInt 3600 ]}.

Definition token_fs (content : string) : gmap string node :=
  {[ "data" := Dir; TOKEN_FILE := File content ]}.

(** A machine with credentials, [content] in the token file, a clock that
    stands at [now] and a provider that answers every refresh with
    [refreshed_body]. *)
Definition signed_in (content : string) (now : Q) : world :=
  World (token_fs content) sample_environ (λ _, now)
        (λ _ _, PostReturns (Response 200 EmptyString (inr (VDict refreshed_body)))) 0 [].

Definition t0 : Q := 1700000000.


(** The client's world around an [auth.py] world, before any call. *)
Definition fresh_client (a : world)
    (pages : nat → pyval → api_request → exn + page)
    (features : nat → pyval → list string → exn + list pyval) : api_world :=
  ApiWorld a pages features 0 [] VNone None.

Definition no_pages : nat → pyval → api_request → exn + page :=
  λ _ _ _, inl (SpotifyException 404 None).
Definition no_features : nat → pyval → list string → exn + list pyval :=
  λ _ _ _, inl (SpotifyException 503 None).

Definition fresh_file : string := json_dumps (VDict (stored_token (t0 + 3600))).
Definition stale_file : string := json_dumps (VDict (stored_token (t0 + 30))).


(** A request that meets a server error every time. *)
Definition always_503 : M api_world (list pyval) :=
  audio_features (Spotify (VStr "BQD-stored")) ["4uLU6hMCjMI75M1A2tKUQC"].


(** A result set of three pages. *)
Definition track (name : string) : pyval := VDict {[ "name" := VStr name ]}.

Definition page_url (offset : string) : string :=
  "https://api.spotify.com/v1/me/top/tracks?offset=" +:+ offset.

Definition page1 : page := Page (Some [track "a"; track "b"]) (Some (page_url "2")).
Definition page2 : page := Page (Some [track "c"; track "d"]) (Some (page_url "4")).
Definition page3 : page := Page (Some [track "e"]) None.

Definition three_pages : nat → pyval → api_request → exn + page :=
  λ _ _ req,
    match req with
    | CurrentUserTopTracks _ _ => inr page1
    | Next url =>
        if String.eqb url (page_url "2") then inr page2
        else if String.eqb url (page_url "4") then inr page3
        else inl (SpotifyException 404 None)
    | AudioFeatures _ => inl (SpotifyException 404 None)
    end.


(** Forty-five track ids. *)
Definition sample_ids : list string := (λ n : nat, "track" +:+ pretty n) <$> seq 0 45.

Definition feature_of (track_id : string) : pyval :=
  VDict {[ "id" := VStr track_id; "tempo" := VFloat 120 ]}.

(** The second call (the batch of ids 20 to 39) fails; of the twenty
    single-track calls that follow, every other one fails. *)
Definition flaky_features : nat → pyval → list string → exn + list pyval :=
  λ k _ ids,
    if (k =? 1)%nat then inl (SpotifyException 502 None)
    else if (1 <? k)%nat && (k <? 22)%nat && Nat.odd k then inl (SpotifyException 404 None)
    else inr (feature_of <$> ids).


(** The first two calls are rate limited, with a wait hint of one second. *)
Definition rate_limited_twice : nat → pyval → list string → exn + list pyval :=
  λ k _ ids,
    if (k <? 2)%nat
    then inl (SpotifyException 429 (Some {[ "retry-after" := "1" ]}))
    else inr (feature_of <$> ids).

Definition is_batch_request (e : event) : bool :=
  match e with
  | ApiCall _ (AudioFeatures ids) => (1 <? length ids)%nat
  | _ => false
  end.

Definition even_positions {A} (l : list A) : list A :=
  omap (λ '(i, x), if Nat.even i then Some x else None) (imap pair l).


(** A redirect to the default callback address. *)
Definition callback (query : string) : string := "http://localhost:8888/callback" +:+ query.

(** A machine with credentials and [content] in the token file, whose
    token endpoint answers every request with [outcome]. *)
Definition signed_in_with (outcome : post_outcome) (content : string) (now : Q) : world :=
  World (token_fs content) sample_environ (λ _, now) (λ _ _, outcome) 0 [].

(** The provider refusing a grant. *)
Definition invalid_grant : post_outcome :=
  PostReturns (Response 400 "400 Client Error: Bad Request for url: https://accounts.spotify.com/api/token"
                        (inr (VDict {[ "error" := VStr "invalid_grant" ]}))).

(** The provider's answer to the exchange of a code. *)
Definition granted_body : gmap string pyval :=
  {[ "access_token" := VStr "BQD-first"; "token_type" := VStr "Bearer";
     "scope" := VStr "user-top-read user-library-read"; "expires_in" := VInt 3600;
     "refresh_token" := VStr "AQC-refresh" ]}.

(** A console in front of a machine with credentials and an empty [data]
    directory, where the user pastes [line]. *)
Definition at_keyboard (line : string) (now : Q) : console :=
  Console (World {[ "data" := Dir ]} sample_environ (λ _, now)
                 (λ _ _, PostReturns (Response 200 EmptyString (inr (VDict granted_body))))
                 0 [])
          [line] [].
(** The authorization URL for the sample credentials. *)
Definition sample_auth_url : string :=
  "https://accounts.spotify.com/authorize?client_id=client-id&response_type=code"
  +:+ "&redirect_uri=http%3A%2F%2Flocalhost%3A8888%2Fcallback"
  +:+ "&scope=user-top-read+user-read-recently-played+user-library-read"
  +:+ "&show_dialog=false".

(** The first call is rate limited, with a wait hint of seven seconds. *)
Definition hinted_once : nat → pyval → list string → exn + list pyval :=
  λ k _ ids,
    if (k =? 0)%nat
    then inl (SpotifyException 429 (Some {[ "retry-after" := "7" ]}))
    else inr (feature_of <$> ids).

(** Every call is rate limited, with an HTTP date as the wait hint. *)
Definition hinted_by_date : nat → pyval → list string → exn + list pyval :=
  λ _ _ _,
    inl (SpotifyException 429 (Some {[ "retry-after" := "Wed, 21 Oct 2026 07:28:00 GMT" ]})).
(** The second call fails with a server error; every other call is
    answered as by [three_pages]. *)
Definition breaks_on_second_call : nat → pyval → api_request → exn + page :=
  λ k bearer req,
    if (k =? 1)%nat then inl (SpotifyException 503 None) else three_pages k bearer req.

(** An API whose every page has a "next" link. *)
Definition endless_pages : nat → pyval → api_request → exn + page :=
  λ _ _ _, inr page1.

(** An API that knows every track but those whose id is empty. *)
Definition known_features : nat → pyval → list string → exn + list pyval :=
  λ _ _ ids,
    inr ((λ track_id, if String.eqb track_id EmptyString then VNone
                      else feature_of track_id) <$> ids).

(** The other endpoints, answering like [three_pages] and with a track. *)
Definition sample_top_artists : spotipy → string → Z → M api_world page :=
  λ client time_range limit, call_pages client (CurrentUserTopTracks time_range limit).
Definition sample_recently_played : spotipy → Z → M api_world page :=
  λ client limit, call_pages client (CurrentUserTopTracks "recent" limit).
Definition sample_track : spotipy → string → M api_world pyval :=
  λ client track_id, ret (track track_id).

(** * Properties *)

(** ** Running the monad *)

Section Run.
Context {W : Type}.
Implicit Types w : W.

Lemma bind_Ok {A B} (m : M W A) (f : A → M W B) w a w' :
  m w = (Ok a, w') → bind m f w = f a w'.
Proof. unfold bind. by intros ->. Qed.

Lemma try_except_Ok {A} (m : M W A) handles h w a w' :
  m w = (Ok a, w') → try_except m handles h w = (Ok a, w').
Proof. unfold try_except. by intros ->. Qed.

Lemma try_except_caught {A} (m : M W A) (handles : exn → bool) h w e w' :
  m w = (Raise e, w') → handles e = true → try_except m handles h w = h e w'.
Proof. unfold try_except. by intros -> ->. Qed.
End Run.

(** ** The library models on sample inputs *)

Example dirname_of_token_file : dirname TOKEN_FILE = "data".
Proof. reflexivity. Qed.

Example dirname_of_bare_name : dirname "token.json" = EmptyString.
Proof. reflexivity. Qed.

Example dirname_under_root : dirname "/token.json" = "/".
Proof. reflexivity. Qed.

Example makedirs_makes_ancestors : ancestors "a/b/c" = ["a"; "a/b"; "a/b/c"].
Proof. reflexivity. Qed.

Example query_stops_at_fragment :
  string_of_list_ascii (urlparse_query "http://localhost/cb?code=1&state=2#code=3")
  = "code=1&state=2".
Proof. reflexivity. Qed.

Example query_after_fragment_is_none :
  urlparse_query "http://localhost/cb#?code=1" = [].
Proof. reflexivity. Qed.

Example parse_qs_groups_values :
  parse_qs (list_ascii_of_string "a=1&b=&a=2&c") = {[ "a" := ["1"; "2"] ]}.
Proof. reflexivity. Qed.

Example int_of_string_signed : int_of_string " -42 " = Some (-42).
Proof. reflexivity. Qed.

Example int_of_string_rejects : int_of_string "4 2" = None.
Proof. reflexivity. Qed.

Example int_of_string_grouped : int_of_string "1_000" = Some 1000.
Proof. reflexivity. Qed.

Example int_of_string_rejects_groups :
  int_of_string <$> ["_1"; "1_"; "1__0"; "+"; "-_1"] = [None; None; None; None; None].
Proof. reflexivity. Qed.

Example unquote_replaces_ill_formed :
  string_of_list_ascii (unquote (list_ascii_of_string "a%FFb%C3%A9%E2%82"))
  = string_of_list_ascii
      (chars_of [0x61; 0xEF; 0xBF; 0xBD; 0x62; 0xC3; 0xA9; 0xEF; 0xBF; 0xBD]).
Proof. reflexivity. Qed.

Example urlsplit_refuses_open_bracket :
  urlsplit_error "http://[::1/callback?code=abc123" = Some "Invalid IPv6 URL".
Proof. reflexivity. Qed.

Example urlsplit_accepts_brackets :
  urlsplit_error "http://[::1]:8888/callback?code=abc123" = None.
Proof. reflexivity. Qed.

Example utf8_rejects_lone_continuation : utf8_valid [0x81] = false.
Proof. reflexivity. Qed.

Example utf8_accepts_two_bytes : utf8_valid [0x41; 0xC3; 0xA9] = true.
Proof. reflexivity. Qed.

Example json_text_is_read_back :
  json_loads (json_dumps (VList [VNone; VBool true; VInt (-3); VFloat (5 # 2);
                                 VStr "a/b c"; VDict {[ "k" := VList [] ]}]))
  = inr (VList [VNone; VBool true; VInt (-3); VFloat (5 # 2);
                VStr "a/b c"; VDict {[ "k" := VList [] ]}]).
Proof. vm_compute. reflexivity. Qed.

(** ** The reference [json] reads back token records *)

Module RefJsonFacts.
Import RefJson.

(** *** Strings *)

Lemma string_units_escape (c : ascii) (acc : list (Z + Z)) (rest : list ascii) :
  string_units acc (escape_code_point (code_of c) ++ rest)
  = string_units (unit_of (code_of c) :: acc) rest.
Proof. by destruct c as [[] [] [] [] [] [] [] []]. Qed.

Lemma code_of_range (c : ascii) : 0 ≤ code_of c < 256.
Proof.
  unfold code_of. pose proof (N_ascii_bounded c). lia.
Qed.

Lemma char_of_code_of (c : ascii) : char_of (code_of c) = c.
Proof. unfold char_of, code_of. by rewrite N2Z.id, ascii_N_embedding. Qed.

Lemma utf8_decode_ascii (cs : list ascii) :
  Forall (λ c, code_of c < 128) cs →
  utf8_decode (code_of <$> cs) = code_of <$> cs.
Proof.
  induction 1 as [|c cs Hc _ IH]; [done|].
  cbn [fmap list_fmap utf8_decode].
  replace (code_of c <? 128) with true by (symmetry; by apply Z.ltb_lt).
  by rewrite IH.
Qed.

Lemma string_units_body (cs : list ascii) :
  ∀ (acc : list (Z + Z)) (rest : list ascii),
    string_units acc (concat (escape_code_point <$> (code_of <$> cs)) ++ quote :: rest)
    = Some (rev acc ++ (unit_of <$> (code_of <$> cs)), rest)%list.
Proof.
  induction cs as [|c cs IH]; intros acc rest.
  - simpl. by rewrite app_nil_r.
  - cbn [fmap list_fmap concat]. rewrite <-app_assoc, string_units_escape, IH.
    cbn [rev]. by rewrite <-app_assoc.
Qed.

Lemma units_to_bytes_ascii (cs : list ascii) :
  Forall (λ c, code_of c < 128) cs →
  units_to_bytes (unit_of <$> (code_of <$> cs)) = code_of <$> cs.
Proof.
  induction 1 as [|c cs Hc Hcs IH]; [done|].
  cbn [fmap list_fmap]. pose proof (code_of_range c) as [Hlo _].
  assert (utf8_encode (code_of c) = [code_of c]) as Henc.
  { unfold utf8_encode. by replace (code_of c <? 128) with true
      by (symmetry; by apply Z.ltb_lt). }
  destruct (unit_of (code_of c)) as [b|hi] eqn:Hunit.
  - assert (b = code_of c) as ->
      by (unfold unit_of in Hunit; by destruct (_ || _); simplify_eq).
    cbn [units_to_bytes]. by rewrite IH.
  - assert (hi = code_of c) as ->
      by (unfold unit_of in Hunit; by destruct (_ || _); simplify_eq).
    cbn [units_to_bytes]. cbn [fmap list_fmap] in IH.
    replace (55296 <=? code_of c) with false by (symmetry; apply Z.leb_gt; lia).
    cbn [andb]. rewrite Henc, IH.
    by destruct (unit_of <$> (code_of <$> cs)) as [|[]].
Qed.

(** A string of ASCII characters is read back from its literal. *)
Lemma parse_string_dump (s : string) (rest : list ascii) :
  ascii_text s →
  ∃ body, dump_string s = quote :: body
          ∧ parse_string (body ++ rest) = Some (s, rest).
Proof.
  intros Hs. unfold dump_string.
  eexists. split; [reflexivity|].
  unfold parse_string. rewrite <-app_assoc. cbn [app].
  rewrite (utf8_decode_ascii (chars s) Hs), string_units_body. cbn [rev app].
  rewrite (units_to_bytes_ascii (chars s) Hs), <-list_fmap_compose.
  rewrite (list_fmap_ext _ id (chars s)) by (intros; apply char_of_code_of).
  rewrite list_fmap_id. unfold chars. by rewrite string_of_list_ascii_of_string.
Qed.

(** *** Blanks *)

Lemma skip_ws_indent (level : nat) (rest : list ascii) :
  skip_ws (indent level ++ rest) = skip_ws rest.
Proof.
  unfold indent. induction level as [|level IH]; [done|].
  cbn [replicate concat]. by rewrite <-!app_assoc.
Qed.

Lemma skip_ws_newline_indent (level : nat) (rest : list ascii) :
  skip_ws (newline :: indent level ++ rest) = skip_ws rest.
Proof. cbn [skip_ws]. change (is_ws newline) with true. apply skip_ws_indent. Qed.

Lemma skip_ws_stop (c : ascii) (rest : list ascii) :
  is_ws c = false → skip_ws (c :: rest) = c :: rest.
Proof. intros Hc. cbn [skip_ws]. by rewrite Hc. Qed.

(** *** Digits *)

Lemma digits_to_Z_from (ds : list ascii) (a : Z) :
  fold_left (λ acc c, 10 * acc + (code_of c - 48)) ds a
  = a * 10 ^ Z.of_nat (length ds) + digits_to_Z ds.
Proof.
  unfold digits_to_Z. revert a. induction ds as [|d ds IH]; intros a.
  - simpl. lia.
  - cbn [fold_left length]. rewrite IH, (IH (10 * 0 + _)).
    rewrite Nat2Z.inj_succ, Z.pow_succ_r by lia. lia.
Qed.

Lemma digits_to_Z_cons (d : ascii) (ds : list ascii) :
  digits_to_Z (d :: ds) = (code_of d - 48) * 10 ^ Z.of_nat (length ds) + digits_to_Z ds.
Proof. unfold digits_to_Z at 1. cbn [fold_left]. rewrite digits_to_Z_from. lia. Qed.

Lemma digits_to_Z_app (ds es : list ascii) :
  digits_to_Z (ds ++ es) = digits_to_Z ds * 10 ^ Z.of_nat (length es) + digits_to_Z es.
Proof.
  unfold digits_to_Z at 1. rewrite fold_left_app, digits_to_Z_from. done.
Qed.

Lemma take_digits_app (ds rest : list ascii) :
  digits ds →
  match rest with [] => True | c :: _ => is_digit c = false end →
  take_digits (ds ++ rest) = (ds, rest).
Proof.
  intros Hds Hrest. induction Hds as [|d ds Hd _ IH].
  - destruct rest as [|c rest]; [done|]. simpl. by rewrite Hrest.
  - simpl. by rewrite Hd, IH.
Qed.

Lemma code_of_pretty_N_char (y : N) :
  (y < 10)%N → code_of (pretty_N_char y) = 48 + Z.of_N y.
Proof.
  intros Hy.
  assert (y = 0 ∨ y = 1 ∨ y = 2 ∨ y = 3 ∨ y = 4 ∨ y = 5 ∨ y = 6 ∨ y = 7
          ∨ y = 8 ∨ y = 9)%N as Hcases by lia.
  by repeat destruct Hcases as [->|Hcases]; subst.
Qed.

Lemma is_digit_pretty_N_char (y : N) : is_digit (pretty_N_char y) = true.
Proof. unfold pretty_N_char. by repeat case_match. Qed.

(** The digits [pretty_N_go] puts before [s] spell [x]. *)
Lemma pretty_N_go_digits (x : N) :
  ∀ s, digits (chars s) →
       digits (chars (pretty_N_go x s))
       ∧ digits_to_Z (chars (pretty_N_go x s))
         = Z.of_N x * 10 ^ Z.of_nat (length (chars s)) + digits_to_Z (chars s).
Proof.
  induction (N.lt_wf_0 x) as [x _ IH]; intros s Hs.
  assert (x = 0 ∨ 0 < x)%N as [->|Hx] by lia.
  - rewrite pretty_N_go_0. split; [done|]. lia.
  - rewrite pretty_N_go_step by done.
    destruct (IH (x `div` 10)%N (N.div_lt x 10 Hx eq_refl)
                (String (pretty_N_char (x `mod` 10)) s)) as [Hd Hv].
    { constructor; [apply is_digit_pretty_N_char | done]. }
    split; [done|]. rewrite Hv.
    change (chars (String ?c ?s)) with (c :: chars s).
    rewrite digits_to_Z_cons, code_of_pretty_N_char by (apply N.mod_lt; lia).
    cbn [length]. rewrite Nat2Z.inj_succ, Z.pow_succ_r by lia.
    pose proof (N.div_mod x 10 ltac:(lia)) as Hdm.
    assert (Z.of_N x = 10 * Z.of_N (x `div` 10) + Z.of_N (x `mod` 10)) by lia.
    lia.
Qed.

(** A positive number is spelled with a leading digit other than 0. *)
Lemma pretty_N_go_leading (x : N) :
  ∀ s, (0 < x)%N →
       ∃ d ds, chars (pretty_N_go x s) = d :: ds
               ∧ is_digit d = true ∧ d ≠ "0"%char.
Proof.
  induction (N.lt_wf_0 x) as [x _ IH]; intros s Hx.
  rewrite pretty_N_go_step by done.
  destruct (N.eq_0_gt_0_cases (x `div` 10)) as [Hsmall|Hbig].
  - rewrite Hsmall, pretty_N_go_0.
    exists (pretty_N_char (x `mod` 10)), (chars s).
    split; [done|]. split; [apply is_digit_pretty_N_char|].
    assert (x < 10)%N
      by (pose proof (N.div_mod x 10 ltac:(lia)); pose proof (N.mod_lt x 10 ltac:(lia)); lia).
    rewrite N.mod_small by done.
    assert (x = 1 ∨ x = 2 ∨ x = 3 ∨ x = 4 ∨ x = 5 ∨ x = 6 ∨ x = 7
            ∨ x = 8 ∨ x = 9)%N as Hcases by lia.
    by repeat destruct Hcases as [->|Hcases]; subst.
  - by apply IH; [apply N.div_lt|].
Qed.

(** The spelling of a natural number: digits without a superfluous
    leading 0, whose value is the number. *)
Lemma pretty_N_spelling (x : N) :
  ∃ d ds, chars (pretty x) = d :: ds
          ∧ digits (d :: ds)
          ∧ (d = "0"%char → ds = [])
          ∧ digits_to_Z (d :: ds) = Z.of_N x.
Proof.
  unfold pretty, pretty_N. case_decide as Hx.
  - subst. exists "0"%char, []. repeat split; try done. by repeat constructor.
  - destruct (pretty_N_go_leading x EmptyString ltac:(lia)) as (d & ds & Hchars & _ & Hd).
    destruct (pretty_N_go_digits x EmptyString ltac:(constructor)) as [Hds Hv].
    exists d, ds. rewrite <-Hchars. repeat split; try done.
    rewrite Hv. change (chars EmptyString) with (@nil ascii).
    change (digits_to_Z []) with 0. cbn [length].
    change (Z.of_nat 0) with 0. rewrite Z.pow_0_r. lia.
Qed.

(** *** Numbers *)

Lemma digit_is_no_sign (d : ascii) : is_digit d = true → Ascii.eqb d "-" = false.
Proof. by destruct d as [[] [] [] [] [] [] [] []]. Qed.

Lemma ends_number_no_digit (rest : list ascii) :
  ends_number rest → match rest with [] => True | c :: _ => is_digit c = false end.
Proof. destruct rest; [done|]. by intros [? _]. Qed.

Lemma split_sign_digit (d : ascii) (s : list ascii) :
  is_digit d = true → split_sign (d :: s) = (false, d :: s).
Proof. intros Hd. unfold split_sign. by rewrite digit_is_no_sign. Qed.

Lemma split_int_spelling (d : ascii) (ds rest : list ascii) :
  digits (d :: ds) → (d = "0"%char → ds = []) →
  match rest with [] => True | c :: _ => is_digit c = false end →
  split_int (d :: ds ++ rest) = (d :: ds, rest).
Proof.
  intros Hds Hzero Hrest. unfold split_int.
  destruct (Ascii.eqb d "0") eqn:Hd.
  - apply Ascii.eqb_eq in Hd. by rewrite (Hzero Hd).
  - by apply (take_digits_app (d :: ds)).
Qed.

Lemma split_frac_none (rest : list ascii) :
  ends_number rest → split_frac rest = (None, rest).
Proof.
  destruct rest as [|c rest]; [done|]. intros (_ & Hdot & _). unfold split_frac.
  by rewrite (proj2 (Ascii.eqb_neq c ".") Hdot).
Qed.

Lemma split_frac_digits (fd rest : list ascii) :
  digits fd → ends_number rest →
  split_frac ("."%char :: fd ++ rest) = (Some fd, rest).
Proof.
  intros Hfd Hrest. unfold split_frac. change (Ascii.eqb "." ".") with true.
  by rewrite (take_digits_app fd rest Hfd (ends_number_no_digit _ Hrest)).
Qed.

Lemma split_exp_none (rest : list ascii) :
  ends_number rest → split_exp rest = (None, rest).
Proof.
  destruct rest as [|c rest]; [done|]. intros (_ & _ & He & HE). unfold split_exp.
  by rewrite (proj2 (Ascii.eqb_neq c "e") He), (proj2 (Ascii.eqb_neq c "E") HE).
Qed.

Lemma split_sign_text (negative : bool) (d : ascii) (s : list ascii) :
  is_digit d = true →
  split_sign (sign_text negative ++ d :: s) = (negative, d :: s).
Proof. intros Hd. destruct negative; [done|]. by apply split_sign_digit. Qed.

Lemma parse_number_int (negative : bool) (d : ascii) (ds rest : list ascii) :
  digits (d :: ds) → (d = "0"%char → ds = []) → ends_number rest →
  parse_number (sign_text negative ++ d :: ds ++ rest)
  = Some (VInt (signed negative (digits_to_Z (d :: ds))), rest).
Proof.
  intros Hds Hzero Hrest. unfold parse_number.
  rewrite split_sign_text by (by inversion Hds).
  rewrite (split_int_spelling d ds rest Hds Hzero (ends_number_no_digit _ Hrest)).
  by rewrite split_frac_none, split_exp_none.
Qed.

Lemma parse_number_float (negative : bool) (d : ascii) (ds fd rest : list ascii) :
  digits (d :: ds) → (d = "0"%char → ds = []) → digits fd → fd ≠ [] →
  ends_number rest →
  parse_number (sign_text negative ++ d :: ds ++ "."%char :: fd ++ rest)
  = Some (VFloat (Qred (inject_Z (signed negative (digits_to_Z ((d :: ds) ++ fd)))
                        * pow10 (0 - Z.of_nat (length fd)))), rest).
Proof.
  intros Hds Hzero Hfd Hne Hrest. unfold parse_number.
  rewrite split_sign_text by (by inversion Hds).
  rewrite (split_int_spelling d ds ("."%char :: fd ++ rest) Hds Hzero) by done.
  rewrite split_frac_digits, split_exp_none by done.
  by destruct fd.
Qed.

Lemma pretty_Z_spelling (z : Z) :
  ∃ d ds, chars (pretty z) = (sign_text (z <? 0) ++ d :: ds)%list
          ∧ digits (d :: ds)
          ∧ (d = "0"%char → ds = [])
          ∧ signed (z <? 0) (digits_to_Z (d :: ds)) = z.
Proof.
  destruct z as [|p|p].
  - exists "0"%char, []. split; [|split; [|split]]; try done. by repeat constructor.
  - destruct (pretty_N_spelling (N.pos p)) as (d & ds & Hchars & Hds & Hzero & Hv).
    exists d, ds. split; [|split; [|split]]; try done.
  - destruct (pretty_N_spelling (N.pos p)) as (d & ds & Hchars & Hds & Hzero & Hv).
    exists d, ds. split; [|split; [|split]]; try done.
    + change (pretty (Z.neg p)) with ("-" +:+ pretty (N.pos p)).
      change (chars ("-" +:+ ?s)) with ("-"%char :: chars s).
      by rewrite Hchars.
    + simpl. rewrite Hv. lia.
Qed.

(** The digits of the fraction [r / d], and their value when the
    expansion ends within the fuel. *)
Lemma fraction_digits_value (fuel : nat) (d : Z) :
  ∀ r, 0 ≤ r < d →
       digits (fraction_digits fuel r d)
       ∧ ((d | r * 10 ^ Z.of_nat fuel) →
          digits_to_Z (fraction_digits fuel r d) * d
          = r * 10 ^ Z.of_nat (length (fraction_digits fuel r d))).
Proof.
  induction fuel as [|fuel IH]; intros r Hr.
  - split; [constructor|]. change (10 ^ Z.of_nat 0) with 1. intros [q Hq].
    assert (q = 0) as -> by nia.
    assert (r = 0) as -> by lia. done.
  - cbn [fraction_digits]. destruct (r =? 0) eqn:Hr0.
    { apply Z.eqb_eq in Hr0 as ->. split; [constructor|done]. }
    apply Z.eqb_neq in Hr0.
    assert (0 ≤ (10 * r) `div` d < 10) as Hq.
    { split; [apply Z.div_pos; lia|]. apply Z.div_lt_upper_bound; lia. }
    assert (0 ≤ (10 * r) `mod` d < d) as Hr' by (apply Z.mod_pos_bound; lia).
    destruct (IH _ Hr') as [Hds Hv].
    assert (code_of (char_of (48 + (10 * r) `div` d)) = 48 + (10 * r) `div` d) as Hcode.
    { unfold code_of, char_of. rewrite N_ascii_embedding, Z2N.id; [done|lia|].
      apply N2Z.inj_lt. rewrite Z2N.id by lia. simpl. lia. }
    split.
    + constructor; [|done]. unfold is_digit. rewrite Hcode.
      apply andb_true_iff. split; [apply Z.leb_le|apply Z.leb_le]; lia.
    + intros Hdiv. rewrite digits_to_Z_cons, Hcode. cbn [length].
      rewrite Nat2Z.inj_succ, Z.pow_succ_r by lia.
      pose proof (Z.div_mod (10 * r) d ltac:(lia)) as Hdm.
      assert (d | (10 * r) `mod` d * 10 ^ Z.of_nat fuel) as Hdiv'.
      { rewrite Nat2Z.inj_succ, Z.pow_succ_r in Hdiv by lia.
        replace ((10 * r) `mod` d * 10 ^ Z.of_nat fuel)
          with (r * (10 * 10 ^ Z.of_nat fuel)
                - d * ((10 * r) `div` d * 10 ^ Z.of_nat fuel)) by nia.
        apply Z.divide_sub_r; [done|]. by apply Z.divide_factor_l. }
      specialize (Hv Hdiv').
      set (L := 10 ^ Z.of_nat (length (fraction_digits fuel ((10 * r) `mod` d) d))) in *.
      nia.
Qed.

Lemma dump_float_read_back (x : Q) (rest : list ascii) :
  decimal x → ends_number rest →
  parse_number (dump_float x ++ rest) = Some (VFloat x, rest).
Proof.
  intros [Hred Hden] Hrest. unfold dump_float.
  set (n := Z.abs (Qnum x)). set (d := Z.pos (Qden x)).
  assert (0 ≤ n `mod` d < d) as Hr by (apply Z.mod_pos_bound; lia).
  destruct (fraction_digits_value (places (Qden x)) d _ Hr) as [Hfrac Hvalue].
  assert (d | n `mod` d * 10 ^ Z.of_nat (places (Qden x))) as Hdiv
    by (by apply Z.divide_mul_r).
  specialize (Hvalue Hdiv).
  set (frac := fraction_digits (places (Qden x)) (n `mod` d) d) in *.
  set (fd := match frac with [] => ["0"%char] | _ => frac end).
  assert (digits fd ∧ fd ≠ []
          ∧ digits_to_Z fd * d = n `mod` d * 10 ^ Z.of_nat (length fd))
    as (Hfd & Hne & Hfdv).
  { unfold fd. destruct frac as [|c frac'] eqn:Hf.
    - repeat split; [by repeat constructor|done|].
      change (digits_to_Z []) with 0 in Hvalue.
      change (10 ^ Z.of_nat (length [])) with 1 in Hvalue.
      change (digits_to_Z ["0"%char]) with 0.
      change (10 ^ Z.of_nat (length ["0"%char])) with 10. lia.
    - done. }
  assert (0 ≤ n `div` d) as Hint by (apply Z.div_pos; lia).
  destruct (pretty_Z_spelling (n `div` d)) as (i & is_ & Hchars & His & Hzero & Hiv).
  replace (n `div` d <? 0) with false in Hchars, Hiv by (symmetry; apply Z.ltb_ge; lia).
  simpl in Hchars, Hiv. rewrite Hchars.
  change (if Qnum x <? 0 then ["-"%char] else []) with (sign_text (Qnum x <? 0)).
  rewrite <-!app_assoc. cbn [app].
  rewrite (parse_number_float _ i is_ fd rest) by done.
  do 3 f_equal. rewrite <-Hred at 2. apply Qred_complete.
  rewrite digits_to_Z_app, Hiv.
  assert (0 < 10 ^ Z.of_nat (length fd)) as Hpow by (apply Z.pow_pos_nonneg; lia).
  unfold pow10.
  replace (0 <=? 0 - Z.of_nat (length fd)) with false
    by (symmetry; apply Z.leb_gt; destruct fd; [done|simpl; lia]).
  unfold Qeq. cbn [Qnum Qden Qmult inject_Z].
  rewrite Pos.mul_1_l, Z.mul_1_r, Z.opp_sub_distr, Z.add_0_l, Z2Pos.id by lia.
  fold d.
  pose proof (Z.div_mod n d ltac:(lia)) as Hdm.
  assert (signed (Qnum x <? 0) n = Qnum x) as Hsign.
  { unfold signed, n. destruct (Qnum x <? 0) eqn:Hs;
      [apply Z.ltb_lt in Hs|apply Z.ltb_ge in Hs]; lia. }
  rewrite <-Hsign at 2. unfold signed. destruct (Qnum x <? 0); nia.
Qed.

(** *** Values *)

Lemma parse_value_number (fuel : nat) (s : list ascii) (c : ascii) (s1 : list ascii) :
  skip_ws s = c :: s1 →
  is_digit c = true ∨ c = "-"%char →
  parse_value (S fuel) s = parse_number (c :: s1).
Proof.
  intros Hskip Hc. cbn [parse_value]. rewrite Hskip.
  destruct c as [[] [] [] [] [] [] [] []]; try done; by destruct Hc.
Qed.

Lemma parse_value_string (fuel : nat) (s s1 : list ascii) :
  skip_ws s = quote :: s1 →
  parse_value (S fuel) s
  = match parse_string s1 with
    | Some (str, rest) => Some (VStr str, rest)
    | None => None
    end.
Proof. intros Hskip. cbn [parse_value]. by rewrite Hskip. Qed.

Lemma digit_is_no_blank (d : ascii) : is_digit d = true → is_ws d = false.
Proof. by destruct d as [[] [] [] [] [] [] [] []]. Qed.

Lemma parse_value_signed_digits (fuel : nat) (negative : bool) (d : ascii)
    (s : list ascii) :
  is_digit d = true →
  parse_value (S fuel) (" "%char :: sign_text negative ++ d :: s)
  = parse_number (sign_text negative ++ d :: s).
Proof.
  intros Hd. destruct negative.
  - by apply parse_value_number; [|right].
  - apply parse_value_number; [|by left]. cbn [skip_ws sign_text app].
    change (is_ws " ") with true. by rewrite digit_is_no_blank.
Qed.

(** A scalar is read back from its text, after the blank that follows the
    colon of a member. *)
Lemma parse_value_scalar (fuel level : nat) (v : pyval) (rest : list ascii) :
  exact_scalar v → ends_number rest →
  parse_value (S fuel) (" "%char :: dump level v ++ rest) = Some (v, rest).
Proof.
  intros Hv Hrest. destruct v as [|b|n|x|s|l|d]; try done.
  - by destruct b.
  - cbn [dump].
    destruct (pretty_Z_spelling n) as (d & ds & -> & Hds & Hzero & Hvalue).
    rewrite <-app_assoc. cbn [app].
    rewrite parse_value_signed_digits by (by inversion Hds).
    rewrite parse_number_int by done. by rewrite Hvalue.
  - cbn [dump]. unfold dump_float.
    destruct (pretty_Z_spelling (Z.abs (Qnum x) `div` Z.pos (Qden x)))
      as (d & ds & Hchars & Hds & _).
    pose proof (dump_float_read_back x rest Hv Hrest) as Hread.
    unfold dump_float in Hread. rewrite Hchars in Hread |- *.
    replace (Z.abs (Qnum x) `div` Z.pos (Qden x) <? 0) with false in Hread |- *
      by (symmetry; apply Z.ltb_ge, Z.div_pos; lia).
    cbn [sign_text app] in Hread |- *.
    change (if Qnum x <? 0 then ["-"%char] else []) with (sign_text (Qnum x <? 0))
      in Hread |- *.
    rewrite <-!app_assoc in Hread |- *. cbn [app] in Hread |- *.
    rewrite parse_value_signed_digits by (by inversion Hds). exact Hread.
  - cbn [dump]. destruct (parse_string_dump s rest Hv) as (body & -> & Hparse).
    cbn [app]. rewrite (parse_value_string _ _ (body ++ rest)) by done.
    by rewrite Hparse.
Qed.

(** *** Objects *)

Lemma skip_ws_member_text (level : nat) (m : string * pyval) (rest : list ascii) :
  skip_ws (member_text level m ++ rest) = (member_text level m ++ rest)%list.
Proof. done. Qed.

Lemma parse_member_text (fuel level : nat) (m : string * pyval) (s rest : list ascii) :
  exact_member m → ends_number rest →
  skip_ws s = (member_text level m ++ rest)%list →
  parse_member (parse_value (S fuel)) s = Some (m, rest).
Proof.
  intros [Hk Hv] Hrest Hskip. unfold parse_member. rewrite Hskip.
  unfold member_text.
  destruct (parse_string_dump m.1 (":"%char :: " "%char :: dump (S level) m.2 ++ rest) Hk)
    as (body & -> & Hparse).
  rewrite <-!app_assoc. cbn [app]. change (Ascii.eqb quote quote) with true.
  cbv iota. rewrite Hparse.
  cbn [skip_ws]. change (is_ws ":") with false. cbv iota.
  change (Ascii.eqb ":" ":") with true. cbv iota.
  rewrite parse_value_scalar by done. by destruct m.
Qed.

Lemma join_cons (sep p : list ascii) (q : list ascii) (parts : list (list ascii)) :
  join sep (p :: q :: parts) = (p ++ sep ++ join sep (q :: parts))%list.
Proof. done. Qed.

Lemma parse_members (fuel level : nat) (ms : list (string * pyval)) :
  ∀ (n : nat) (acc : list (string * pyval)) (s rest : list ascii),
    ms ≠ [] → Forall exact_member ms → (length ms ≤ n)%nat →
    skip_ws s = (join (separator level) (member_text level <$> ms)
                 ++ newline :: indent level ++ "}"%char :: rest)%list →
    parse_sequence (parse_member (parse_value (S fuel))) "}" n acc s
    = Some ((acc ++ ms)%list, rest).
Proof.
  induction ms as [|m ms IH]; intros n acc s rest Hne Hms Hn Hskip; [done|].
  destruct n as [|n]; [simpl in Hn; lia|].
  apply Forall_cons in Hms as [Hm Hms].
  destruct ms as [|m' ms].
  - cbn [fmap list_fmap join] in Hskip. cbn [parse_sequence].
    rewrite (parse_member_text fuel level m s
               (newline :: indent level ++ "}"%char :: rest) Hm); [|done|exact Hskip].
    rewrite skip_ws_newline_indent. cbn [skip_ws].
    change (is_ws "}") with false. cbv iota.
    change (Ascii.eqb "}" ",") with false. change (Ascii.eqb "}" "}") with true.
    done.
  - cbn [fmap list_fmap] in Hskip. rewrite join_cons in Hskip.
    rewrite <-!app_assoc in Hskip. cbn [parse_sequence].
    rewrite (parse_member_text fuel level m s
               (separator level ++ join (separator level)
                                     (member_text level <$> m' :: ms)
                ++ newline :: indent level ++ "}"%char :: rest) Hm);
      [|done|exact Hskip].
    unfold separator at 1. cbn [app skip_ws].
    change (is_ws ",") with false. cbv iota.
    change (Ascii.eqb "," ",") with true. cbv iota.
    rewrite (IH n (acc ++ [m])%list _ rest); [by rewrite <-app_assoc|done|done| |].
    + simpl in Hn |- *. lia.
    + rewrite skip_ws_newline_indent.
      destruct ms; cbn [fmap list_fmap join]; rewrite <-?app_assoc;
        apply skip_ws_member_text.
Qed.

Lemma dump_dict (level : nat) (d : gmap string pyval) :
  dump level (VDict d)
  = block "{" "}" level (member_text level <$> rev (map_to_list d)).
Proof.
  cbn [dump]. f_equal. rewrite map_fold_foldr.
  induction (map_to_list d) as [|[k x] l IH]; [done|].
  cbn [foldr uncurry curry rev]. by rewrite IH, fmap_app.
Qed.

Lemma fold_left_insert_rev (l : list (string * pyval)) :
  fold_left (λ (m : gmap string pyval) '(k, v), <[k := v]> m) (rev l) ∅
  = list_to_map l.
Proof.
  induction l as [|[k v] l IH]; [done|].
  cbn [rev]. by rewrite fold_left_app, IH.
Qed.

Lemma length_join_members (level : nat) (ms : list (string * pyval)) :
  (length ms ≤ length (join (separator level) (member_text level <$> ms)))%nat.
Proof.
  induction ms as [|m ms IH]; [done|].
  destruct ms as [|m' ms].
  - cbn [fmap list_fmap join]. unfold member_text, dump_string.
    cbn [app length]. lia.
  - cbn [fmap list_fmap] in IH |- *. rewrite join_cons, !length_app.
    unfold member_text at 1, dump_string. cbn [app length] in IH |- *. lia.
Qed.

(** An object of exact members is read back from its text. *)
Lemma parse_value_dict (fuel : nat) (d : gmap string pyval) (rest : list ascii) :
  map_Forall (λ k v, exact_member (k, v)) d →
  parse_value (S (S fuel)) (dump 0 (VDict d) ++ rest) = Some (VDict d, rest).
Proof.
  intros Hd. rewrite dump_dict.
  assert (Forall exact_member (rev (map_to_list d))) as Hms.
  { apply Forall_rev, Forall_forall. intros [k v] Hkv%elem_of_map_to_list.
    by apply (Hd k v). }
  assert (fold_left (λ (m : gmap string pyval) '(k, v), <[k := v]> m)
            (rev (map_to_list d)) ∅ = d) as Hback
    by (by rewrite fold_left_insert_rev, list_to_map_to_list).
  destruct (rev (map_to_list d)) as [|m ms] eqn:Hrev.
  - simpl in Hback. by subst.
  - unfold block. cbn [fmap list_fmap]. fold (separator 0).
    set (text := join (separator 0) (member_text 0 m :: (member_text 0 <$> ms))).
    assert (∃ tail, text = quote :: tail) as [tail Htext].
    { unfold text. destruct ms; cbn [fmap list_fmap join];
        unfold member_text at 1, dump_string; cbn [app]; eauto. }
    cbn [parse_value app skip_ws]. change (is_ws "{") with false. cbv iota.
    change (Ascii.eqb "{" quote) with false.
    change (Ascii.eqb "{" "[") with false.
    change (Ascii.eqb "{" "{") with true. cbv iota.
    rewrite <-!app_assoc. cbn [app]. rewrite skip_ws_newline_indent.
    rewrite Htext at 1. cbn [app skip_ws]. change (is_ws quote) with false.
    cbv iota. change (Ascii.eqb quote "}") with false. cbv iota.
    rewrite (parse_members fuel 0 (m :: ms) _ [] _ rest);
      [cbn [app]; by rewrite Hback|done|done| |].
    + cbn [length]. rewrite !length_app.
      pose proof (length_join_members 0 (m :: ms)) as Hlen.
      cbn [fmap list_fmap length] in Hlen. fold text in Hlen. lia.
    + rewrite skip_ws_newline_indent. cbn [fmap list_fmap]. fold text.
      by rewrite Htext.
Qed.

Lemma chars_string_of_list_ascii (l : list ascii) :
  chars (string_of_list_ascii l) = l.
Proof. apply list_ascii_of_string_of_list_ascii. Qed.

(** The reference [json] reads back every object of exact members. *)
Theorem loads_dumps_dict (d : gmap string pyval) :
  map_Forall (λ k v, exact_member (k, v)) d →
  loads (dumps (VDict d)) = Some (VDict d).
Proof.
  intros Hd. unfold loads, dumps. rewrite chars_string_of_list_ascii.
  assert (2 ≤ String.length (string_of_list_ascii (dump 0 (VDict d))))%nat as Hlen.
  { rewrite <-(chars_string_of_list_ascii (dump 0 (VDict d))) at 1.
    rewrite dump_dict. unfold block.
    destruct (member_text 0 <$> rev (map_to_list d)); simpl; lia. }
  destruct (String.length _) as [|[|fuel]]; [lia..|].
  rewrite <-(app_nil_r (dump 0 (VDict d))).
  by rewrite (parse_value_dict _ d [] Hd).
Qed.

(** *** The text is ASCII *)

Lemma utf8_valid_ascii (l : list ascii) :
  all_ascii l → utf8_valid (code_of <$> l) = true.
Proof.
  induction 1 as [|c l Hc _ IH]; [done|].
  cbn [fmap list_fmap utf8_valid].
  by replace (code_of c <=? 127) with true by (symmetry; apply Z.leb_le; lia).
Qed.

Lemma all_ascii_escape (c : ascii) :
  code_of c < 128 → all_ascii (escape_code_point (code_of c)).
Proof.
  destruct c as [[] [] [] [] [] [] [] []]; try done; intros _; by repeat constructor.
Qed.

Lemma all_ascii_digits (ds : list ascii) : digits ds → all_ascii ds.
Proof.
  intros Hds. eapply Forall_impl; [exact Hds|]. intros c Hc. unfold is_digit in Hc.
  apply andb_true_iff in Hc as [_ Hc%Z.leb_le]. simpl. lia.
Qed.

Lemma all_ascii_dump_string (s : string) : ascii_text s → all_ascii (dump_string s).
Proof.
  intros Hs. change (Forall (λ c, code_of c < 128) (chars s)) in Hs.
  unfold dump_string. rewrite (utf8_decode_ascii (chars s) Hs).
  constructor; [done|]. apply Forall_app. split; [|by repeat constructor].
  induction Hs as [|c cs Hc _ IH]; [constructor|].
  cbn [fmap list_fmap concat]. apply Forall_app. split; [by apply all_ascii_escape|done].
Qed.

Lemma all_ascii_pretty (z : Z) : all_ascii (chars (pretty z)).
Proof.
  destruct (pretty_Z_spelling z) as (d & ds & -> & Hds & _).
  apply Forall_app. split; [by destruct (z <? 0); repeat constructor|].
  by apply all_ascii_digits.
Qed.

Lemma all_ascii_scalar (level : nat) (v : pyval) :
  exact_scalar v → all_ascii (dump level v).
Proof.
  intros Hv. destruct v as [|b|n|x|s|l|d]; try done.
  - by repeat constructor.
  - by destruct b; repeat constructor.
  - apply all_ascii_pretty.
  - cbn [dump]. unfold dump_float.
    assert (0 ≤ Z.abs (Qnum x) `mod` Z.pos (Qden x) < Z.pos (Qden x)) as Hr
      by (apply Z.mod_pos_bound; lia).
    destruct (fraction_digits_value (places (Qden x)) _ _ Hr) as [Hfrac _].
    apply Forall_app. split; [by destruct (Qnum x <? 0); repeat constructor|].
    apply Forall_app. split; [apply all_ascii_pretty|].
    constructor; [done|].
    destruct (fraction_digits _ _ _); [by repeat constructor|].
    by apply all_ascii_digits.
  - by apply all_ascii_dump_string.
Qed.

Lemma all_ascii_indent (level : nat) : all_ascii (indent level).
Proof.
  unfold indent. induction level as [|level IH]; [constructor|].
  cbn [replicate concat]. by repeat constructor.
Qed.

Lemma all_ascii_join (sep : list ascii) (parts : list (list ascii)) :
  all_ascii sep → Forall all_ascii parts → all_ascii (join sep parts).
Proof.
  intros Hsep. induction 1 as [|p parts Hp Hparts IH]; [constructor|].
  destruct parts as [|q parts]; [done|].
  cbn [join]. apply Forall_app. split; [done|]. by apply Forall_app.
Qed.

Lemma all_ascii_dict (d : gmap string pyval) :
  map_Forall (λ k v, exact_member (k, v)) d → all_ascii (dump 0 (VDict d)).
Proof.
  intros Hd. rewrite dump_dict. unfold block.
  assert (Forall all_ascii (member_text 0 <$> rev (map_to_list d))) as Hparts.
  { apply Forall_fmap, Forall_rev, Forall_forall.
    intros [k v] Hkv%elem_of_map_to_list. destruct (Hd k v Hkv) as [Hk Hv].
    unfold member_text. apply Forall_app. split; [by apply all_ascii_dump_string|].
    do 2 (constructor; [done|]). by apply all_ascii_scalar. }
  destruct (member_text 0 <$> rev (map_to_list d)) as [|p parts] eqn:Hp;
    [by repeat constructor|].
  do 2 (constructor; [done|]). apply Forall_app. split; [apply all_ascii_indent|].
  apply Forall_app. split.
  - apply all_ascii_join; [|done].
    do 2 (constructor; [done|]). apply all_ascii_indent.
  - by repeat constructor.
Qed.

(** The text of an object of exact members is well-formed UTF-8. *)
Theorem dumps_dict_utf8 (d : gmap string pyval) :
  map_Forall (λ k v, exact_member (k, v)) d →
  utf8_valid (bytes_of (dumps (VDict d))) = true.
Proof.
  intros Hd. unfold bytes_of, dumps.
  rewrite list_ascii_of_string_of_list_ascii.
  by apply (utf8_valid_ascii _ (all_ascii_dict d Hd)).
Qed.
End RefJsonFacts.

(** ** The token store *)

Section Store.
Context `{Json}.

(** What a successful write leaves at the path. *)
Lemma write_text_Ok (p text : string) (w w' : world) :
  write_text p text w = (Ok tt, w') →
  w' = set_fs (insert p (File text)) w.
Proof.
  unfold write_text, bind, gets, modify, raise.
  destruct (names_no_file p); [discriminate|].
  destruct (w_fs w !! p) as [[]|]; try discriminate;
    destruct (_ || _); try discriminate; congruence.
Qed.

Lemma save_tokens_Ok (token_data : gmap string pyval) (p : string) (w w' : world) :
  save_tokens token_data p w = (Ok tt, w') →
  w_fs w' !! p = Some (File (json_dumps (VDict token_data))).
Proof.
  unfold save_tokens, bind.
  destruct (os_makedirs (dirname p) w) as [[[]| |] w1]; try discriminate.
  intros ->%write_text_Ok. simpl. apply lookup_insert_eq.
Qed.

(** Loading only reads. *)
Lemma load_tokens_pure (p : string) (w : world) : (load_tokens p w).2 = w.
Proof.
  unfold load_tokens, os_path_exists, try_except, read_text, bind, gets, raise, ret.
  destruct (_ || _); cbn [negb]; [|done].
  destruct (w_fs w !! p) as [[|content]|]; try done.
  destruct (utf8_valid (bytes_of content)); [|done].
  by destruct (json_loads content) as [[]|].
Qed.

(** [load_tokens] answers [None] when nothing is at the path, when what is
    there cannot be opened as a file, and when the decoded text is not
    JSON. *)
Lemma load_tokens_missing (p : string) (w : world) :
  w_fs w !! p = None → is_root p = false →
  load_tokens p w = (Ok VNone, w).
Proof.
  intros Hp Hroot.
  unfold load_tokens, bind, os_path_exists, gets. rewrite Hp, Hroot.
  rewrite bool_decide_false; [done|]. by intros [? ?].
Qed.

(** Entering the [try] block of [load_tokens] when [Hp] says what is at the
    path. *)
Ltac open_token_file Hp :=
  unfold load_tokens, bind at 1, os_path_exists, gets; rewrite Hp;
  rewrite bool_decide_true by eauto; rewrite orb_true_r; cbn [negb];
  unfold try_except, read_text, bind, gets; rewrite Hp.

Lemma load_tokens_directory (p : string) (w : world) :
  w_fs w !! p = Some Dir → load_tokens p w = (Ok VNone, w).
Proof. intros Hp. by open_token_file Hp. Qed.

Lemma load_tokens_decoded (p content : string) (w : world) :
  w_fs w !! p = Some (File content) →
  utf8_valid (bytes_of content) = true →
  load_tokens p w = (loaded (json_loads content), w).
Proof.
  intros Hp Hutf. open_token_file Hp. rewrite Hutf.
  unfold ret at 1. by destruct (json_loads content) as [[]|].
Qed.

(** Ill-formed bytes make the text-mode read raise, and the handler of
    [load_tokens] lets that exception through. *)
Lemma load_tokens_undecodable (p content : string) (w : world) :
  w_fs w !! p = Some (File content) →
  utf8_valid (bytes_of content) = false →
  load_tokens p w = (Raise UnicodeDecodeError, w).
Proof.
  intros Hp Hutf. open_token_file Hp. by rewrite Hutf.
Qed.

(** After a save, [load_tokens] from the same path answers by what [json]
    makes of the text it wrote. *)
Lemma load_after_save (token_data : gmap string pyval) (p : string) (w w' : world) :
  save_tokens token_data p w = (Ok tt, w') →
  utf8_valid (bytes_of (json_dumps (VDict token_data))) = true →
  load_tokens p w' = (loaded (json_loads (json_dumps (VDict token_data))), w').
Proof.
  intros Hsave Hutf.
  exact (load_tokens_decoded p _ w' (save_tokens_Ok _ _ _ _ Hsave) Hutf).
Qed.

(** C9: saving a token record with [save_tokens] and then loading with
    [load_tokens] from the same path gives back a record with the same
    members and values, the [expires_at] instant included, and loading
    changes nothing.  This holds with every [json] and for every record
    that this [json] reads back: what the store adds to [json] (making the
    directories, writing the file, finding it, decoding it) loses
    nothing. *)
Theorem save_load_roundtrip (token_data : gmap string pyval) (p : string)
    (w w' : world) :
  json_reads_back (VDict token_data) →
  save_tokens token_data p w = (Ok tt, w') →
  load_tokens p w' = (Ok (VDict token_data), w').
Proof.
  intros [Hutf Hjson] Hsave.
  rewrite (load_after_save token_data p w w' Hsave Hutf). by rewrite Hjson.
Qed.
End Store.

(** The reference [json] reads back every token record. *)
Lemma ref_json_reads_back (token_data : gmap string pyval) :
  token_record token_data → json_reads_back (VDict token_data).
Proof.
  intros Hrecord. split.
  - by apply RefJsonFacts.dumps_dict_utf8.
  - cbn [json_loads ref_json]. by rewrite RefJsonFacts.loads_dumps_dict.
Qed.

(** An instant that is a binary fraction, as every binary64 value is, has
    a decimal expansion that ends. *)
Lemma binary_decimal (x : Q) (k : nat) :
  Qred x = x → Z.pos (Qden x) = 2 ^ Z.of_nat k → decimal x.
Proof.
  intros Hred Hden. split; [done|]. unfold places. rewrite Hden.
  rewrite Z.log2_pow2, Nat2Z.id by lia.
  exists (2 * 5 ^ Z.of_nat (S k)).
  change 10 with (2 * 5). rewrite Z.pow_mul_l, Nat2Z.inj_succ, Z.pow_succ_r by lia.
  lia.
Qed.

Lemma stored_token_is_record (expires_at : Q) :
  decimal expires_at → token_record (stored_token expires_at).
Proof.
  intros Hx. unfold token_record, stored_token.
  repeat apply map_Forall_insert_2; try apply map_Forall_singleton;
    (split; [by repeat constructor|]); try done; by repeat constructor.
Qed.

Lemma save_load_roundtrip_witness :
  load_tokens TOKEN_FILE (save_tokens (stored_token (t0 + 3600)) TOKEN_FILE (bare_world t0)).2
  = (Ok (VDict (stored_token (t0 + 3600))),
     (save_tokens (stored_token (t0 + 3600)) TOKEN_FILE (bare_world t0)).2).
Proof.
  apply (save_load_roundtrip (stored_token (t0 + 3600)) TOKEN_FILE (bare_world t0)).
  - split; vm_compute; reflexivity.
  - vm_compute. reflexivity.
Defined.

(** An instant with 22 binary places, 1700003600 + 2^-22, is read back. *)
Example binary_instant_read_back :
  json_reads_back
    (VDict (stored_token (Qmake (1700003600 * 2 ^ 22 + 1) (2 ^ 22)))).
Proof.
  apply ref_json_reads_back, stored_token_is_record, (binary_decimal _ 22); reflexivity.
Qed.

(** Loading from a path where nothing is, and from a file that is not
    JSON. *)
Example load_tokens_nonexistent :
  load_tokens TOKEN_FILE (bare_world t0) = (Ok VNone, bare_world t0).
Proof. by apply load_tokens_missing. Qed.

Example load_tokens_malformed :
  load_tokens TOKEN_FILE (signed_in "{not json" t0) = (Ok VNone, signed_in "{not json" t0).
Proof. by rewrite (load_tokens_decoded _ "{not json"). Qed.

(** A [json] that gives up on deep nesting: [load_tokens] does not catch
    its [RecursionError]. *)
Example load_tokens_nested_too_deep (json : Json) (content : string) (w : world) :
  w_fs w !! TOKEN_FILE = Some (File content) →
  utf8_valid (bytes_of content) = true →
  json_loads content = inl RecursionError →
  load_tokens TOKEN_FILE w = (Raise RecursionError, w).
Proof.
  intros Hfile Hutf Hjson. by rewrite (load_tokens_decoded _ content), Hjson.
Qed.

(** C7 does not hold of the code: a token file whose bytes are not
    well-formed UTF-8 (here the single byte 0x81) is corrupt state, and
    [load_tokens] raises [UnicodeDecodeError] on it instead of answering
    [None]. *)
Theorem load_tokens_raises_on_undecodable_file :
  load_tokens TOKEN_FILE (signed_in (String "129" EmptyString) t0)
  = (Raise UnicodeDecodeError, signed_in (String "129" EmptyString) t0).
Proof. by apply (load_tokens_undecodable _ (String "129" EmptyString)). Qed.

(** ** The token validity gate *)

Lemma is_token_expired_run (d : gmap string pyval) (v : pyval) (expires_at : Q)
    (w : world) :
  d !! "expires_at" = Some v →
  as_number v = Some expires_at →
  is_token_expired (VDict d) w
  = (Ok (Qle_bool (expires_at - 60) (w_clock w (w_io w))), tick w).
Proof.
  intros Hd Hv. unfold is_token_expired, dict_get, bind, ret, time_time.
  by rewrite Hd; simpl; rewrite Hv.
Qed.

Lemma within_margin (expires_at now : Q) :
  Qle_bool (expires_at - 60) now = true ↔ (expires_at <= now + 60)%Q.
Proof. rewrite Qle_bool_iff. split; intros; lra. Qed.

Lemma beyond_margin (expires_at now : Q) :
  Qle_bool (expires_at - 60) now = false ↔ (now + 60 < expires_at)%Q.
Proof.
  rewrite <-not_true_iff_false, within_margin. split; intros; lra.
Qed.

(** C2: [is_token_expired] answers [True] exactly when
    [expires_at <= now + 60], and [False] exactly when
    [expires_at > now + 60], [now] being the reading of the clock. *)
Theorem is_token_expired_margin (d : gmap string pyval) (v : pyval)
    (expires_at : Q) (w : world) :
  d !! "expires_at" = Some v →
  as_number v = Some expires_at →
  ∃ b, is_token_expired (VDict d) w = (Ok b, tick w)
       ∧ (b = true ↔ (expires_at <= w_clock w (w_io w) + 60)%Q)
       ∧ (b = false ↔ (w_clock w (w_io w) + 60 < expires_at)%Q).
Proof.
  intros Hd Hv. eexists. split; [by apply (is_token_expired_run d v)|].
  split; [apply within_margin | apply beyond_margin].
Qed.

Lemma is_token_expired_margin_witness :
  ∃ b, is_token_expired (VDict (stored_token (t0 + 60))) (bare_world t0)
       = (Ok b, tick (bare_world t0))
       ∧ (b = true ↔ (t0 + 60 <= w_clock (bare_world t0) (w_io (bare_world t0)) + 60)%Q)
       ∧ (b = false ↔ (w_clock (bare_world t0) (w_io (bare_world t0)) + 60 < t0 + 60)%Q).
Proof.
  apply (is_token_expired_margin _ (VFloat (t0 + 60))); reflexivity.
Defined.

(** The boundary, from both sides: a token that expires in exactly 60
    seconds is expired, one that expires a millisecond later is not. *)
Example expired_at_the_margin :
  (is_token_expired (VDict (stored_token (t0 + 60))) (bare_world t0)).1 = Ok true.
Proof. reflexivity. Qed.

Example fresh_past_the_margin :
  (is_token_expired (VDict (stored_token (t0 + 60 + (1 # 1000)))) (bare_world t0)).1
  = Ok false.
Proof. reflexivity. Qed.

(** Reading the credentials leaves the world as it is. *)
Lemma get_client_credentials_pure (w : world) :
  (get_client_credentials w).2 = w.
Proof.
  unfold get_client_credentials, bind, os_getenv, gets, raise, ret.
  by destruct (_ || _).
Qed.

(** C5: the record [refresh_access_token] returns holds the provider's new
    refresh token when the response has one and the caller's refresh token
    when it has none; either way its [expires_at] is the clock's reading
    plus [expires_in] (3600 when the response has no [expires_in]), and its
    other members are the response's. *)
Theorem refresh_access_token_record (refresh_token : pyval) (w : world)
    (client_id client_secret redirect_uri : string) (r : response)
    (body : gmap string pyval) (expires_in : Q) :
  get_client_credentials w = (Ok (client_id, client_secret, redirect_uri), w) →
  w_endpoint w (w_io w) (refresh_request refresh_token client_id client_secret)
    = PostReturns r →
  resp_status r < 400 ∨ 600 ≤ resp_status r →
  resp_json r = inr (VDict body) →
  as_number (default (VInt 3600) (body !! "expires_in")) = Some expires_in →
  ∃ token_data,
    refresh_access_token refresh_token w
      = (Ok token_data,
         tick (tick (log_post (refresh_request refresh_token client_id client_secret) w)))
    ∧ token_data !! "refresh_token"
      = Some (default refresh_token (body !! "refresh_token"))
    ∧ token_data !! "expires_at"
      = Some (VFloat (w_clock w (S (w_io w)) + expires_in))
    ∧ ∀ key, key ≠ "refresh_token" → key ≠ "expires_at" →
             token_data !! key = body !! key.
Proof.
  intros Hcred Hpost Hstatus Hjson Hexp.
  set (kept := match body !! "refresh_token" with
               | None => <["refresh_token" := refresh_token]> body
               | Some _ => body
               end).
  assert (kept !! "expires_in" = body !! "expires_in") as Hin.
  { unfold kept. destruct (body !! "refresh_token"); [done|].
    by rewrite lookup_insert_ne. }
  exists (<["expires_at" := VFloat (w_clock w (S (w_io w)) + expires_in)]> kept).
  split; [|split; [|split]].
  - unfold refresh_access_token.
    rewrite (bind_Ok _ _ _ _ _ Hcred). cbv beta iota.
    unfold bind at 1, requests_post. rewrite Hpost.
    unfold bind at 1, raise_for_status.
    replace ((400 <=? resp_status r) && (resp_status r <? 600)) with false
      by (symmetry; apply andb_false_iff; lia).
    unfold ret at 1, bind at 1, response_json. rewrite Hjson.
    unfold ret at 1. fold kept. rewrite Hin, Hexp.
    reflexivity.
  - rewrite lookup_insert_ne by done. unfold kept.
    destruct (body !! "refresh_token") eqn:Hrt; simpl.
    + done.
    + by rewrite lookup_insert_eq.
  - by rewrite lookup_insert_eq.
  - intros key Hk1 Hk2. rewrite lookup_insert_ne by done. unfold kept.
    destruct (body !! "refresh_token"); [done|]. by rewrite lookup_insert_ne.
Qed.

Lemma refresh_access_token_record_witness :
  ∃ token_data,
    (refresh_access_token (VStr "AQC-refresh") (signed_in stale_file t0)).1 = Ok token_data
    ∧ token_data !! "refresh_token" = Some (VStr "AQC-refresh")
    ∧ token_data !! "expires_at" = Some (VFloat (t0 + inject_Z 3600)).
Proof.
  destruct (refresh_access_token_record (VStr "AQC-refresh") (signed_in stale_file t0)
              "client-id" "client-secret" "http://localhost:8888/callback"
              (Response 200 EmptyString (inr (VDict refreshed_body))) refreshed_body
              (inject_Z 3600))
    as (token_data & Hrun & Hrefresh & Hexpires & _);
    [reflexivity | reflexivity | left; reflexivity | reflexivity | reflexivity |].
  exists token_data. rewrite Hrun. repeat split; assumption.
Defined.

(** A provider that rotates the refresh token: the new one is adopted. *)
Example refresh_adopts_new_refresh_token :
  let provider := λ (_ : nat) (_ : post_request),
    PostReturns (Response 200 EmptyString (inr (VDict (<["refresh_token" := VStr "AQC-rotated"]>
                                                refreshed_body)))) in
  let w := World (token_fs stale_file) sample_environ (λ _, t0) provider 0 [] in
  (λ token_data, token_data !! "refresh_token")
    <$> (match (refresh_access_token (VStr "AQC-refresh") w).1 with
         | Ok token_data => Some token_data
         | _ => None
         end)
  = Some (Some (VStr "AQC-rotated")).
Proof. reflexivity. Qed.

Section Gate.
Context `{Json}.

Lemma truthy_dict (d : gmap string pyval) : d ≠ ∅ → truthy (VDict d) = true.
Proof. intros Hd. simpl. by rewrite bool_decide_false. Qed.

(** Running [get_valid_token] up to the answer of [is_token_expired]. *)
Ltac past_expiry_check Hload Hd Hexp :=
  unfold get_valid_token;
  rewrite (bind_Ok _ _ _ _ _ Hload), (truthy_dict _ Hd); cbn [negb];
  rewrite (bind_Ok _ _ _ _ _ Hexp); cbv beta iota.

(** C1: [get_valid_token] is the validity gate.  It fails with
    [NoTokenError] when the token store is absent; with
    [NoRefreshTokenError] when the stored record is expired and has no
    refresh token; when the record is expired and has a refresh token it
    refreshes, persists the refreshed record to the token file and returns
    the new access token; when the record is not expired it returns the
    stored access token. *)
Theorem get_valid_token_gate (w : world) :
  (∀ w1, load_tokens TOKEN_FILE w = (Ok VNone, w1) →
         get_valid_token w = (Raise NoTokenError, w1))
  ∧ (∀ d w1 w2,
       load_tokens TOKEN_FILE w = (Ok (VDict d), w1) → d ≠ ∅ →
       is_token_expired (VDict d) w1 = (Ok true, w2) →
       d !! "refresh_token" = None →
       get_valid_token w = (Raise NoRefreshTokenError, w2))
  ∧ (∀ d w1 w2 refresh_token refreshed w3 w4 access_token,
       load_tokens TOKEN_FILE w = (Ok (VDict d), w1) → d ≠ ∅ →
       is_token_expired (VDict d) w1 = (Ok true, w2) →
       d !! "refresh_token" = Some refresh_token →
       refresh_access_token refresh_token w2 = (Ok refreshed, w3) →
       save_tokens refreshed TOKEN_FILE w3 = (Ok tt, w4) →
       refreshed !! "access_token" = Some access_token →
       get_valid_token w = (Ok access_token, w4)
       ∧ w_fs w4 !! TOKEN_FILE = Some (File (json_dumps (VDict refreshed))))
  ∧ (∀ d w1 w2 access_token,
       load_tokens TOKEN_FILE w = (Ok (VDict d), w1) → d ≠ ∅ →
       is_token_expired (VDict d) w1 = (Ok false, w2) →
       d !! "access_token" = Some access_token →
       get_valid_token w = (Ok access_token, w2)).
Proof.
  split; [|split; [|split]].
  - intros w1 Hload. unfold get_valid_token.
    by rewrite (bind_Ok _ _ _ _ _ Hload).
  - intros d w1 w2 Hload Hd Hexp Hrt. past_expiry_check Hload Hd Hexp.
    unfold bind at 1, bind at 1, dict_contains, ret at 1. rewrite Hrt.
    rewrite bool_decide_false; [done|]. by intros [? ?].
  - intros d w1 w2 refresh_token refreshed w3 w4 access_token
      Hload Hd Hexp Hrt Hrefresh Hsave Htok.
    split; [|by eapply save_tokens_Ok].
    past_expiry_check Hload Hd Hexp.
    unfold bind at 1, bind at 1, dict_contains, ret at 1. rewrite Hrt.
    rewrite bool_decide_true by eauto. cbn [negb].
    erewrite try_except_Ok; cycle 1.
    + unfold bind at 1, dict_item, ret at 1. rewrite Hrt.
      rewrite (bind_Ok _ _ _ _ _ Hrefresh). cbv beta.
      by rewrite (bind_Ok _ _ _ _ _ Hsave).
    + unfold dict_item, ret. by rewrite Htok.
  - intros d w1 w2 tok Hload Hd Hexp Htok. past_expiry_check Hload Hd Hexp.
    unfold bind at 1, ret at 1, dict_item, ret. by rewrite Htok.
Qed.

(** C10: when the stored record is not expired, [get_valid_token] writes
    nothing: the file system after the call is the file system before
    it. *)
Theorem get_valid_token_no_write (w w1 : world) (d : gmap string pyval)
    (v : pyval) (expires_at : Q) :
  load_tokens TOKEN_FILE w = (Ok (VDict d), w1) →
  d !! "expires_at" = Some v →
  as_number v = Some expires_at →
  (w_clock w (w_io w) + 60 < expires_at)%Q →
  w_fs (get_valid_token w).2 = w_fs w.
Proof.
  intros Hload Hd Hv Hfresh.
  assert (w1 = w) as -> by (rewrite <-(load_tokens_pure TOKEN_FILE w); by rewrite Hload).
  pose proof (is_token_expired_run d v expires_at w Hd Hv) as Hexp.
  rewrite (proj2 (beyond_margin _ _) Hfresh) in Hexp.
  assert (d ≠ ∅) as Hne by (intros ->; by rewrite lookup_empty in Hd).
  past_expiry_check Hload Hne Hexp.
  unfold bind at 1, ret at 1, dict_item, ret, raise.
  by destruct (d !! "access_token").
Qed.
End Gate.

Lemma get_valid_token_gate_witness :
  (get_valid_token (bare_world t0)).1 = Raise NoTokenError
  ∧ (get_valid_token
       (signed_in (json_dumps (VDict (delete "refresh_token" (stored_token (t0 + 30))))) t0)).1
    = Raise NoRefreshTokenError
  ∧ (get_valid_token (signed_in stale_file t0)).1 = Ok (VStr "BQD-fresh")
  ∧ (get_valid_token (signed_in fresh_file t0)).1 = Ok (VStr "BQD-stored").
Proof.
  split; [|split; [|split]].
  - by rewrite (proj1 (get_valid_token_gate (bare_world t0)) (bare_world t0) eq_refl).
  - erewrite (proj1 (proj2 (get_valid_token_gate _))); [reflexivity | | | |].
    + vm_compute. reflexivity.
    + done.
    + vm_compute. reflexivity.
    + vm_compute. reflexivity.
  - edestruct (proj1 (proj2 (proj2 (get_valid_token_gate (signed_in stale_file t0)))))
      as [-> _]; [| | | | | | |reflexivity].
    + vm_compute. reflexivity.
    + done.
    + vm_compute. reflexivity.
    + vm_compute. reflexivity.
    + vm_compute. reflexivity.
    + vm_compute. reflexivity.
    + vm_compute. reflexivity.
  - erewrite (proj2 (proj2 (proj2 (get_valid_token_gate _)))); [reflexivity | | | |].
    + vm_compute. reflexivity.
    + done.
    + vm_compute. reflexivity.
    + vm_compute. reflexivity.
Defined.

Lemma get_valid_token_no_write_witness :
  w_fs (get_valid_token (signed_in fresh_file t0)).2 = w_fs (signed_in fresh_file t0).
Proof.
  apply (get_valid_token_no_write _ (signed_in fresh_file t0)
           (stored_token (t0 + 3600)) (VFloat (t0 + 3600)) (t0 + 3600)).
  - vm_compute. reflexivity.
  - reflexivity.
  - reflexivity.
  - vm_compute. reflexivity.
Defined.

(** On the refresh path the token file is rewritten. *)
Example refresh_rewrites_token_file :
  w_fs (get_valid_token (signed_in stale_file t0)).2 !! TOKEN_FILE
  = Some (File (json_dumps
                  (VDict (<["expires_at" := VFloat (t0 + 3600)]>
                            (<["refresh_token" := VStr "AQC-refresh"]> refreshed_body))))).
Proof. vm_compute. reflexivity. Qed.

(** ** The authorization redirect *)

(** Every name [parse_qs] reports has at least one value. *)
Lemma parse_qs_values_nonempty (qs : list ascii) (name : string) (values : list string) :
  parse_qs qs !! name = Some values → values ≠ [].
Proof.
  unfold parse_qs.
  assert (∀ (fields : list (string * string)) (parsed : gmap string (list string)),
            (∀ k vs, parsed !! k = Some vs → vs ≠ []) →
            ∀ k vs,
              fold_left (λ (parsed : gmap string (list string)) '(name, value),
                           <[name := (default [] (parsed !! name) ++ [value])%list]> parsed)
                        fields parsed !! k = Some vs →
              vs ≠ []) as Hfold.
  { induction fields as [|[n v] fields IH]; intros parsed Hparsed k vs; simpl.
    - apply Hparsed.
    - apply IH. intros k' vs'. rewrite lookup_insert.
      case_decide; [|apply Hparsed].
      intros [= <-]. by destruct (default [] (parsed !! n)). }
  apply (Hfold _ ∅). intros k vs. by rewrite lookup_empty.
Qed.

(** [parse_qs] gives each name its values in order of appearance. *)
Lemma parse_qs_lookup (qs : list ascii) (name : string) :
  parse_qs qs !! name
  = match values_of name (parse_qsl qs) with
    | [] => None
    | values => Some values
    end.
Proof.
  unfold parse_qs, values_of.
  assert (∀ (fields : list (string * string)) (parsed : gmap string (list string)),
            fold_left (λ (parsed : gmap string (list string)) '(name, value),
                         <[name := (default [] (parsed !! name) ++ [value])%list]> parsed)
                      fields parsed !! name
            = match snd <$> filter (λ p, p.1 = name) fields with
              | [] => parsed !! name
              | values => Some (default [] (parsed !! name) ++ values)%list
              end) as Hfold.
  { induction fields as [|[k v] fields IH]; intros parsed; [done|].
    cbn [fold_left]. rewrite IH, filter_cons. cbn [fst].
    case_decide as Hk.
    - subst k. rewrite lookup_insert_eq, fmap_cons. cbn [snd default].
      destruct (snd <$> filter _ fields); [done|].
      simpl. by rewrite <-app_assoc.
    - by rewrite lookup_insert_ne. }
  rewrite Hfold, lookup_empty. by destruct (snd <$> _).
Qed.

Section RedirectCases.
Context `{Urllib}.

(** C6, as the code has it.  On a redirect URL that [urlparse] refuses,
    [extract_code_from_url] fails with the [ValueError] of [urlparse].  On
    every other URL it answers by the parameters of the query, which are
    the names and values [parse_qsl] reads there, a field with a blank value
    being none: it returns the first value of [code] whenever there is a
    [code] parameter, also when there is an [error] parameter as well;
    without a [code] parameter it fails with [AuthorizationDenied] carrying
    the first value of [error] when there is an [error] parameter, and with
    [MissingAuthorizationCode] when there is neither.  [IndexError] is never
    raised. *)
Theorem extract_code_from_url_cases (redirect_url : string) :
  extract_code_from_url redirect_url
  = match urlsplit_error redirect_url with
    | Some msg => Raise (ValueError msg)
    | None => redirect_outcome (parse_qsl (urlparse_query redirect_url))
    end.
Proof.
  unfold extract_code_from_url, urlparse, redirect_outcome.
  destruct (urlsplit_error redirect_url) as [msg|]; [done|].
  cbv zeta. rewrite !parse_qs_lookup.
  destruct (values_of "code" _) as [|code codes]; [|done].
  by destruct (values_of "error" _).
Qed.
End RedirectCases.

Lemma extract_code_from_url_cases_witness :
  extract_code_from_url (callback "?code=abc123") = Ok "abc123"
  ∧ extract_code_from_url (callback "?error=access_denied")
    = Raise (AuthorizationDenied "access_denied")
  ∧ extract_code_from_url (callback "?state=xyz") = Raise MissingAuthorizationCode.
Proof.
  rewrite !extract_code_from_url_cases. repeat split.
Defined.

(** C6 as the specification words it fails in three ways.  On a redirect
    that carries both parameters an [error] parameter is present, yet the
    code is returned and no [AuthorizationDenied] is raised.  On a redirect
    whose [code] parameter has a blank value a [code] parameter is present,
    yet no code is returned.  On a redirect whose host has a bracket without
    its partner neither [code] nor [error] is present, yet the failure is
    that of [urlparse], not [MissingAuthorizationCode]. *)
Lemma extract_code_outside_the_cases :
  extract_code_from_url (callback "?code=abc123&error=access_denied") = Ok "abc123"
  ∧ extract_code_from_url (callback "?code=&state=xyz") = Raise MissingAuthorizationCode
  ∧ extract_code_from_url "http://[::1/callback?state=xyz"
    = Raise (ValueError "Invalid IPv6 URL").
Proof. repeat split. Qed.

(** A [code] parameter with a blank value is no parameter. *)
Example extract_code_blank :
  extract_code_from_url (callback "?code=") = Raise MissingAuthorizationCode.
Proof. reflexivity. Qed.

(** Escapes in the value are decoded, and bytes that are no text are
    replaced by U+FFFD. *)
Example extract_code_quoted :
  extract_code_from_url (callback "?state=1&code=AQ%2Fx+y#frag") = Ok "AQ/x y".
Proof. reflexivity. Qed.

Example extract_code_ill_formed :
  extract_code_from_url (callback "?code=AQ%FF")
  = Ok ("AQ" +:+ string_of_list_ascii (chars_of replacement)).
Proof. reflexivity. Qed.

(** ** The resilient client *)

Lemma range_3 : range 3 = [0; 1; 2].
Proof. reflexivity. Qed.

Lemma time_sleep_Ok (seconds : Q) (w : api_world) :
  (0 <= seconds)%Q → time_sleep seconds w = (Ok tt, log_event (Sleep seconds) w).
Proof.
  intros Hs. unfold time_sleep.
  by rewrite (proj2 (Qle_bool_iff 0 seconds) Hs).
Qed.

(** One attempt that meets a server error. *)
Lemma retry_loop_server_error {A} (func : M api_world A) (max_retries : Z) (delay : Q)
    (attempt : Z) (rest : list Z) (w w' : api_world) status headers :
  func w = (Raise (SpotifyException status headers), w') →
  500 ≤ status →
  retry_loop func max_retries delay (attempt :: rest) w
  = if attempt <? max_retries - 1
    then (time_sleep (delay * inject_Z (2 ^ attempt)) ;;
          retry_loop func max_retries delay rest) w'
    else (Raise (SpotifyException status headers), w').
Proof.
  intros Hfunc Hstatus. cbn [retry_loop].
  rewrite (try_except_caught _ _ _ _ _ _ Hfunc eq_refl).
  replace (status =? 429) with false by (symmetry; apply Z.eqb_neq; lia).
  replace (500 <=? status) with true by (symmetry; apply Z.leb_le; lia).
  by destruct (attempt <? max_retries - 1).
Qed.

(** C3: when the request function raises an HTTP error of status 500 or
    more on every attempt, [_retry_request] with the cap of 3 runs the
    function, sleeps [delay * 2^0], runs it again, sleeps [delay * 2^1],
    runs it a third time and raises that third exception in the world the
    third invocation left: there is no fourth invocation. *)
Theorem retry_request_server_errors {A} (func : M api_world A) (delay : Q)
    (w0 w1 w2 w3 : api_world) (s1 s2 s3 : Z) (h1 h2 h3 : option (gmap string string)) :
  (0 <= delay)%Q →
  func w0 = (Raise (SpotifyException s1 h1), w1) → 500 ≤ s1 →
  func (log_event (Sleep (delay * inject_Z (2 ^ 0))) w1)
    = (Raise (SpotifyException s2 h2), w2) → 500 ≤ s2 →
  func (log_event (Sleep (delay * inject_Z (2 ^ 1))) w2)
    = (Raise (SpotifyException s3 h3), w3) → 500 ≤ s3 →
  _retry_request func 3 delay w0 = (Raise (SpotifyException s3 h3), w3).
Proof.
  intros Hdelay H1 Hs1 H2 Hs2 H3 Hs3.
  assert (∀ k, (0 <= delay * inject_Z (2 ^ k))%Q) as Hwait.
  { intros k. apply Qmult_le_0_compat; [done|].
    change 0%Q with (inject_Z 0). rewrite <-Zle_Qle. apply Z.pow_nonneg. lia. }
  unfold _retry_request. rewrite range_3.
  rewrite (retry_loop_server_error _ _ _ _ _ _ _ _ _ H1 Hs1).
  change (0 <? 3 - 1) with true. cbv iota.
  rewrite (bind_Ok _ _ _ _ _ (time_sleep_Ok _ w1 (Hwait 0))).
  rewrite (retry_loop_server_error _ _ _ _ _ _ _ _ _ H2 Hs2).
  change (1 <? 3 - 1) with true. cbv iota.
  rewrite (bind_Ok _ _ _ _ _ (time_sleep_Ok _ w2 (Hwait 1))).
  by rewrite (retry_loop_server_error _ _ _ _ _ _ _ _ _ H3 Hs3).
Qed.

Lemma retry_request_server_errors_witness :
  ∃ w3,
    _retry_request always_503 3 1 (fresh_client (bare_world t0) no_pages no_features)
    = (Raise (SpotifyException 503 None), w3)
    ∧ aw_calls w3 = 3%nat
    ∧ aw_log w3
      = [ApiCall (VStr "BQD-stored") (AudioFeatures ["4uLU6hMCjMI75M1A2tKUQC"]);
         Sleep (1 * inject_Z (2 ^ 0));
         ApiCall (VStr "BQD-stored") (AudioFeatures ["4uLU6hMCjMI75M1A2tKUQC"]);
         Sleep (1 * inject_Z (2 ^ 1));
         ApiCall (VStr "BQD-stored") (AudioFeatures ["4uLU6hMCjMI75M1A2tKUQC"])].
Proof.
  eexists. split.
  - eapply (retry_request_server_errors always_503 1
              (fresh_client (bare_world t0) no_pages no_features)).
    + vm_compute. discriminate.
    + reflexivity.
    + lia.
    + reflexivity.
    + lia.
    + reflexivity.
    + lia.
  - split; reflexivity.
Defined.

(** An attempt that succeeds at once. *)
Lemma retry_request_first_Ok {A} (func : M api_world A) (delay : Q)
    (w w' : api_world) (a : A) :
  func w = (Ok a, w') → _retry_request func 3 delay w = (Ok a, w').
Proof.
  intros Hfunc. unfold _retry_request. rewrite range_3. cbn [retry_loop].
  by rewrite (try_except_Ok _ _ _ _ _ _ Hfunc).
Qed.

(** Two rate-limited answers with a wait hint of one second, then an
    answer: two pauses of one second, and the third answer is returned. *)
Example rate_limited_twice_then_served :
  let bearer := VStr "BQD-stored" in
  let run := _retry_request (audio_features (Spotify bearer) ["a"]) 3 1
               (fresh_client (bare_world t0) no_pages rate_limited_twice) in
  run.1 = Ok [feature_of "a"]
  ∧ aw_log run.2
    = [ApiCall bearer (AudioFeatures ["a"]); Sleep 1;
       ApiCall bearer (AudioFeatures ["a"]); Sleep 1;
       ApiCall bearer (AudioFeatures ["a"])].
Proof. vm_compute. split; reflexivity. Qed.

(** ** Pagination *)

Lemma call_pages_answer (client : spotipy) (req : api_request) (w : api_world) (p : page) :
  aw_pages w (aw_calls w) (auth client) req = inr p →
  call_pages client req w = (Ok p, advance 1 [ApiCall (auth client) req] w).
Proof. unfold call_pages. by intros ->. Qed.

(** Draining follows the chain of pages to its end. *)
Lemma drain_serves (client : spotipy) (rest : list page) :
  ∀ (p : page) (fuel : nat) (tracks : list pyval) (w : api_world),
    match rest with
    | [] => next_of p = None
    | _ => ∃ url, next_of p = Some url
                  ∧ serves (aw_pages w) (auth client) (aw_calls w) (Next url) rest
    end →
    (length rest ≤ fuel)%nat →
    ∃ w', drain fuel client p tracks w
          = (Ok (tracks ++ concat (items_of <$> rest))%list, w')
          ∧ aw_calls w' = (length rest + aw_calls w)%nat.
Proof.
  induction rest as [|q rest IH]; intros p fuel tracks w Hchain Hfuel.
  - exists w. split; [|done].
    rewrite app_nil_r. destruct fuel; simpl; by rewrite Hchain.
  - destruct Hchain as (url & Hnext & Hq & Hrest).
    destruct fuel as [|fuel]; [simpl in Hfuel; lia|].
    cbn [drain]. rewrite Hnext.
    rewrite (bind_Ok _ _ _ _ _ (call_pages_answer _ _ _ _ Hq)).
    destruct (IH q fuel (tracks ++ items_of q)%list
                (advance 1 [ApiCall (auth client) (Next url)] w))
      as (w' & Hdrain & Hcalls).
    + exact Hrest.
    + simpl in Hfuel. lia.
    + exists w'. split.
      * rewrite Hdrain. by rewrite fmap_cons, concat_cons, app_assoc.
      * rewrite Hcalls. simpl. lia.
Qed.

Section Paging.
Context `{Json}.

(** C4: when the API serves a chain of pages, each but the last carrying a
    "next" link, [get_top_tracks] (given fuel for the links to follow)
    returns one list: the items of all pages, in page order and in item
    order within each page; every page was requested once. *)
Theorem get_top_tracks_drains (fuel : nat) (time_range : string) (limit : Z)
    (w w1 : api_world) (client : spotipy) (pages : list page) :
  _get_client w = (Ok client, w1) →
  serves (aw_pages w1) (auth client) (aw_calls w1)
         (CurrentUserTopTracks time_range limit) pages →
  (length pages ≤ S fuel)%nat →
  ∃ w', get_top_tracks fuel time_range limit w
        = (Ok (concat (items_of <$> pages)), w')
        ∧ aw_calls w' = (length pages + aw_calls w1)%nat.
Proof.
  intros Hclient Hserves Hfuel.
  destruct pages as [|p rest]; [done|].
  destruct Hserves as [Hp Hrest].
  destruct (drain_serves client rest p fuel (items_of p)
              (advance 1 [ApiCall (auth client)
                            (CurrentUserTopTracks time_range limit)] w1))
    as (w' & Hdrain & Hcalls).
  { destruct rest; [done|]. exact Hrest. }
  { simpl in Hfuel. lia. }
  exists w'. split.
  - unfold get_top_tracks. rewrite (bind_Ok _ _ _ _ _ Hclient).
    apply retry_request_first_Ok.
    by rewrite (bind_Ok _ _ _ _ _ (call_pages_answer _ _ _ _ Hp)).
  - rewrite Hcalls. simpl. lia.
Qed.
End Paging.

Lemma get_top_tracks_drains_witness :
  ∃ w',
    get_top_tracks 5 "medium_term" 50
      (fresh_client (signed_in fresh_file t0) three_pages no_features)
    = (Ok [track "a"; track "b"; track "c"; track "d"; track "e"], w')
    ∧ aw_calls w' = 3%nat.
Proof.
  destruct (get_top_tracks_drains 5 "medium_term" 50
              (fresh_client (signed_in fresh_file t0) three_pages no_features)
              (_get_client (fresh_client (signed_in fresh_file t0) three_pages no_features)).2
              (Spotify (VStr "BQD-stored")) [page1; page2; page3])
    as (w' & Hrun & Hcalls).
  - vm_compute. reflexivity.
  - split; [reflexivity|]. exists (page_url "2"). split; [reflexivity|].
    split; [reflexivity|]. exists (page_url "4"). split; [reflexivity|].
    split; reflexivity.
  - simpl. lia.
  - exists w'. split; [exact Hrun | exact Hcalls].
Defined.

(** ** Batches of audio features *)

Lemma advance_0 (w : api_world) : advance 0 [] w = w.
Proof. destruct w. unfold advance. simpl. by rewrite app_nil_r. Qed.

Lemma advance_advance (n m : nat) (e1 e2 : list event) (w : api_world) :
  advance n e2 (advance m e1 w) = advance (m + n) (e1 ++ e2) w.
Proof.
  unfold advance. simpl. rewrite app_assoc. f_equal. lia.
Qed.

Lemma audio_features_answer (client : spotipy) (tracks : list string) (w : api_world) :
  audio_features client tracks w
  = (of_answer (aw_features w (aw_calls w) (auth client) tracks),
     advance 1 [ApiCall (auth client) (AudioFeatures tracks)] w).
Proof. reflexivity. Qed.

Lemma fetch_one_answer (client : spotipy) (track_id : string) (w : api_world) :
  fetch_one client track_id w
  = (Ok (individually (aw_features w (aw_calls w) (auth client) [track_id])),
     advance 1 [Sleep (1 # 10); ApiCall (auth client) (AudioFeatures [track_id])] w).
Proof.
  unfold fetch_one, try_except.
  rewrite (bind_Ok _ _ _ _ _ (time_sleep_Ok (1 # 10) w ltac:(done))).
  unfold bind. rewrite audio_features_answer.
  replace (log_event (Sleep (1 # 10)) w) with (advance 0 [Sleep (1 # 10)] w)
    by reflexivity.
  rewrite advance_advance. cbn [app Nat.add aw_features aw_calls advance].
  destruct (aw_features w (aw_calls w) (auth client) [track_id]) as [e|[|f ?]];
    simpl; try done.
  by destruct (truthy f).
Qed.

(** The fallback asks for every track of the batch, one by one and in
    order, whatever the answers, and keeps the features of the requests
    that succeeded. *)
Lemma fetch_individually_kept (client : spotipy) (batch : list string) :
  ∀ (found : list pyval) (w : api_world),
    fetch_individually client batch found w
    = (Ok (found ++ kept_individually (aw_features w) (auth client) (aw_calls w) batch)%list,
       advance (length batch) (individual_events (auth client) batch) w).
Proof.
  induction batch as [|track_id batch IH]; intros found w.
  - simpl. unfold ret. by rewrite app_nil_r, advance_0.
  - cbn [fetch_individually].
    rewrite (bind_Ok _ _ _ _ _ (fetch_one_answer client track_id w)).
    rewrite IH, advance_advance. cbn [length individual_events flat_map app].
    f_equal. f_equal. cbn [kept_individually aw_features aw_calls advance Nat.add].
    destruct (individually _); by rewrite <-?app_assoc.
Qed.

(** A batch never fails: it is answered, or it falls back. *)
Lemma fetch_batch_outcome (client : spotipy) (batch : list string) (w : api_world) :
  ∃ features w',
    _fetch_batch client batch w = (Ok features, w')
    ∧ batch_outcome client batch w features w'.
Proof.
  unfold _fetch_batch, try_except. rewrite audio_features_answer.
  destruct (aw_features w (aw_calls w) (auth client) batch) as [e|features] eqn:Hanswer;
    simpl.
  - rewrite fetch_individually_kept, advance_advance. simpl.
    eexists _, _. split; [done|]. by apply (batch_fell_back _ _ _ e).
  - eexists _, _. split; [done|]. by apply batch_answered.
Qed.

(** One turn of the loop over the batches. *)
Lemma batches_loop_turn (client : spotipy) (track_ids : list string) (i : nat)
    (starts : list nat) (all_features : list pyval) (w : api_world) :
  ∃ features w',
    batch_outcome client (take 20 (drop i track_ids)) w features w'
    ∧ batches_loop client track_ids (i :: starts) all_features w
      = ((if (i + 20 <? length track_ids)%nat then time_sleep (2 # 10) else ret tt) ;;
         batches_loop client track_ids starts
           (all_features ++ List.filter is_not_None features)%list) w'.
Proof.
  destruct (fetch_batch_outcome client (take 20 (drop i track_ids)) w)
    as (features & w' & Hfetch & Hout).
  exists features, w'. split; [done|].
  cbn [batches_loop].
  by rewrite (bind_Ok _ _ _ _ _ (retry_request_first_Ok _ _ _ _ _ Hfetch)).
Qed.

Lemma batch_starts_45 : batch_starts 45 = [0; 20; 40]%nat.
Proof. reflexivity. Qed.

Section Batches.
Context `{Json}.

(** C8: for 45 track ids, [get_audio_features_for_tracks] goes through
    three batches, of the first 20 ids, the next 20 and the last 5, with a
    pause between batches.  Each batch is one batch request; a batch
    whose request fails falls back to one request per id of that batch,
    and contributes the features of the ids whose own request succeeded.
    The fetch as a whole never fails: it returns the features of the
    three batches, in order. *)
Theorem get_audio_features_45 (track_ids : list string) (w w0 : api_world)
    (client : spotipy) :
  length track_ids = 45%nat →
  _get_client w = (Ok client, w0) →
  ∃ f1 w1 f2 w2 f3 w3,
    batch_outcome client (take 20 track_ids) w0 f1 w1
    ∧ batch_outcome client (take 20 (drop 20 track_ids))
        (log_event (Sleep (2 # 10)) w1) f2 w2
    ∧ batch_outcome client (drop 40 track_ids)
        (log_event (Sleep (2 # 10)) w2) f3 w3
    ∧ length (take 20 track_ids) = 20%nat
    ∧ length (take 20 (drop 20 track_ids)) = 20%nat
    ∧ length (drop 40 track_ids) = 5%nat
    ∧ get_audio_features_for_tracks track_ids w
      = (Ok (List.filter is_not_None f1 ++ List.filter is_not_None f2
             ++ List.filter is_not_None f3)%list, w3).
Proof.
  intros Hlen Hclient.
  destruct (batches_loop_turn client track_ids 0 [20; 40]%nat [] w0)
    as (f1 & w1 & Hb1 & Hl1).
  destruct (batches_loop_turn client track_ids 20 [40]%nat
              ([] ++ List.filter is_not_None f1)%list
              (log_event (Sleep (2 # 10)) w1))
    as (f2 & w2 & Hb2 & Hl2).
  destruct (batches_loop_turn client track_ids 40 []
              (([] ++ List.filter is_not_None f1) ++ List.filter is_not_None f2)%list
              (log_event (Sleep (2 # 10)) w2))
    as (f3 & w3 & Hb3 & Hl3).
  rewrite Hlen in Hl1, Hl2, Hl3.
  change (0 + 20 <? 45)%nat with true in Hl1.
  change (20 + 20 <? 45)%nat with true in Hl2.
  change (40 + 20 <? 45)%nat with false in Hl3.
  cbv iota in Hl1, Hl2, Hl3.
  rewrite (bind_Ok _ _ _ _ _ (time_sleep_Ok (2 # 10) w1 ltac:(done))) in Hl1.
  rewrite (bind_Ok _ _ _ _ _ (time_sleep_Ok (2 # 10) w2 ltac:(done))) in Hl2.
  assert (take 20 (drop 40 track_ids) = drop 40 track_ids) as Hlast.
  { apply take_ge. rewrite length_drop. lia. }
  rewrite Hlast in Hb3.
  exists f1, w1, f2, w2, f3, w3.
  repeat split; try done.
  - rewrite length_take. lia.
  - rewrite length_take, length_drop. lia.
  - rewrite length_drop. lia.
  - unfold get_audio_features_for_tracks.
    rewrite (bind_Ok _ _ _ _ _ Hclient), Hlen, batch_starts_45.
    rewrite Hl1, Hl2, Hl3. unfold bind, ret. simpl.
    by rewrite <-app_assoc.
Qed.
End Batches.

Lemma get_audio_features_45_witness :
  ∃ features w',
    get_audio_features_for_tracks sample_ids
      (fresh_client (signed_in fresh_file t0) no_pages flaky_features)
    = (Ok features, w').
Proof.
  destruct (get_audio_features_45 sample_ids
              (fresh_client (signed_in fresh_file t0) no_pages flaky_features)
              (_get_client (fresh_client (signed_in fresh_file t0) no_pages flaky_features)).2
              (Spotify (VStr "BQD-stored")))
    as (f1 & w1 & f2 & w2 & f3 & w3 & _ & _ & _ & _ & _ & _ & Hrun).
  - reflexivity.
  - vm_compute. reflexivity.
  - rewrite Hrun. by eexists _, _.
Defined.

(** The second of the three batches fails: its twenty ids are asked for
    one by one, and the ids whose own request fails are left out. *)
Example second_batch_falls_back :
  let run := get_audio_features_for_tracks sample_ids
               (fresh_client (signed_in fresh_file t0) no_pages flaky_features) in
  run.1 = Ok (feature_of <$> (take 20 sample_ids
                              ++ even_positions (take 20 (drop 20 sample_ids))
                              ++ drop 40 sample_ids)%list)
  ∧ List.filter is_batch_request (aw_log run.2)
    = [ApiCall (VStr "BQD-stored") (AudioFeatures (take 20 sample_ids));
       ApiCall (VStr "BQD-stored") (AudioFeatures (take 20 (drop 20 sample_ids)));
       ApiCall (VStr "BQD-stored") (AudioFeatures (drop 40 sample_ids))]
  ∧ aw_calls run.2 = 23%nat.
Proof. vm_compute. repeat split; reflexivity. Qed.

(** * Further properties *)

(** ** Query strings *)

Lemma chars_app (s t : string) :
  list_ascii_of_string (s +:+ t) = (list_ascii_of_string s ++ list_ascii_of_string t)%list.
Proof. induction s as [|c s IH]; [done|]. simpl. by rewrite <-IH. Qed.

Lemma chars_quote_plus (s : string) :
  list_ascii_of_string (quote_plus s) = flat_map quote_byte (list_ascii_of_string s).
Proof. unfold quote_plus. apply list_ascii_of_string_of_list_ascii. Qed.

(** What [quote_byte] writes: the character itself, which is no mark of the
    query syntax; a plus sign for a space; or a percent sign and the two
    hexadecimal digits of the character. *)
Lemma quote_byte_cases (c : ascii) :
  (quote_byte c = [c] ∧ is_char "%" c = false ∧ is_char "+" c = false)
  ∨ (quote_byte c = ["+"%char] ∧ c = " "%char)
  ∨ (∃ h l a b, quote_byte c = ["%"%char; h; l]
                ∧ hex_value h = Some a ∧ hex_value l = Some b
                ∧ ascii_of_N (16 * a + b) = c).
Proof.
  destruct c as [[] [] [] [] [] [] [] []];
    first [ left; repeat split; reflexivity
          | right; left; split; reflexivity
          | right; right; eexists _, _, _, _; repeat split; reflexivity ].
Qed.

Lemma quote_byte_plain (c : ascii) : Forall (λ d, query_plain d = true) (quote_byte c).
Proof.
  destruct c as [[] [] [] [] [] [] [] []]; vm_compute; repeat constructor.
Qed.

Lemma quote_plus_plain (s : string) :
  Forall (λ d, query_plain d = true) (list_ascii_of_string (quote_plus s)).
Proof.
  rewrite chars_quote_plus.
  induction (list_ascii_of_string s) as [|c cs IH]; [constructor|].
  simpl. apply Forall_app. split; [apply quote_byte_plain | exact IH].
Qed.

Lemma quote_byte_ascii (c : ascii) :
  Forall (λ d, (N_of_ascii d <? 128)%N = true) (plus_to_space (quote_byte c)).
Proof.
  destruct c as [[] [] [] [] [] [] [] []]; vm_compute; repeat constructor.
Qed.

(** Text that is well-formed is read as it is. *)
Lemma utf8_replace_valid (bs : list Z) : utf8_valid bs = true → utf8_replace bs = bs.
Proof.
  assert (∀ n bs, (length bs ≤ n)%nat → utf8_valid bs = true → utf8_replace bs = bs)
    as Hn; [|by apply (Hn (length bs))].
  clear bs. induction n as [|n IH]; intros bs Hlen Hvalid.
  { destruct bs; [done|]. simpl in Hlen. lia. }
  destruct bs as [|b0 r0]; [done|]. cbn [utf8_valid utf8_replace] in *.
  simpl in Hlen.
  destruct (b0 <=? 127); [by rewrite IH by (done || lia)|].
  destruct r0 as [|b1 r1]; [done|]. simpl in Hlen.
  destruct (between 194 223 b0).
  { apply andb_prop in Hvalid as [-> Hvalid]. by rewrite IH by (done || lia). }
  destruct r1 as [|b2 r2]; [done|]. simpl in Hlen.
  destruct (between 224 239 b0).
  { apply andb_prop in Hvalid as [[-> ->]%andb_prop Hvalid].
    by rewrite IH by (done || lia). }
  destruct r2 as [|b3 r3]; [done|]. simpl in Hlen.
  apply andb_prop in Hvalid as [[[[-> ->]%andb_prop ->]%andb_prop ->]%andb_prop Hvalid].
  by rewrite IH by (done || lia).
Qed.

Lemma chars_of_bytes_of (s : string) : chars_of (bytes_of s) = list_ascii_of_string s.
Proof.
  unfold chars_of, bytes_of. rewrite <-list_fmap_compose.
  rewrite <-(list_fmap_id (list_ascii_of_string s)) at 2.
  apply list_fmap_ext. intros _ c _. cbn. by rewrite N2Z.id, ascii_N_embedding.
Qed.

Lemma as_text_valid (s : string) : utf8_valid (bytes_of s) = true → as_text s = s.
Proof.
  intros Hvalid. unfold as_text.
  by rewrite (utf8_replace_valid _ Hvalid), chars_of_bytes_of, string_of_list_ascii_of_string.
Qed.

(** The bytes of what [quote_plus] wrote are those of the text. *)
Lemma unquote_quote_byte (c : ascii) (rest : list ascii) :
  unquote_to_bytes (plus_to_space (quote_byte c ++ rest))
  = c :: unquote_to_bytes (plus_to_space rest).
Proof.
  destruct (quote_byte_cases c)
    as [(-> & Hpercent & Hplus) | [(-> & ->) | (h & l & a & b & -> & Hh & Hl & <-)]].
  - cbn [app plus_to_space fmap list_fmap unquote_to_bytes]. rewrite Hplus.
    cbn [unquote_to_bytes]. by rewrite Hpercent.
  - reflexivity.
  - cbn [app plus_to_space fmap list_fmap].
    change (is_char "+" "%") with false. cbv iota.
    assert (∀ d x, hex_value d = Some x → (if is_char "+" d then " "%char else d) = d)
      as Hdigit.
    { intros d x. destruct d as [[] [] [] [] [] [] [] []]; by vm_compute. }
    rewrite (Hdigit _ _ Hh), (Hdigit _ _ Hl).
    cbn [unquote_to_bytes]. change (is_char "%" "%") with true. cbv iota.
    by rewrite Hh, Hl.
Qed.

(** A text of ASCII characters is one run. *)
Lemma unquote_runs_ascii (l : list ascii) :
  Forall (λ d, (N_of_ascii d <? 128)%N = true) l →
  ∀ run_rev, unquote_runs run_rev l = unquote_run (rev run_rev ++ l).
Proof.
  induction 1 as [|c l Hc _ IH]; intros run_rev; cbn [unquote_runs].
  - by rewrite app_nil_r.
  - rewrite Hc, IH. cbn [rev]. by rewrite <-app_assoc.
Qed.

(** Unquoting what [quote_plus] wrote reads the text back. *)
Lemma unquote_quote_plus (s : string) :
  string_of_list_ascii (unquote (plus_to_space (list_ascii_of_string (quote_plus s))))
  = as_text s.
Proof.
  rewrite chars_quote_plus. unfold unquote, as_text.
  rewrite unquote_runs_ascii; cycle 1.
  { induction (list_ascii_of_string s) as [|c cs IH]; [constructor|].
    cbn [flat_map]. unfold plus_to_space. rewrite fmap_app.
    apply Forall_app. split; [apply quote_byte_ascii|exact IH]. }
  cbn [rev app]. unfold unquote_run.
  assert (∀ l, unquote_to_bytes (plus_to_space (flat_map quote_byte l)) = l) as ->.
  { induction l as [|c cs IH]; [done|].
    cbn [flat_map]. by rewrite unquote_quote_byte, IH. }
  by rewrite string_of_list_ascii_of_string.
Qed.

(** Splitting a field at its first [=]. *)
Lemma take_until_plain (mark : ascii) (name rest : list ascii) :
  Forall (λ d, is_char mark d = false) name →
  take_until (is_char mark) (name ++ mark :: rest) = name.
Proof.
  induction 1 as [|c cs Hc _ IH]; simpl.
  - unfold is_char. by rewrite Ascii.eqb_refl.
  - by rewrite Hc, IH.
Qed.

Lemma drop_while_plain (mark : ascii) (name rest : list ascii) :
  Forall (λ d, is_char mark d = false) name →
  drop_while (λ c, negb (is_char mark c)) (name ++ mark :: rest) = mark :: rest.
Proof.
  induction 1 as [|c cs Hc _ IH]; simpl.
  - unfold is_char. by rewrite Ascii.eqb_refl.
  - by rewrite Hc.
Qed.

Lemma query_plain_no (mark d : ascii) :
  query_mark mark = true → query_plain d = true → is_char mark d = false.
Proof.
  unfold query_plain, query_mark, is_char. intros Hmark Hd.
  destruct (Ascii.eqb_spec mark d) as [<-|]; [|done].
  by rewrite Hmark in Hd.
Qed.

Lemma plain_no (mark : ascii) (l : list ascii) :
  query_mark mark = true →
  Forall (λ d, query_plain d = true) l → Forall (λ d, is_char mark d = false) l.
Proof.
  intros Hmark Hl. eapply Forall_impl; [exact Hl|].
  intros d. by apply query_plain_no.
Qed.

(** Splitting a query at its [&]s. *)
Lemma split_on_plain (sep : ascii) (field : list ascii) :
  Forall (λ d, is_char sep d = false) field →
  ∀ cur_rev rest,
    split_on sep cur_rev (field ++ sep :: rest)
    = (rev cur_rev ++ field)%list :: split_on sep [] rest.
Proof.
  induction 1 as [|c cs Hc _ IH]; intros cur_rev rest; simpl.
  - unfold is_char. by rewrite Ascii.eqb_refl, app_nil_r.
  - rewrite Hc, IH. simpl. by rewrite <-app_assoc.
Qed.

Lemma split_on_last (sep : ascii) (field : list ascii) :
  Forall (λ d, is_char sep d = false) field →
  ∀ cur_rev, split_on sep cur_rev field = [(rev cur_rev ++ field)%list].
Proof.
  induction 1 as [|c cs Hc _ IH]; intros cur_rev; simpl.
  - by rewrite app_nil_r.
  - rewrite Hc, IH. simpl. by rewrite <-app_assoc.
Qed.

Lemma field_text_plain (p : string * string) :
  Forall (λ d, is_char "&" d = false) (list_ascii_of_string (field_text p)).
Proof.
  unfold field_text. rewrite !chars_app. apply Forall_app. split; [|apply Forall_app; split].
  - apply (plain_no "&"); [done|apply quote_plus_plain].
  - by repeat constructor.
  - apply (plain_no "&"); [done|apply quote_plus_plain].
Qed.

Lemma split_on_urlencode (query : list (string * string)) :
  query ≠ [] →
  split_on "&" [] (list_ascii_of_string (str_join "&" (field_text <$> query)))
  = (λ p, list_ascii_of_string (field_text p)) <$> query.
Proof.
  induction query as [|p [|q query] IH]; intros Hne; [done| |].
  - simpl. by rewrite (split_on_last "&" _ (field_text_plain p)).
  - change (str_join "&" (field_text <$> p :: q :: query))
      with (field_text p +:+ "&" +:+ str_join "&" (field_text <$> q :: query)).
    rewrite !chars_app.
    change (list_ascii_of_string "&") with ["&"%char]. cbn [app].
    rewrite (split_on_plain "&" _ (field_text_plain p)), IH by done.
    done.
Qed.

(** One field is read back as its name and value, unless the value is
    blank. *)
Lemma read_field (p : string * string) :
  let field := list_ascii_of_string (field_text p) in
  let name := take_until (is_char "=") field in
  let value := match drop_while (λ c, negb (is_char "=" c)) field with
               | [] => []
               | _ :: v => v
               end in
  match value with
  | [] => None
  | _ => Some (string_of_list_ascii (unquote (plus_to_space name)),
               string_of_list_ascii (unquote (plus_to_space value)))
  end
  = if bool_decide (p.2 = EmptyString) then None else Some (as_text p.1, as_text p.2).
Proof.
  destruct p as [k v]. unfold field_text. cbn [fst snd].
  rewrite !chars_app. change (list_ascii_of_string "=") with ["="%char]. cbn [app].
  assert (Forall (λ d, is_char "=" d = false) (list_ascii_of_string (quote_plus k)))
    as Hk by (apply (plain_no "="); [done|apply quote_plus_plain]).
  cbv zeta. rewrite (take_until_plain "=" _ _ Hk), (drop_while_plain "=" _ _ Hk).
  rewrite !unquote_quote_plus.
  destruct v as [|c v].
  - by rewrite bool_decide_true.
  - rewrite bool_decide_false by done.
    rewrite chars_quote_plus. cbn [list_ascii_of_string flat_map].
    destruct (quote_byte_cases c)
      as [(-> & _) | [(-> & _) | (h & l & a & b & -> & _)]]; reflexivity.
Qed.

Lemma urlencode_fields (query : list (string * string)) :
  urlencode query = str_join "&" (field_text <$> query).
Proof.
  unfold urlencode. f_equal. apply list_fmap_ext. by intros ? [].
Qed.

(** [parse_qsl] reads back the items [urlencode] wrote, those with a blank
    value apart. *)
Lemma parse_qsl_urlencode (query : list (string * string)) :
  parse_qsl (list_ascii_of_string (urlencode query)) = read_back query.
Proof.
  unfold read_back, nonblank.
  destruct query as [|p query]; [done|].
  unfold parse_qsl. rewrite urlencode_fields, split_on_urlencode by done.
  generalize (p :: query). intros l.
  induction l as [|q l IH]; [done|].
  rewrite fmap_cons, filter_cons. cbn [omap list_omap].
  rewrite (read_field q), IH.
  case_bool_decide; case_decide; done.
Qed.

(** The query of a URL made of a plain address, a question mark and a
    text without fragment. *)
Lemma urlparse_query_plain (base : string) (qs : list ascii) :
  plain_address base →
  Forall (λ d, url_plain d = true) qs →
  urlparse_query (base +:+ "?" +:+ string_of_list_ascii qs) = qs.
Proof.
  intros Hbase Hqs. unfold urlparse_query. cbv zeta.
  rewrite !chars_app, list_ascii_of_string_of_list_ascii.
  change (list_ascii_of_string "?") with ["?"%char]. cbn [app].
  set (keep := λ c, negb (is_char c "009" || is_char c "010" || is_char c "013")).
  assert (∀ l, Forall (λ d, url_plain d = true) l →
               List.filter keep l = l ∧ take_until (is_char "#") l = l) as Hplain.
  { induction 1 as [|c cs Hc _ [IH1 IH2]]; [done|]. cbn [List.filter take_until].
    assert (keep c = true ∧ is_char "#" c = false) as [-> ->].
    { revert Hc. unfold keep. clear.
      destruct c as [[] [] [] [] [] [] [] []]; by vm_compute. }
    by rewrite IH1, IH2. }
  assert (∀ l rest, Forall (λ d, address_plain d = true) l →
               List.filter keep (l ++ rest) = (l ++ List.filter keep rest)%list
               ∧ (∀ rest', take_until (is_char "#") (l ++ rest')
                           = (l ++ take_until (is_char "#") rest')%list)
               ∧ (∀ rest', drop_while (λ c, negb (is_char "?" c)) (l ++ "?"%char :: rest')
                           = "?"%char :: rest')) as Haddress.
  { intros l rest. induction 1 as [|c cs Hc _ (IH1 & IH2 & IH3)]; [done|].
    cbn [app List.filter take_until drop_while].
    assert (keep c = true ∧ is_char "#" c = false ∧ is_char "?" c = false)
      as (-> & -> & ->).
    { revert Hc. unfold keep. clear.
      destruct c as [[] [] [] [] [] [] [] []]; by vm_compute. }
    cbn [negb]. rewrite IH1. split; [done|]. split.
    - intros rest'. by rewrite IH2.
    - intros rest'. by rewrite IH3. }
  destruct (Haddress _ ("?"%char :: qs) Hbase) as (-> & Htake & Hdrop).
  cbn [List.filter]. change (keep "?"%char) with true. cbv iota.
  destruct (Hplain qs Hqs) as [-> Hq].
  rewrite Htake. cbn [take_until]. change (is_char "#" "?") with false. cbv iota.
  by rewrite Hq, Hdrop.
Qed.

Lemma query_plain_url_plain (l : list ascii) :
  Forall (λ d, query_plain d = true) l → Forall (λ d, url_plain d = true) l.
Proof.
  intros Hl. eapply Forall_impl; [exact Hl|].
  intros d. destruct d as [[] [] [] [] [] [] [] []]; by vm_compute.
Qed.

Lemma urlencode_plain (query : list (string * string)) :
  Forall (λ d, url_plain d = true) (list_ascii_of_string (urlencode query)).
Proof.
  rewrite urlencode_fields.
  assert (∀ p, Forall (λ d, url_plain d = true) (list_ascii_of_string (field_text p)))
    as Hfield.
  { intros p. unfold field_text. rewrite !chars_app.
    apply Forall_app. split; [apply query_plain_url_plain, quote_plus_plain|].
    apply Forall_app. split; [by repeat constructor|].
    apply query_plain_url_plain, quote_plus_plain. }
  induction query as [|p [|q query] IH]; [constructor|apply Hfield|].
  change (str_join "&" (field_text <$> p :: q :: query))
    with (field_text p +:+ "&" +:+ str_join "&" (field_text <$> q :: query)).
  rewrite !chars_app. apply Forall_app. split; [apply Hfield|].
  apply Forall_app. split; [by repeat constructor|exact IH].
Qed.

(** The query of an address followed by what [urlencode] wrote is read
    back by [parse_qsl] as the items with a value. *)
Lemma parse_qsl_of_url (base : string) (query : list (string * string)) :
  plain_address base →
  parse_qsl (urlparse_query (base +:+ "?" +:+ urlencode query)) = read_back query.
Proof.
  intros Hbase.
  rewrite <-(string_of_list_ascii_of_string (urlencode query)).
  rewrite (urlparse_query_plain base _ Hbase (urlencode_plain query)).
  apply parse_qsl_urlencode.
Qed.

Section ReadsQuery.
Context `{Urllib}.

(** X1: on a redirect made of a plain address and a query that
    [urlencode] wrote, [extract_code_from_url] answers by what the query
    holds, unless [urlparse] refuses the URL: the first [code] that has a
    value, however the value had to be quoted; without one,
    [AuthorizationDenied] with the first [error] that has a value; without
    either, [MissingAuthorizationCode].  (Names and values are read as
    text: well-formed UTF-8 is read as it is, [as_text_valid].) *)
Theorem extract_code_from_url_reads_query (base : string)
    (query : list (string * string)) :
  plain_address base →
  extract_code_from_url (base +:+ "?" +:+ urlencode query)
  = match urlsplit_error (base +:+ "?" +:+ urlencode query) with
    | Some msg => Raise (ValueError msg)
    | None => redirect_outcome (read_back query)
    end.
Proof.
  intros Hbase. unfold extract_code_from_url, urlparse, redirect_outcome.
  destruct (urlsplit_error _) as [msg|]; [done|].
  cbv zeta. rewrite !parse_qs_lookup, (parse_qsl_of_url base query Hbase).
  destruct (values_of "code" _) as [|code codes]; [|done].
  by destruct (values_of "error" _).
Qed.
End ReadsQuery.

Lemma extract_code_from_url_reads_query_witness :
  plain_address "http://localhost:8888/callback"
  ∧ extract_code_from_url
      ("http://localhost:8888/callback" +:+ "?"
       +:+ urlencode [("state", "x y"); ("code", EmptyString); ("code", "AQ/x+y=&z")])
    = Ok "AQ/x+y=&z".
Proof.
  split; [by repeat constructor|].
  rewrite (extract_code_from_url_reads_query "http://localhost:8888/callback"
             [("state", "x y"); ("code", EmptyString); ("code", "AQ/x+y=&z")])
    by (by repeat constructor).
  reflexivity.
Defined.

(** X2: the URL [build_auth_url] builds is the authorization endpoint
    followed by a query that reads back as the client id, the response type
    [code], the redirect URI, the three scopes, [show_dialog=false] and the
    state, in this order; the redirect URI and the state are left out when
    they are empty.  Nothing in the world changes.  (Names and values are
    read as text: well-formed UTF-8 is read as it is, [as_text_valid].) *)
Theorem build_auth_url_query (state : option string) (w w' : world)
    (client_id client_secret redirect_uri : string) :
  get_client_credentials w = (Ok (client_id, client_secret, redirect_uri), w') →
  ∃ query,
    build_auth_url state w = (Ok (SPOTIFY_AUTH_URL +:+ "?" +:+ query), w')
    ∧ parse_qsl (urlparse_query (SPOTIFY_AUTH_URL +:+ "?" +:+ query))
      = read_back [("client_id", client_id); ("response_type", "code");
                   ("redirect_uri", redirect_uri);
                   ("scope", "user-top-read user-read-recently-played user-library-read");
                   ("show_dialog", "false"); ("state", default EmptyString state)].
Proof.
  intros Hcred. eexists. split.
  - unfold build_auth_url. rewrite (bind_Ok _ _ _ _ _ Hcred). reflexivity.
  - rewrite parse_qsl_of_url by (by repeat constructor).
    unfold read_back, nonblank. f_equal.
    destruct state as [[|c state]|]; cbn [nonempty negb String.eqb default].
    + rewrite !filter_cons. cbn [snd]. repeat case_decide; done.
    + reflexivity.
    + rewrite !filter_cons. cbn [snd]. repeat case_decide; done.
Qed.

Lemma build_auth_url_query_witness :
  ∃ query,
    build_auth_url (Some "xyz") (signed_in EmptyString t0)
    = (Ok (SPOTIFY_AUTH_URL +:+ "?" +:+ query), signed_in EmptyString t0)
    ∧ parse_qsl (urlparse_query (SPOTIFY_AUTH_URL +:+ "?" +:+ query))
      = [("client_id", "client-id"); ("response_type", "code");
         ("redirect_uri", "http://localhost:8888/callback");
         ("scope", "user-top-read user-read-recently-played user-library-read");
         ("show_dialog", "false"); ("state", "xyz")].
Proof.
  apply (build_auth_url_query (Some "xyz") (signed_in EmptyString t0)
           (signed_in EmptyString t0) "client-id" "client-secret"
           "http://localhost:8888/callback").
  reflexivity.
Defined.

(** The text of the URL, for the sample credentials. *)
Example build_auth_url_text :
  (build_auth_url None (signed_in EmptyString t0)).1 = Ok sample_auth_url.
Proof. reflexivity. Qed.

(** ** Directories and the token file *)

Lemma set_fs_id (w : world) : set_fs (λ _, w_fs w) w = w.
Proof. by destruct w. Qed.

(** What [os.makedirs] does to the file system: it only adds directories,
    those of [dirs] that were missing; it fails exactly when it meets a
    regular file. *)
Lemma make_each_spec (dirs : list string) :
  ∀ w, ∃ r fs',
    make_each dirs w = (r, set_fs (λ _, fs') w)
    ∧ (r = Ok tt ∨ r = Raise OSError)
    ∧ (∀ q n, w_fs w !! q = Some n → fs' !! q = Some n)
    ∧ (∀ q, q ∉ dirs → fs' !! q = w_fs w !! q)
    ∧ (r = Ok tt → ∀ d, d ∈ dirs → fs' !! d = Some Dir)
    ∧ ((∀ d content, d ∈ dirs → w_fs w !! d ≠ Some (File content)) → r = Ok tt).
Proof.
  induction dirs as [|d dirs IH]; intros w.
  - exists (Ok tt), (w_fs w). rewrite set_fs_id.
    repeat split; try done; auto. intros _ d Hd. by apply elem_of_nil in Hd.
  - cbn [make_each]. unfold bind at 1, gets at 1.
    destruct (w_fs w !! d) as [[|content]|] eqn:Hd.
    + destruct (IH w) as (r & fs' & Hrun & Hr & Hkeep & Hframe & Hdirs & Hok).
      exists r, fs'. split; [done|]. split; [done|]. split; [done|]. split; [|split].
      * intros q [_ Hq]%not_elem_of_cons. by apply Hframe.
      * intros Hr' d' [->|Hd']%elem_of_cons; [by apply Hkeep|by apply Hdirs].
      * intros Hfiles. apply Hok. intros d' content' Hd'. apply Hfiles.
        apply elem_of_cons. by right.
    + exists (Raise OSError), (w_fs w). rewrite set_fs_id.
      split; [done|]. split; [by right|]. split; [done|]. split; [done|].
      split; [done|]. intros Hfiles. exfalso.
      apply (Hfiles d content); [apply elem_of_cons; by left|done].
    + unfold bind at 1, modify at 1.
      destruct (IH (set_fs (insert d Dir) w))
        as (r & fs' & Hrun & Hr & Hkeep & Hframe & Hdirs & Hok).
      exists r, fs'. split; [by rewrite Hrun|]. split; [done|]. split; [|split; [|split]].
      * intros q n Hq. apply Hkeep. simpl. rewrite lookup_insert_ne; [done|].
        intros <-. by rewrite Hd in Hq.
      * intros q [Hne Hq]%not_elem_of_cons. rewrite Hframe by done. simpl.
        by apply lookup_insert_ne.
      * intros Hr' d' [->|Hd']%elem_of_cons; [|by apply Hdirs].
        apply Hkeep. simpl. apply lookup_insert_eq.
      * intros Hfiles. apply Hok. intros d' content' Hd'. simpl.
        rewrite lookup_insert. case_decide; [done|]. apply Hfiles.
        apply elem_of_cons. by right.
Qed.

(** Directories that are all there already are left as they are. *)
Lemma make_each_present (dirs : list string) (w : world) :
  (∀ d, d ∈ dirs → w_fs w !! d = Some Dir) → make_each dirs w = (Ok tt, w).
Proof.
  induction dirs as [|d dirs IH]; intros Hdirs; [done|].
  cbn [make_each]. unfold bind at 1, gets at 1.
  rewrite (Hdirs d) by (apply elem_of_cons; by left).
  apply IH. intros d' Hd'. apply Hdirs. apply elem_of_cons. by right.
Qed.

(** The names [os.makedirs] works on are no longer than the name it is
    given. *)
Lemma length_string_of_list_ascii (l : list ascii) :
  String.length (string_of_list_ascii l) = length l.
Proof. induction l as [|c l IH]; [done|]. simpl. by rewrite IH. Qed.

Lemma length_chars (s : string) : length (list_ascii_of_string s) = String.length s.
Proof. induction s as [|c s IH]; [done|]. simpl. by rewrite IH. Qed.

Lemma prefixes_at_slash_length (rest : list ascii) :
  ∀ seen_rev d,
    d ∈ prefixes_at_slash seen_rev rest →
    (String.length d < length seen_rev + length rest)%nat.
Proof.
  induction rest as [|c rest IH]; intros seen_rev d Hd.
  - by apply elem_of_nil in Hd.
  - cbn [prefixes_at_slash] in Hd. apply elem_of_app in Hd as [Hd|Hd].
    + destruct seen_rev as [|last seen_rev]; [by apply elem_of_nil in Hd|].
      destruct (is_slash c && negb (is_slash last)); [|by apply elem_of_nil in Hd].
      apply list_elem_of_singleton in Hd as ->.
      rewrite length_string_of_list_ascii, length_rev. simpl. lia.
    + apply IH in Hd. simpl in *. lia.
Qed.

Lemma ancestors_length (name d : string) :
  d ∈ ancestors name → (String.length d ≤ String.length name)%nat.
Proof.
  unfold ancestors. intros [Hd|Hd]%elem_of_app.
  - apply prefixes_at_slash_length in Hd. rewrite length_chars in Hd. simpl in Hd. lia.
  - destruct (is_root name); [by apply elem_of_nil in Hd|].
    by apply list_elem_of_singleton in Hd as ->.
Qed.

Lemma drop_while_length {A} (p : A → bool) (l : list A) :
  (length (drop_while p l) ≤ length l)%nat.
Proof. induction l as [|x l IH]; [done|]. simpl. destruct (p x); simpl; lia. Qed.

Lemma drop_while_all {A} (p : A → bool) (l : list A) :
  length (drop_while p l) = length l → drop_while p l = l.
Proof.
  destruct l as [|x l]; [done|]. simpl. destruct (p x); [|done].
  pose proof (drop_while_length p l). simpl. lia.
Qed.

Lemma drop_while_head {A} (p : A → bool) (l : list A) (x : A) (l' : list A) :
  drop_while p l = x :: l' → p x = false.
Proof.
  induction l as [|y l IH]; [done|]. simpl. destruct (p y) eqn:Hy; [done|].
  by intros [= <- _].
Qed.

(** The directory part of a path is shorter than the path, unless the
    path is empty or spells the root. *)
Lemma dirname_shorter (p : string) :
  p ≠ EmptyString → is_root p = false →
  (String.length (dirname p) < String.length p)%nat.
Proof.
  intros Hp Hroot. unfold dirname.
  set (head_rev := drop_while (λ c, negb (is_slash c)) (rev (list_ascii_of_string p))).
  assert (length head_rev ≤ String.length p)%nat as Hlen.
  { unfold head_rev. etrans; [apply drop_while_length|].
    by rewrite length_rev, length_chars. }
  destruct (forallb is_slash head_rev) eqn:Hall.
  - rewrite length_string_of_list_ascii.
    destruct (decide (length head_rev = String.length p)) as [Heq|]; [|lia].
    exfalso. unfold head_rev in Heq, Hall.
    rewrite <-length_chars, <-(length_rev (list_ascii_of_string p)) in Heq.
    apply drop_while_all in Heq. rewrite Heq in Hall.
    unfold is_root in Hroot. rewrite forallb_forall in Hall.
    assert (forallb is_slash (list_ascii_of_string p) = true) as Hslashes.
    { apply forallb_forall. intros c Hc. apply Hall. by apply in_rev in Hc. }
    rewrite Hslashes, andb_true_r in Hroot.
    apply negb_false_iff, String.eqb_eq in Hroot. done.
  - rewrite length_string_of_list_ascii, length_rev.
    destruct head_rev as [|c head_rev'] eqn:Hhead; [done|].
    apply drop_while_head in Hhead. apply negb_false_iff in Hhead.
    cbn [drop_while]. rewrite Hhead.
    pose proof (drop_while_length is_slash head_rev'). simpl in Hlen. lia.
Qed.

(** A path is none of the directories made for it. *)
Lemma path_not_ancestor (p : string) :
  dirname p ≠ EmptyString → is_root p = false → p ∉ ancestors (dirname p).
Proof.
  intros Hdir Hroot Hp. apply ancestors_length in Hp.
  assert (p ≠ EmptyString) as Hne by (by intros ->).
  pose proof (dirname_shorter p Hne Hroot). lia.
Qed.

Lemma ancestors_self (name : string) :
  is_root name = false → name ∈ ancestors name.
Proof.
  intros Hroot. unfold ancestors. rewrite Hroot.
  apply elem_of_app. right. by apply list_elem_of_singleton.
Qed.

Section TokenFile.
Context `{Json}.

(** X3: the three ways [save_tokens] fails, each with [OSError]: the
    path has no directory part ([os.makedirs] refuses the empty name, so a
    bare file name cannot be saved to); a directory on the way to the path
    exists as a regular file; the path itself is a directory. *)
Theorem save_tokens_fails (token_data : gmap string pyval) (filepath : string)
    (w : world) :
  dirname filepath = EmptyString
  ∨ (∃ d content, d ∈ ancestors (dirname filepath) ∧ w_fs w !! d = Some (File content))
  ∨ w_fs w !! filepath = Some Dir →
  ∃ w', save_tokens token_data filepath w = (Raise OSError, w')
        ∧ (dirname filepath = EmptyString → w' = w).
Proof.
  intros Hwhy. unfold save_tokens, bind at 1, os_makedirs.
  destruct (String.eqb_spec (dirname filepath) EmptyString) as [Hdir|Hdir].
  { by exists w. }
  destruct Hwhy as [Hbare|Hwhy]; [done|].
  destruct (make_each_spec (ancestors (dirname filepath)) w)
    as (r & fs' & Hrun & [-> | ->] & Hkeep & _ & Hdirs & _); rewrite Hrun.
  - destruct Hwhy as [(d & content & Hd & Hfile)|Hnode].
    + specialize (Hdirs eq_refl d Hd). apply Hkeep in Hfile. congruence.
    + unfold write_text, bind, gets. cbn [w_fs set_fs].
      rewrite (Hkeep _ _ Hnode). destruct (names_no_file filepath); by eexists.
  - by eexists.
Qed.


(** X5: [save_tokens] never removes or changes anything else: whatever
    was at another path stays there; and when it fails, whatever was at the
    path itself stays there too.  Only the file system changes. *)
Theorem save_tokens_keeps_other_files (token_data : gmap string pyval)
    (filepath : string) (w : world) :
  ∃ r fs',
    save_tokens token_data filepath w = (r, set_fs (λ _, fs') w)
    ∧ (∀ q n, w_fs w !! q = Some n → q ≠ filepath ∨ r ≠ Ok tt → fs' !! q = Some n).
Proof.
  unfold save_tokens, bind at 1, os_makedirs.
  destruct (String.eqb (dirname filepath) EmptyString).
  { exists (Raise OSError), (w_fs w). by rewrite set_fs_id. }
  destruct (make_each_spec (ancestors (dirname filepath)) w)
    as (r & fs' & Hrun & [-> | ->] & Hkeep & _).
  - rewrite Hrun. unfold write_text, bind, gets. cbn [w_fs set_fs].
    destruct (names_no_file filepath).
    { exists (Raise OSError), fs'. split; [done|]. auto. }
    destruct (fs' !! filepath) as [[|content]|] eqn:Hnode.
    + exists (Raise OSError), fs'. split; [done|]. auto.
    + destruct (_ || _).
      * eexists (Ok tt), _. split; [reflexivity|].
        intros q n Hq [Hne|Hr]; [|done]. rewrite lookup_insert_ne by done. auto.
      * exists (Raise OSError), fs'. split; [done|]. auto.
    + destruct (_ || _).
      * eexists (Ok tt), _. split; [reflexivity|].
        intros q n Hq [Hne|Hr]; [|done]. rewrite lookup_insert_ne by done. auto.
      * exists (Raise OSError), fs'. split; [done|]. auto.
  - rewrite Hrun. exists (Raise OSError), fs'. split; [done|]. auto.
Qed.

(** X6: saving the same record again changes nothing. *)
Theorem save_tokens_idempotent (token_data : gmap string pyval) (filepath : string)
    (w w' : world) :
  is_root filepath = false →
  save_tokens token_data filepath w = (Ok tt, w') →
  save_tokens token_data filepath w' = (Ok tt, w').
Proof.
  intros Hroot Hsave.
  unfold save_tokens, bind, os_makedirs in Hsave |- *.
  destruct (String.eqb (dirname filepath) EmptyString) eqn:Hdir; [done|].
  apply String.eqb_neq in Hdir.
  destruct (make_each_spec (ancestors (dirname filepath)) w)
    as (r & fs' & Hrun & _ & _ & _ & Hdirs & _).
  rewrite Hrun in Hsave. destruct r as [[]| |]; try done. specialize (Hdirs eq_refl).
  assert (names_no_file filepath = false) as Hname.
  { revert Hsave. unfold write_text, bind, gets, raise.
    by destruct (names_no_file filepath). }
  apply write_text_Ok in Hsave. subst w'.
  pose proof (path_not_ancestor filepath Hdir Hroot) as Hnot.
  rewrite make_each_present; cycle 1.
  { intros d Hd. simpl. rewrite lookup_insert_ne; [by apply Hdirs|]. by intros <-. }
  unfold write_text, bind, gets, modify. cbn [w_fs set_fs].
  rewrite Hname, lookup_insert_eq.
  assert (is_dir (<[filepath:=File (json_dumps (VDict token_data))]> fs')
                 (dirname filepath) = true) as ->.
  { unfold is_dir. destruct (is_root (dirname filepath)) eqn:Hr; [done|].
    rewrite lookup_insert_ne
      by (intros Heq; apply Hnot; rewrite Heq at 1; by apply ancestors_self).
    by rewrite (Hdirs _ (ancestors_self _ Hr)). }
  rewrite orb_true_r. unfold set_fs. simpl. by rewrite insert_insert_eq.
Qed.
End TokenFile.

Lemma save_tokens_fails_witness :
  save_tokens (stored_token (t0 + 3600)) "token.json" (bare_world t0)
  = (Raise OSError, bare_world t0).
Proof.
  destruct (save_tokens_fails (stored_token (t0 + 3600)) "token.json" (bare_world t0))
    as (w' & Hrun & Hsame).
  - left. reflexivity.
  - rewrite Hrun. f_equal. by apply Hsame.
Defined.


(** A path that ends in a slash, or in [.] or [..], names a directory:
    the directories are made, and the write fails. *)
Example save_tokens_to_directory_name :
  (λ p, (save_tokens (stored_token (t0 + 3600)) p (bare_world t0)).1)
    <$> ["data/"; "data/."; "data/.."]
  = [Raise OSError; Raise OSError; Raise OSError].
Proof. reflexivity. Qed.

Lemma save_tokens_idempotent_witness :
  save_tokens (stored_token (t0 + 3600)) TOKEN_FILE
    (save_tokens (stored_token (t0 + 3600)) TOKEN_FILE (bare_world t0)).2
  = (Ok tt, (save_tokens (stored_token (t0 + 3600)) TOKEN_FILE (bare_world t0)).2).
Proof.
  apply (save_tokens_idempotent (stored_token (t0 + 3600)) TOKEN_FILE (bare_world t0)).
  - reflexivity.
  - vm_compute. reflexivity.
Defined.

(** ** Token requests *)

(** Neither token request touches the file system. *)
Lemma requests_post_fs (req : post_request) (w : world) :
  w_fs (requests_post req w).2 = w_fs w.
Proof. unfold requests_post. by destruct (w_endpoint w (w_io w) req). Qed.

Lemma refresh_access_token_fs (refresh_token : pyval) (w : world) :
  w_fs (refresh_access_token refresh_token w).2 = w_fs w.
Proof.
  unfold refresh_access_token, bind at 1.
  pose proof (get_client_credentials_pure w) as Hpure.
  destruct (get_client_credentials w) as [[[[client_id client_secret] ?]| |] w1];
    simpl in Hpure; subst w1; try done.
  unfold bind at 1.
  pose proof (requests_post_fs (refresh_request refresh_token client_id client_secret) w)
    as Hpost.
  destruct (requests_post _ w) as [[r| |] w1]; simpl in Hpost; try done.
  unfold bind at 1, raise_for_status. destruct (_ && _); [done|].
  unfold ret at 1, bind at 1, response_json.
  destruct (resp_json r) as [msg|[]]; try done.
  unfold ret at 1, bind, time_time.
  by destruct (as_number _).
Qed.

Lemma is_token_expired_fs (token_data : pyval) (w : world) :
  w_fs (is_token_expired token_data w).2 = w_fs w.
Proof.
  unfold is_token_expired, bind, dict_get, time_time.
  destruct token_data; try done. unfold ret at 1. by destruct (as_number _).
Qed.

(** X7: on a successful exchange [exchange_code_for_token] posts the
    authorization-code form once, with the client's credentials, and
    returns the provider's record with [expires_at] set to the clock's
    reading plus [expires_in] (3600 when the provider gives none); it adds
    nothing else to the record. *)
Theorem exchange_code_for_token_record (auth_code : string) (w : world)
    (client_id client_secret redirect_uri : string) (r : response)
    (body : gmap string pyval) (expires_in : Q) :
  get_client_credentials w = (Ok (client_id, client_secret, redirect_uri), w) →
  w_endpoint w (w_io w) (exchange_request auth_code client_id client_secret redirect_uri)
    = PostReturns r →
  resp_status r < 400 ∨ 600 ≤ resp_status r →
  resp_json r = inr (VDict body) →
  as_number (default (VInt 3600) (body !! "expires_in")) = Some expires_in →
  exchange_code_for_token auth_code w
  = (Ok (<["expires_at" := VFloat (w_clock w (S (w_io w)) + expires_in)]> body),
     tick (tick (log_post
                   (exchange_request auth_code client_id client_secret redirect_uri) w))).
Proof.
  intros Hcred Hpost Hstatus Hjson Hexp.
  unfold exchange_code_for_token.
  rewrite (bind_Ok _ _ _ _ _ Hcred). cbv beta iota.
  unfold bind at 1, requests_post. rewrite Hpost.
  unfold bind at 1, raise_for_status.
  replace ((400 <=? resp_status r) && (resp_status r <? 600)) with false
    by (symmetry; apply andb_false_iff; lia).
  unfold ret at 1, bind at 1, response_json. rewrite Hjson.
  unfold ret at 1, bind, time_time. by rewrite Hexp.
Qed.

Lemma exchange_code_for_token_record_witness :
  (exchange_code_for_token "AQB-code" (c_world (at_keyboard EmptyString t0))).1
  = Ok (<["expires_at" := VFloat (t0 + inject_Z 3600)]> granted_body).
Proof.
  by rewrite (exchange_code_for_token_record "AQB-code" (c_world (at_keyboard EmptyString t0))
                "client-id" "client-secret" "http://localhost:8888/callback"
                (Response 200 EmptyString (inr (VDict granted_body))) granted_body
                (inject_Z 3600) eq_refl eq_refl (or_introl eq_refl) eq_refl eq_refl).
Defined.

(** X8: when the provider answers a token request with an error status,
    [refresh_access_token] raises the [RequestException] of
    [raise_for_status]; the request has been posted once, the answer is not
    looked at, and the clock is not read. *)
Theorem refresh_access_token_http_error (refresh_token : pyval) (w : world)
    (client_id client_secret redirect_uri : string) (r : response) :
  get_client_credentials w = (Ok (client_id, client_secret, redirect_uri), w) →
  w_endpoint w (w_io w) (refresh_request refresh_token client_id client_secret)
    = PostReturns r →
  400 ≤ resp_status r < 600 →
  refresh_access_token refresh_token w
  = (Raise (RequestException (resp_error r)),
     tick (log_post (refresh_request refresh_token client_id client_secret) w)).
Proof.
  intros Hcred Hpost Hstatus.
  unfold refresh_access_token.
  rewrite (bind_Ok _ _ _ _ _ Hcred). cbv beta iota.
  unfold bind at 1, requests_post. rewrite Hpost.
  unfold bind at 1, raise_for_status.
  by replace ((400 <=? resp_status r) && (resp_status r <? 600)) with true
    by (symmetry; apply andb_true_iff; lia).
Qed.

Lemma refresh_access_token_http_error_witness :
  (refresh_access_token (VStr "AQC-refresh") (signed_in_with invalid_grant stale_file t0)).1
  = Raise (RequestException
             "400 Client Error: Bad Request for url: https://accounts.spotify.com/api/token").
Proof.
  by rewrite (refresh_access_token_http_error (VStr "AQC-refresh")
                (signed_in_with invalid_grant stale_file t0)
                "client-id" "client-secret" "http://localhost:8888/callback"
                (Response 400 "400 Client Error: Bad Request for url: https://accounts.spotify.com/api/token"
                          (inr (VDict {[ "error" := VStr "invalid_grant" ]})))
                eq_refl eq_refl ltac:(simpl; lia)).
Defined.

(** ** The validity gate, continued *)

(** X9: a record without [expires_at] counts as expired at every instant
    from 60 seconds before the epoch on: the missing instant is read as
    0. *)
Theorem is_token_expired_without_expiry (d : gmap string pyval) (w : world) :
  d !! "expires_at" = None →
  (- 60 <= w_clock w (w_io w))%Q →
  is_token_expired (VDict d) w = (Ok true, tick w).
Proof.
  intros Hd Hnow. unfold is_token_expired, dict_get, bind, ret, time_time.
  rewrite Hd. cbn [default as_number].
  replace (Qle_bool (inject_Z 0 - 60) (w_clock w (w_io w))) with true; [done|].
  symmetry. apply Qle_bool_iff. change (inject_Z 0) with 0%Q. lra.
Qed.

Lemma is_token_expired_without_expiry_witness :
  is_token_expired (VDict (delete "expires_at" (stored_token t0))) (bare_world t0)
  = (Ok true, tick (bare_world t0)).
Proof.
  apply (is_token_expired_without_expiry (delete "expires_at" (stored_token t0))
           (bare_world t0)).
  - reflexivity.
  - vm_compute. discriminate.
Defined.

Section GateFailures.
Context `{Json}.

(** X10: when the refresh meets a [RequestException] (the provider
    unreachable, or answering with an error status), [get_valid_token]
    raises [TokenRefreshError] with the text of that exception, and the
    token file is left as it was. *)
Theorem get_valid_token_refresh_failure (w w1 w2 w3 : world) (d : gmap string pyval)
    (refresh_token : pyval) (msg : string) :
  load_tokens TOKEN_FILE w = (Ok (VDict d), w1) → d ≠ ∅ →
  is_token_expired (VDict d) w1 = (Ok true, w2) →
  d !! "refresh_token" = Some refresh_token →
  refresh_access_token refresh_token w2 = (Raise (RequestException msg), w3) →
  get_valid_token w = (Raise (TokenRefreshError msg), w3)
  ∧ w_fs w3 = w_fs w.
Proof.
  intros Hload Hd Hexp Hrt Hrefresh. split.
  - unfold get_valid_token.
    rewrite (bind_Ok _ _ _ _ _ Hload), (truthy_dict _ Hd). cbn [negb].
    rewrite (bind_Ok _ _ _ _ _ Hexp). cbv beta iota.
    unfold bind at 1, bind at 1, dict_contains, ret at 1. rewrite Hrt.
    rewrite bool_decide_true by eauto. cbn [negb].
    erewrite try_except_caught; cycle 1.
    + unfold bind at 1, dict_item, ret at 1. rewrite Hrt.
      unfold bind. by rewrite Hrefresh.
    + reflexivity.
    + reflexivity.
  - pose proof (refresh_access_token_fs refresh_token w2) as H3.
    pose proof (is_token_expired_fs (VDict d) w1) as H2.
    pose proof (load_tokens_pure TOKEN_FILE w) as H1.
    rewrite Hrefresh in H3. rewrite Hexp in H2. rewrite Hload in H1.
    simpl in *. congruence.
Qed.
End GateFailures.

Lemma get_valid_token_refresh_failure_witness :
  (get_valid_token (signed_in_with invalid_grant stale_file t0)).1
  = Raise (TokenRefreshError
             "400 Client Error: Bad Request for url: https://accounts.spotify.com/api/token")
  ∧ w_fs (get_valid_token (signed_in_with invalid_grant stale_file t0)).2
    = token_fs stale_file.
Proof.
  destruct (get_valid_token_refresh_failure
              (signed_in_with invalid_grant stale_file t0)
              (signed_in_with invalid_grant stale_file t0)
              (tick (signed_in_with invalid_grant stale_file t0))
              (refresh_access_token (VStr "AQC-refresh")
                 (tick (signed_in_with invalid_grant stale_file t0))).2
              (stored_token (t0 + 30)) (VStr "AQC-refresh")
              "400 Client Error: Bad Request for url: https://accounts.spotify.com/api/token")
    as [Hrun Hfs].
  - vm_compute. reflexivity.
  - done.
  - vm_compute. reflexivity.
  - reflexivity.
  - vm_compute. reflexivity.
  - rewrite Hrun. split; [reflexivity|exact Hfs].
Defined.

Section ServesSaved.
Context `{Json}.

(** X11: what [save_tokens] has stored is what [get_valid_token] serves:
    after a record with an access token, which [json] reads back, has been
    saved to the token file, and as long as the clock stays more than 60
    seconds before the record's [expires_at], [get_valid_token] returns
    that access token; it reads the clock once, posts nothing and writes
    nothing. *)
Theorem get_valid_token_serves_saved (token_data : gmap string pyval) (w w' : world)
    (access_token v : pyval) (expires_at : Q) :
  json_reads_back (VDict token_data) →
  save_tokens token_data TOKEN_FILE w = (Ok tt, w') →
  token_data !! "access_token" = Some access_token →
  token_data !! "expires_at" = Some v →
  as_number v = Some expires_at →
  (w_clock w' (w_io w') + 60 < expires_at)%Q →
  get_valid_token w' = (Ok access_token, tick w').
Proof.
  intros [Hutf Hjson] Hsave Htok Hv He Hfresh.
  assert (load_tokens TOKEN_FILE w' = (Ok (VDict token_data), w')) as Hload.
  { rewrite (load_after_save token_data TOKEN_FILE w w' Hsave Hutf). by rewrite Hjson. }
  assert (token_data ≠ ∅) as Hne by (intros ->; by rewrite lookup_empty in Htok).
  pose proof (is_token_expired_run token_data v expires_at w' Hv He) as Hexp.
  rewrite (proj2 (beyond_margin _ _) Hfresh) in Hexp.
  unfold get_valid_token.
  rewrite (bind_Ok _ _ _ _ _ Hload), (truthy_dict _ Hne). cbn [negb].
  rewrite (bind_Ok _ _ _ _ _ Hexp). cbv beta iota.
  unfold bind at 1, ret at 1, dict_item, ret. by rewrite Htok.
Qed.
End ServesSaved.

Lemma get_valid_token_serves_saved_witness :
  get_valid_token (save_tokens (stored_token (t0 + 3600)) TOKEN_FILE (bare_world t0)).2
  = (Ok (VStr "BQD-stored"),
     tick (save_tokens (stored_token (t0 + 3600)) TOKEN_FILE (bare_world t0)).2).
Proof.
  apply (get_valid_token_serves_saved (stored_token (t0 + 3600)) (bare_world t0) _
           (VStr "BQD-stored") (VFloat (t0 + 3600)) (t0 + 3600)).
  - split; vm_compute; reflexivity.
  - vm_compute. reflexivity.
  - reflexivity.
  - reflexivity.
  - reflexivity.
  - vm_compute. reflexivity.
Defined.

(** ** The interactive flow *)

Lemma build_auth_url_pure (state : option string) (w : world) :
  (build_auth_url state w).2 = w.
Proof.
  unfold build_auth_url, bind.
  pose proof (get_client_credentials_pure w) as Hpure.
  by destruct (get_client_credentials w) as [[[[client_id ?] ?]| |] w1].
Qed.

Lemma set_world_id (c : console) : set_world (c_world c) c = c.
Proof. by destruct c. Qed.

Lemma at_console_build_auth_url (c : console) :
  at_console (build_auth_url None) c = ((build_auth_url None (c_world c)).1, c).
Proof.
  unfold at_console. pose proof (build_auth_url_pure None (c_world c)) as Hpure.
  destruct (build_auth_url None (c_world c)) as [r w1]. simpl in *. subst w1.
  by rewrite set_world_id.
Qed.

Section Interactive.
Context `{Json} `{Urllib}.


(** X12: without credentials [authenticate] fails with the
    [ConfigurationError] before anything is shown or asked: no page is
    opened and no line is read. *)
Theorem authenticate_unconfigured (interactive : bool) (c : console) (e : exn)
    (w1 : world) :
  get_client_credentials (c_world c) = (Raise e, w1) →
  authenticate interactive c = (Raise e, c).
Proof.
  intros Hcred. unfold authenticate, bind at 1.
  rewrite at_console_build_auth_url.
  unfold build_auth_url, bind. by rewrite Hcred.
Qed.


End Interactive.

Lemma authenticate_unconfigured_witness :
  authenticate true (Console (bare_world t0) ["http://localhost:8888/callback?code=x"] [])
  = (Raise ConfigurationError,
     Console (bare_world t0) ["http://localhost:8888/callback?code=x"] []).
Proof.
  apply (authenticate_unconfigured true
           (Console (bare_world t0) ["http://localhost:8888/callback?code=x"] [])
           ConfigurationError (bare_world t0)).
  reflexivity.
Defined.



(** The whole flow on the sample machine: the user pastes the redirect
    with blanks around it, and the token first handed out is then served by
    [get_valid_token]. *)
Example authenticate_then_get_valid_token :
  let run := authenticate true
               (at_keyboard "  http://localhost:8888/callback?code=AQB-code&state=x " t0) in
  (get_valid_token (c_world run.2)).1 = Ok (VStr "BQD-first")
  ∧ c_opened run.2 = [sample_auth_url].
Proof. vm_compute. split; reflexivity. Qed.

(** [strip] removes the blanks of [str.isspace] from both ends, and only
    there. *)
Example strip_blanks :
  strip (String "009" (String "194" (String "160" " a b "
         +:+ String "226" (String "128" (String "168" (String "031" EmptyString))))))
  = "a b".
Proof. reflexivity. Qed.

(** ** The cached client *)

Lemma lift_auth_run {A} (m : M world A) (w : api_world) :
  lift_auth m w = ((m (aw_auth w)).1, set_auth (m (aw_auth w)).2 w).
Proof. unfold lift_auth. by destruct (m (aw_auth w)). Qed.

Section Client.
Context `{Json}.

(** X15: [_get_client] keeps the cache coherent and talks to no API: when
    it returns a client, that client is the cached one and carries the
    cached access token; this token is the one [get_valid_token] has just
    returned (the very value for a client made anew, one equal to it for a
    client kept); and no request has been made and no pause taken. *)
Theorem get_client_coherent (w w' : api_world) (client : spotipy) :
  cache_coherent w →
  _get_client w = (Ok client, w') →
  aw_client w' = Some client
  ∧ auth client = aw_access_token w'
  ∧ aw_calls w' = aw_calls w
  ∧ aw_log w' = aw_log w
  ∧ ∃ a token,
      get_valid_token a = (Ok token, aw_auth w')
      ∧ (auth client = token ∨ py_eq (auth client) token = true).
Proof.
  intros Hcache. unfold _get_client, bind at 1, gets at 1.
  assert (∀ w0 : api_world,
            aw_calls w0 = aw_calls w → aw_log w0 = aw_log w →
            (let* token := lift_auth get_valid_token in
             modify (set_access_token token) ;;
             lift_auth get_client_credentials ;;
             modify (set_client (Spotify token)) ;;
             ret (Spotify token)) w0 = (Ok client, w') →
            aw_client w' = Some client ∧ auth client = aw_access_token w'
            ∧ aw_calls w' = aw_calls w ∧ aw_log w' = aw_log w
            ∧ ∃ a token,
                get_valid_token a = (Ok token, aw_auth w')
                ∧ (auth client = token ∨ py_eq (auth client) token = true)) as Hrebuild.
  { intros w0 Hcalls Hlog. unfold bind at 1. rewrite lift_auth_run.
    destruct (get_valid_token (aw_auth w0)) as [[token| |] a1] eqn:Hvalid; try done.
    cbn [fst snd]. unfold bind at 1, modify at 1, bind at 1. rewrite lift_auth_run.
    pose proof (get_client_credentials_pure
                  (aw_auth (set_access_token token (set_auth a1 w0)))) as Hpure.
    destruct (get_client_credentials _) as [[creds| |] a2]; try done.
    cbn [fst snd]. unfold bind, modify, ret. intros [= <- <-].
    cbn [snd aw_auth set_access_token set_auth] in Hpure. subst a2. simpl.
    repeat split; try done. exists (aw_auth w0), token. split; [done|by left]. }
  destruct (aw_client w) as [cached|] eqn:Hclient.
  - unfold bind at 1, bind at 1, gets at 1, bind at 1. rewrite lift_auth_run.
    destruct (get_valid_token (aw_auth w)) as [[valid| |] a1] eqn:Hvalid; try done.
    cbn [fst snd]. unfold ret at 1.
    destruct (py_eq (aw_access_token w) valid) eqn:Hsame; cbn [negb].
    + unfold ret. intros [= <- <-]. simpl.
      rewrite (Hcache cached Hclient). repeat split; try done.
      exists (aw_auth w), valid. split; [done|by right].
    + by apply Hrebuild.
  - unfold bind at 1, ret at 1. by apply Hrebuild.
Qed.

(** When no valid token is to be had, no client is. *)
Lemma get_client_raises (w : api_world) (e : exn) (a : world) :
  get_valid_token (aw_auth w) = (Raise e, a) →
  _get_client w = (Raise e, set_auth a w).
Proof.
  intros Hvalid. unfold _get_client, bind at 1, gets at 1.
  destruct (aw_client w).
  - unfold bind at 1, bind at 1, gets at 1, bind at 1.
    by rewrite lift_auth_run, Hvalid.
  - unfold bind at 1, ret at 1, bind at 1. by rewrite lift_auth_run, Hvalid.
Qed.

(** X16: without a valid token every method of the client fails with the
    error of [get_valid_token], and none makes a request. *)
Theorem client_methods_need_token
    (current_user_top_artists : spotipy → string → Z → M api_world page)
    (current_user_recently_played : spotipy → Z → M api_world page)
    (track : spotipy → string → M api_world pyval)
    (w : api_world) (e : exn) (a : world) :
  get_valid_token (aw_auth w) = (Raise e, a) →
  (∀ fuel time_range limit,
     get_top_tracks fuel time_range limit w = (Raise e, set_auth a w))
  ∧ (∀ fuel time_range limit,
       get_top_artists current_user_top_artists fuel time_range limit w
       = (Raise e, set_auth a w))
  ∧ (∀ track_ids, get_audio_features_for_tracks track_ids w = (Raise e, set_auth a w))
  ∧ (∀ limit,
       get_recently_played current_user_recently_played limit w = (Raise e, set_auth a w))
  ∧ (∀ track_id, get_track_info track track_id w = (Raise e, set_auth a w)).
Proof.
  intros Hvalid. apply get_client_raises in Hvalid.
  repeat split; intros;
    unfold get_top_tracks, get_top_artists, get_audio_features_for_tracks,
      get_recently_played, get_track_info, bind;
    by rewrite Hvalid.
Qed.
End Client.

Lemma get_client_coherent_witness :
  aw_client (_get_client (fresh_client (signed_in fresh_file t0) no_pages no_features)).2
  = Some (Spotify (VStr "BQD-stored"))
  ∧ aw_calls (_get_client (fresh_client (signed_in fresh_file t0) no_pages no_features)).2
    = 0%nat.
Proof.
  destruct (get_client_coherent
              (fresh_client (signed_in fresh_file t0) no_pages no_features)
              (_get_client (fresh_client (signed_in fresh_file t0) no_pages no_features)).2
              (Spotify (VStr "BQD-stored")))
    as (Hclient & _ & Hcalls & _).
  - intros client. discriminate.
  - vm_compute. reflexivity.
  - split; [exact Hclient|exact Hcalls].
Defined.

Lemma client_methods_need_token_witness :
  (get_top_tracks 5 "medium_term" 50
     (fresh_client (bare_world t0) no_pages no_features)).1 = Raise NoTokenError
  ∧ (get_audio_features_for_tracks sample_ids
       (fresh_client (bare_world t0) no_pages no_features)).1 = Raise NoTokenError.
Proof.
  destruct (client_methods_need_token
              (λ client time_range limit, call_pages client (Next time_range))
              (λ client limit, call_pages client (Next EmptyString))
              (λ client track_id, ret VNone)
              (fresh_client (bare_world t0) no_pages no_features)
              NoTokenError (bare_world t0))
    as (Htracks & _ & Hfeatures & _).
  - reflexivity.
  - by rewrite Htracks, Hfeatures.
Defined.

(** ** Retrying, continued *)

Lemma range_first (n : Z) : 1 ≤ n → ∃ rest, range n = 0 :: rest.
Proof.
  intros Hn. unfold range.
  destruct (Z.to_nat n) as [|m] eqn:Hm; [lia|]. by eexists.
Qed.

Lemma range_second (n : Z) : 2 ≤ n → ∃ rest, range n = 0 :: 1 :: rest.
Proof.
  intros Hn. unfold range.
  destruct (Z.to_nat n) as [|[|m]] eqn:Hm; [lia..|]. by eexists.
Qed.

(** X17: with a cap of zero or less [_retry_request] makes no attempt at
    all: it raises [Exception("Max retries exceeded")] and the function is
    never run. *)
Theorem retry_request_no_attempt {A} (func : M api_world A) (max_retries : Z) (delay : Q)
    (w : api_world) :
  max_retries ≤ 0 →
  _retry_request func max_retries delay w = (Raise (Exception "Max retries exceeded"), w).
Proof.
  intros Hcap. unfold _retry_request, range.
  by replace (Z.to_nat max_retries) with 0%nat by lia.
Qed.

Lemma retry_request_no_attempt_witness :
  _retry_request always_503 0 1 (fresh_client (bare_world t0) no_pages no_features)
  = (Raise (Exception "Max retries exceeded"),
     fresh_client (bare_world t0) no_pages no_features).
Proof.
  apply (retry_request_no_attempt always_503 0 1
           (fresh_client (bare_world t0) no_pages no_features)).
  lia.
Defined.

(** X18: an HTTP error that is neither a rate limit nor a server error (a
    status below 500 other than 429: 401, 403, 404, ...) is not retried:
    [_retry_request] raises it from the first attempt, without a pause. *)
Theorem retry_request_client_error {A} (func : M api_world A) (max_retries : Z)
    (delay : Q) (w w' : api_world) (status : Z) (headers : option (gmap string string)) :
  1 ≤ max_retries →
  func w = (Raise (SpotifyException status headers), w') →
  status < 500 → status ≠ 429 →
  _retry_request func max_retries delay w = (Raise (SpotifyException status headers), w').
Proof.
  intros Hcap Hfunc Hstatus Hrate. unfold _retry_request.
  destruct (range_first max_retries Hcap) as [rest ->]. cbn [retry_loop].
  rewrite (try_except_caught _ _ _ _ _ _ Hfunc eq_refl).
  replace (status =? 429) with false by (symmetry; apply Z.eqb_neq; lia).
  by replace (500 <=? status) with false by (symmetry; apply Z.leb_gt; lia).
Qed.

Lemma retry_request_client_error_witness :
  _retry_request (call_pages (Spotify (VStr "BQD-stored")) (Next "https://api.spotify.com/x"))
    3 1 (fresh_client (bare_world t0) no_pages no_features)
  = (Raise (SpotifyException 404 None),
     advance 1 [ApiCall (VStr "BQD-stored") (Next "https://api.spotify.com/x")]
       (fresh_client (bare_world t0) no_pages no_features)).
Proof.
  apply (retry_request_client_error
           (call_pages (Spotify (VStr "BQD-stored")) (Next "https://api.spotify.com/x"))
           3 1 (fresh_client (bare_world t0) no_pages no_features)).
  - lia.
  - reflexivity.
  - lia.
  - lia.
Defined.

(** X19: a rate-limited attempt that is not the last is followed by a
    pause of as many seconds as the [Retry-After] header says (not by the
    exponential backoff), and then by the next attempt, whose answer is
    returned. *)
Theorem retry_request_rate_limited {A} (func : M api_world A) (max_retries : Z)
    (delay : Q) (w w1 w2 : api_world) (headers : gmap string string)
    (hint : string) (seconds : Z) (a : A) :
  2 ≤ max_retries →
  func w = (Raise (SpotifyException 429 (Some headers)), w1) →
  headers !! "retry-after" = Some hint →
  int_of_string hint = Some seconds →
  0 ≤ seconds →
  func (log_event (Sleep (inject_Z seconds)) w1) = (Ok a, w2) →
  _retry_request func max_retries delay w = (Ok a, w2).
Proof.
  intros Hcap Hfunc Hhint Hint Hseconds Hnext. unfold _retry_request.
  destruct (range_second max_retries Hcap) as [rest ->]. cbn [retry_loop].
  rewrite (try_except_caught _ _ _ _ _ _ Hfunc eq_refl).
  change (429 =? 429) with true. cbv iota.
  unfold bind at 1, retry_after_of. rewrite Hhint, Hint. unfold ret at 1.
  replace (0 <? max_retries - 1) with true by (symmetry; apply Z.ltb_lt; lia).
  rewrite (bind_Ok _ _ _ _ _ (time_sleep_Ok (inject_Z seconds) w1
                                 ltac:(by change 0%Q with (inject_Z 0); rewrite <-Zle_Qle))).
  by rewrite (try_except_Ok _ _ _ _ _ _ Hnext).
Qed.

Lemma retry_request_rate_limited_witness :
  ∃ w2,
    _retry_request (audio_features (Spotify (VStr "BQD-stored")) ["a"]) 3 1
      (fresh_client (bare_world t0) no_pages hinted_once)
    = (Ok [feature_of "a"], w2)
    ∧ sleeps (aw_log w2) = [inject_Z 7].
Proof.
  eexists. split.
  - eapply (retry_request_rate_limited
              (audio_features (Spotify (VStr "BQD-stored")) ["a"]) 3 1
              (fresh_client (bare_world t0) no_pages hinted_once) _ _
              {[ "retry-after" := "7" ]} "7" 7 [feature_of "a"]).
    + lia.
    + reflexivity.
    + reflexivity.
    + reflexivity.
    + lia.
    + reflexivity.
  - reflexivity.
Defined.

(** What [int] reads is made of the characters it reads. *)
Lemma Forall_drop_while {A} (p : A → bool) (Q : A → Prop) (l : list A) :
  (∀ x, p x = true → Q x) → Forall Q (drop_while p l) → Forall Q l.
Proof.
  intros Hp. induction l as [|x l IH]; [done|]. cbn [drop_while].
  destruct (p x) eqn:Hx; [|done]. intros Hl. constructor; [by apply Hp|by apply IH].
Qed.

Lemma Forall_of_rev {A} (Q : A → Prop) (l : list A) : Forall Q (rev l) → Forall Q l.
Proof.
  intros Hl. rewrite <-(rev_involutive l). by apply List.Forall_rev.
Qed.

Lemma digits_value_chars (s : list ascii) :
  ∀ acc after_digit n,
    digits_value acc after_digit s = Some n → Forall (λ c, literal_char c = true) s.
Proof.
  induction s as [|c s IH]; intros acc after_digit n; [constructor|].
  cbn [digits_value].
  destruct (is_char "_" c) eqn:Hc.
  - destruct after_digit; [|done]. intros Hs. constructor; [|by eapply IH].
    cbv beta. unfold literal_char. by rewrite Hc, orb_true_r.
  - destruct (digit_value c) as [d|] eqn:Hd; [|done]. intros Hs.
    constructor; [|by eapply IH].
    cbv beta. unfold literal_char. by rewrite Hd, bool_decide_true.
Qed.

Lemma int_of_string_chars (s : string) (n : Z) :
  int_of_string s = Some n → Forall (λ c, literal_char c = true) (list_ascii_of_string s).
Proof.
  unfold int_of_string. cbv zeta. intros Hn.
  assert (∀ x, is_blank x = true → literal_char x = true) as Hblank.
  { intros x Hx. unfold literal_char. by rewrite Hx, orb_true_r. }
  apply (Forall_drop_while is_blank _ _ Hblank), Forall_of_rev.
  apply (Forall_drop_while is_blank _ _ Hblank), Forall_of_rev.
  destruct (rev (drop_while is_blank (rev (drop_while is_blank (list_ascii_of_string s)))))
    as [|c ds]; [done|].
  destruct (is_char "-" c) eqn:Hminus; [|destruct (is_char "+" c) eqn:Hplus].
  - destruct (digits_value 0 false ds) as [m|] eqn:Hds; [|done].
    constructor; [|by eapply digits_value_chars].
    cbv beta. unfold literal_char. by rewrite Hminus, orb_true_r.
  - constructor; [|by eapply digits_value_chars].
    cbv beta. unfold literal_char. by rewrite Hplus, orb_true_r.
  - by eapply digits_value_chars.
Qed.

Lemma no_integer_unread (s : string) : no_integer s → int_of_string s = None.
Proof.
  intros Hs. destruct (int_of_string s) as [n|] eqn:Hn; [|done].
  apply int_of_string_chars in Hn. apply Exists_exists in Hs as (c & Hc & Hno).
  rewrite Forall_forall in Hn. by rewrite (Hn c Hc) in Hno.
Qed.

(** X20: a rate-limited answer whose [Retry-After] is no integer, such as
    an HTTP date, ends the retries on the spot: the [ValueError] of [int] is
    raised in place of the rate limit, and there is neither a pause nor a
    second attempt. *)
Theorem retry_request_unreadable_hint {A} (func : M api_world A) (max_retries : Z)
    (delay : Q) (w w' : api_world) (headers : gmap string string) (hint : string) :
  1 ≤ max_retries →
  func w = (Raise (SpotifyException 429 (Some headers)), w') →
  headers !! "retry-after" = Some hint →
  no_integer hint →
  ∃ msg, _retry_request func max_retries delay w = (Raise (ValueError msg), w').
Proof.
  intros Hcap Hfunc Hhint Hint%no_integer_unread. unfold _retry_request.
  destruct (range_first max_retries Hcap) as [rest ->]. cbn [retry_loop].
  rewrite (try_except_caught _ _ _ _ _ _ Hfunc eq_refl).
  change (429 =? 429) with true. cbv iota. eexists.
  unfold bind, retry_after_of. by rewrite Hhint, Hint.
Qed.

Lemma retry_request_unreadable_hint_witness :
  ∃ msg,
    _retry_request (audio_features (Spotify (VStr "BQD-stored")) ["a"]) 3 1
      (fresh_client (bare_world t0) no_pages hinted_by_date)
    = (Raise (ValueError msg),
       advance 1 [ApiCall (VStr "BQD-stored") (AudioFeatures ["a"])]
         (fresh_client (bare_world t0) no_pages hinted_by_date)).
Proof.
  apply (retry_request_unreadable_hint
           (audio_features (Spotify (VStr "BQD-stored")) ["a"]) 3 1
           (fresh_client (bare_world t0) no_pages hinted_by_date) _
           {[ "retry-after" := "Wed, 21 Oct 2026 07:28:00 GMT" ]}
           "Wed, 21 Oct 2026 07:28:00 GMT").
  - lia.
  - reflexivity.
  - reflexivity.
  - by constructor.
Defined.

(** A rate-limited answer without [Retry-After] is followed by a pause of
    [int(delay)] seconds, and a header with digits in groups is read. *)
Example rate_limited_without_hint :
  sleeps (aw_log (_retry_request (audio_features (Spotify (VStr "BQD-stored")) ["a"]) 2 (5 # 2)
                    (fresh_client (bare_world t0) no_pages
                       (λ _ _ _, inl (SpotifyException 429 (Some ∅))))).2)
  = [inject_Z 2].
Proof. reflexivity. Qed.

Lemma sleeps_app (l m : list event) : sleeps (l ++ m) = (sleeps l ++ sleeps m)%list.
Proof. apply omap_app. Qed.

Lemma backoff_nonneg (delay : Q) (attempt : Z) :
  (0 <= delay)%Q → (0 <= delay * inject_Z (2 ^ attempt))%Q.
Proof.
  intros Hdelay. apply Qmult_le_0_compat; [done|].
  change 0%Q with (inject_Z 0). rewrite <-Zle_Qle. apply Z.pow_nonneg. lia.
Qed.

(** One attempt that meets such a failure. *)
Lemma retry_loop_backs_off {A} (func : M api_world A) (max_retries : Z) (delay : Q)
    (attempt : Z) (rest : list Z) (w w' : api_world) (e : exn) :
  func w = (Raise e, w') →
  backs_off e →
  retry_loop func max_retries delay (attempt :: rest) w
  = if attempt <? max_retries - 1
    then (time_sleep (delay * inject_Z (2 ^ attempt)) ;;
          retry_loop func max_retries delay rest) w'
    else (Raise e, w').
Proof.
  intros Hfunc He. cbn [retry_loop].
  rewrite (try_except_caught _ _ _ _ _ _ Hfunc eq_refl).
  destruct e as [| | | | | | | | |status headers| |];
    try (by destruct (attempt <? max_retries - 1)).
  simpl in He.
  replace (status =? 429) with false by (symmetry; apply Z.eqb_neq; lia).
  replace (500 <=? status) with true by (symmetry; apply Z.leb_le; lia).
  by destruct (attempt <? max_retries - 1).
Qed.

(** The attempts from [first] on, when each meets such a failure. *)
Lemma retry_loop_exhausts {A} (func : M api_world A) (P : api_world → Prop)
    (max_retries : Z) (delay : Q) :
  (0 <= delay)%Q →
  (∀ w, P w → ∃ e w',
          func w = (Raise e, w') ∧ backs_off e ∧ P w'
          ∧ aw_calls w' = S (aw_calls w)
          ∧ sleeps (aw_log w') = sleeps (aw_log w)) →
  (∀ w seconds, P w → P (log_event (Sleep seconds) w)) →
  ∀ (left first : nat) (w : api_world),
    P w → Z.of_nat (first + S left) = max_retries →
    ∃ e w_last w',
      retry_loop func max_retries delay (Z.of_nat <$> seq first (S left)) w
      = (Raise e, w')
      ∧ func w_last = (Raise e, w')
      ∧ aw_calls w_last = (left + aw_calls w)%nat
      ∧ backs_off e
      ∧ aw_calls w' = (S left + aw_calls w)%nat
      ∧ sleeps (aw_log w') = (sleeps (aw_log w) ++ backoffs delay first left)%list.
Proof.
  intros Hdelay Hfunc Hsleep.
  induction left as [|left IH]; intros first w Hw Hcap.
  - destruct (Hfunc w Hw) as (e & w' & Hrun & He & _ & Hcalls & Hlog).
    exists e, w, w'. cbn [seq fmap list_fmap].
    rewrite (retry_loop_backs_off _ _ _ _ _ _ _ _ Hrun He).
    replace (Z.of_nat first <? max_retries - 1) with false
      by (symmetry; apply Z.ltb_ge; lia).
    repeat split; try done. unfold backoffs. simpl. by rewrite app_nil_r.
  - destruct (Hfunc w Hw) as (e & w1 & Hrun & He & Hw1 & Hcalls & Hlog).
    destruct (IH (S first) (log_event (Sleep (delay * inject_Z (2 ^ Z.of_nat first))) w1))
      as (e' & w_last & w' & Hrest & Hlast & Hcalls_last & He' & Hcalls' & Hlog').
    { by apply Hsleep. }
    { lia. }
    exists e', w_last, w'.
    change (seq first (S (S left))) with (first :: seq (S first) (S left)).
    rewrite fmap_cons.
    rewrite (retry_loop_backs_off _ _ _ _ _ _ _ _ Hrun He).
    replace (Z.of_nat first <? max_retries - 1) with true
      by (symmetry; apply Z.ltb_lt; lia).
    rewrite (bind_Ok _ _ _ _ _ (time_sleep_Ok _ w1 (backoff_nonneg _ _ Hdelay))).
    split; [exact Hrest|]. split; [exact Hlast|]. split; [|split; [done|split]].
    + rewrite Hcalls_last. simpl. lia.
    + rewrite Hcalls'. simpl. lia.
    + rewrite Hlog'. cbn [aw_log log_event]. rewrite sleeps_app, Hlog.
      unfold backoffs. cbn [seq fmap list_fmap sleeps omap list_omap].
      by rewrite <-app_assoc.
Qed.

(** X21: whatever the cap, a request that makes one call per attempt and
    fails every time, with a server error or with an exception that is no
    [SpotifyException], is attempted exactly [max_retries] times; between
    the attempts [_retry_request] pauses [delay * 2^0], [delay * 2^1], ...
    (one pause less than there are attempts), and what is raised in the
    end is what the last of these attempts raised, in the world that
    attempt left: [w_last] is the world the last attempt started in. *)
Theorem retry_request_exhausts {A} (func : M api_world A) (P : api_world → Prop)
    (max_retries : Z) (delay : Q) (w : api_world) :
  1 ≤ max_retries →
  (0 <= delay)%Q →
  (∀ w, P w → ∃ e w',
          func w = (Raise e, w') ∧ backs_off e ∧ P w'
          ∧ aw_calls w' = S (aw_calls w)
          ∧ sleeps (aw_log w') = sleeps (aw_log w)) →
  (∀ w seconds, P w → P (log_event (Sleep seconds) w)) →
  P w →
  ∃ e w_last w',
    _retry_request func max_retries delay w = (Raise e, w')
    ∧ func w_last = (Raise e, w')
    ∧ aw_calls w_last = (Z.to_nat max_retries - 1 + aw_calls w)%nat
    ∧ backs_off e
    ∧ aw_calls w' = (Z.to_nat max_retries + aw_calls w)%nat
    ∧ sleeps (aw_log w')
      = (sleeps (aw_log w) ++ backoffs delay 0 (Z.to_nat max_retries - 1))%list.
Proof.
  intros Hcap Hdelay Hfunc Hsleep Hw. unfold _retry_request, range.
  destruct (Z.to_nat max_retries) as [|left] eqn:Hleft; [lia|].
  replace (S left - 1)%nat with left by lia.
  apply (retry_loop_exhausts func P max_retries delay Hdelay Hfunc Hsleep left 0 w Hw).
  lia.
Qed.

Lemma retry_request_exhausts_witness :
  ∃ e w_last w',
    _retry_request always_503 5 (1 # 2) (fresh_client (bare_world t0) no_pages no_features)
    = (Raise e, w')
    ∧ always_503 w_last = (Raise e, w')
    ∧ aw_calls w_last = 4%nat
    ∧ backs_off e
    ∧ aw_calls w' = 5%nat
    ∧ sleeps (aw_log w')
      = [(1 # 2) * inject_Z (2 ^ 0); (1 # 2) * inject_Z (2 ^ 1);
         (1 # 2) * inject_Z (2 ^ 2); (1 # 2) * inject_Z (2 ^ 3)]%Q.
Proof.
  apply (retry_request_exhausts always_503 (λ w, aw_features w = no_features) 5 (1 # 2)
           (fresh_client (bare_world t0) no_pages no_features)).
  - lia.
  - done.
  - intros w Hw. exists (SpotifyException 503 None). eexists. unfold always_503.
    rewrite audio_features_answer, Hw. split; [reflexivity|].
    split; [simpl; lia|]. split; [exact Hw|]. split; [reflexivity|].
    cbn [aw_log advance]. by rewrite sleeps_app, app_nil_r.
  - intros w seconds Hw. exact Hw.
  - reflexivity.
Defined.

(** ** Pagination, continued *)

Lemma retry_loop_Ok {A} (func : M api_world A) (max_retries : Z) (delay : Q)
    (attempt : Z) (rest : list Z) (w w' : api_world) (a : A) :
  func w = (Ok a, w') →
  retry_loop func max_retries delay (attempt :: rest) w = (Ok a, w').
Proof. intros Hfunc. cbn [retry_loop]. by rewrite (try_except_Ok _ _ _ _ _ _ Hfunc). Qed.

(** One attempt on a chain of pages. *)
Lemma fetch_pages_serves (fuel : nat) (client : spotipy) (req : api_request)
    (pages : list page) (w : api_world) :
  serves (aw_pages w) (auth client) (aw_calls w) req pages →
  (length pages ≤ S fuel)%nat →
  ∃ w', fetch_pages fuel client req w = (Ok (concat (items_of <$> pages)), w')
        ∧ aw_calls w' = (length pages + aw_calls w)%nat.
Proof.
  intros Hserves Hfuel. destruct pages as [|p rest]; [done|].
  destruct Hserves as [Hp Hrest].
  destruct (drain_serves client rest p fuel (items_of p)
              (advance 1 [ApiCall (auth client) req] w))
    as (w' & Hdrain & Hcalls).
  { destruct rest; [done|]. exact Hrest. }
  { simpl in Hfuel. lia. }
  exists w'. split.
  - unfold fetch_pages. by rewrite (bind_Ok _ _ _ _ _ (call_pages_answer _ _ _ _ Hp)).
  - rewrite Hcalls. simpl. lia.
Qed.

(** Paging takes no pause. *)
Lemma call_pages_sleeps (client : spotipy) (req : api_request) (w : api_world) :
  sleeps (aw_log (call_pages client req w).2) = sleeps (aw_log w).
Proof. unfold call_pages. cbn [snd aw_log count_call log_event]. by rewrite sleeps_app, app_nil_r. Qed.

Lemma drain_sleeps (client : spotipy) (fuel : nat) :
  ∀ (p : page) (tracks : list pyval) (w : api_world),
    sleeps (aw_log (drain fuel client p tracks w).2) = sleeps (aw_log w).
Proof.
  induction fuel as [|fuel IH]; intros p tracks w; cbn [drain];
    destruct (next_of p) as [url|]; try done.
  unfold bind. pose proof (call_pages_sleeps client (Next url) w) as Hcall.
  destruct (call_pages client (Next url) w) as [[q| |] w1]; try done.
  by rewrite IH.
Qed.

Lemma fetch_pages_sleeps (fuel : nat) (client : spotipy) (req : api_request)
    (w : api_world) :
  sleeps (aw_log (fetch_pages fuel client req w).2) = sleeps (aw_log w).
Proof.
  unfold fetch_pages, bind. pose proof (call_pages_sleeps client req w) as Hcall.
  destruct (call_pages client req w) as [[q| |] w1]; try done.
  by rewrite drain_sleeps.
Qed.

Section Restart.
Context `{Json}.

(** X22: an attempt of [get_top_tracks] that meets a server error, on the
    first request or on any later page, contributes nothing: after the
    pause of one second the fetch starts again from the first request, and
    the list returned holds the items of the pages of that second attempt
    only, each once. *)
Theorem get_top_tracks_restarts (fuel : nat) (time_range : string) (limit : Z)
    (w w1 w2 : api_world) (client : spotipy) (status : Z)
    (headers : option (gmap string string)) (pages : list page) :
  _get_client w = (Ok client, w1) →
  fetch_pages fuel client (CurrentUserTopTracks time_range limit) w1
    = (Raise (SpotifyException status headers), w2) →
  500 ≤ status →
  serves (aw_pages w2) (auth client) (aw_calls w2)
         (CurrentUserTopTracks time_range limit) pages →
  (length pages ≤ S fuel)%nat →
  ∃ w', get_top_tracks fuel time_range limit w
        = (Ok (concat (items_of <$> pages)), w')
        ∧ aw_calls w' = (length pages + aw_calls w2)%nat
        ∧ sleeps (aw_log w') = (sleeps (aw_log w2) ++ [1 * inject_Z (2 ^ 0)]%Q)%list.
Proof.
  intros Hclient Hfail Hstatus Hserves Hfuel.
  destruct (fetch_pages_serves fuel client (CurrentUserTopTracks time_range limit) pages
              (log_event (Sleep (1 * inject_Z (2 ^ 0))) w2) Hserves Hfuel)
    as (w' & Hfetch & Hcalls).
  exists w'. split; [|split].
  - unfold get_top_tracks. rewrite (bind_Ok _ _ _ _ _ Hclient).
    unfold _retry_request. rewrite range_3.
    change (let* results := call_pages client (CurrentUserTopTracks time_range limit) in
            drain fuel client results (items_of results))
      with (fetch_pages fuel client (CurrentUserTopTracks time_range limit)).
    rewrite (retry_loop_server_error _ _ _ _ _ _ _ _ _ Hfail Hstatus).
    change (0 <? 3 - 1) with true. cbv iota.
    rewrite (bind_Ok _ _ _ _ _ (time_sleep_Ok _ w2 (backoff_nonneg 1 0 ltac:(done)))).
    by apply retry_loop_Ok.
  - exact Hcalls.
  - pose proof (fetch_pages_sleeps fuel client (CurrentUserTopTracks time_range limit)
                  (log_event (Sleep (1 * inject_Z (2 ^ 0))) w2)) as Hlog.
    rewrite Hfetch in Hlog. cbn [snd] in Hlog. rewrite Hlog.
    cbn [aw_log log_event]. by rewrite sleeps_app.
Qed.
End Restart.

Lemma get_top_tracks_restarts_witness :
  ∃ w',
    get_top_tracks 5 "medium_term" 50
      (fresh_client (signed_in fresh_file t0) breaks_on_second_call no_features)
    = (Ok [track "a"; track "b"; track "c"; track "d"; track "e"], w')
    ∧ aw_calls w' = 5%nat
    ∧ sleeps (aw_log w') = [1 * inject_Z (2 ^ 0)]%Q.
Proof.
  destruct (get_top_tracks_restarts 5 "medium_term" 50
              (fresh_client (signed_in fresh_file t0) breaks_on_second_call no_features)
              (_get_client
                 (fresh_client (signed_in fresh_file t0) breaks_on_second_call
                    no_features)).2
              (fetch_pages 5 (Spotify (VStr "BQD-stored"))
                 (CurrentUserTopTracks "medium_term" 50)
                 (_get_client
                    (fresh_client (signed_in fresh_file t0) breaks_on_second_call
                       no_features)).2).2
              (Spotify (VStr "BQD-stored")) 503 None [page1; page2; page3])
    as (w' & Hrun & Hcalls & Hlog).
  - vm_compute. reflexivity.
  - vm_compute. reflexivity.
  - lia.
  - split; [reflexivity|]. exists (page_url "2"). split; [reflexivity|].
    split; [reflexivity|]. exists (page_url "4"). split; [reflexivity|].
    split; reflexivity.
  - simpl. lia.
  - exists w'. split; [exact Hrun|]. split.
    + rewrite Hcalls. vm_compute. reflexivity.
    + rewrite Hlog. vm_compute. reflexivity.
Defined.

(** Following "next" links that never end uses up any fuel. *)
Lemma drain_endless (client : spotipy) (fuel : nat) :
  ∀ (p : page) (tracks : list pyval) (w : api_world) (url : string),
    next_of p = Some url →
    (∀ k req, ∃ q url', aw_pages w k (auth client) req = inr q ∧ next_of q = Some url') →
    ∃ w', drain fuel client p tracks w = (Diverge, w')
          ∧ aw_calls w' = (fuel + aw_calls w)%nat.
Proof.
  induction fuel as [|fuel IH]; intros p tracks w url Hnext Hpages; cbn [drain];
    rewrite Hnext.
  - by exists w.
  - destruct (Hpages (aw_calls w) (Next url)) as (q & url' & Hq & Hnext').
    rewrite (bind_Ok _ _ _ _ _ (call_pages_answer _ _ _ _ Hq)).
    destruct (IH q (tracks ++ items_of q)%list
                (advance 1 [ApiCall (auth client) (Next url)] w) url' Hnext' Hpages)
      as (w' & Hrun & Hcalls).
    exists w'. split; [done|]. rewrite Hcalls. simpl. lia.
Qed.

Section Endless.
Context `{Json}.

(** X23: [get_top_tracks] puts no bound of its own on the pages it
    follows: against an API whose every page has a "next" link it never
    returns.  Whatever the fuel, the run is still following links when the
    fuel is used up, after one request more than there was fuel. *)
Theorem get_top_tracks_endless (fuel : nat) (time_range : string) (limit : Z)
    (w w1 : api_world) (client : spotipy) :
  _get_client w = (Ok client, w1) →
  (∀ k req, ∃ p url, aw_pages w1 k (auth client) req = inr p ∧ next_of p = Some url) →
  ∃ w', get_top_tracks fuel time_range limit w = (Diverge, w')
        ∧ aw_calls w' = (S fuel + aw_calls w1)%nat.
Proof.
  intros Hclient Hpages.
  destruct (Hpages (aw_calls w1) (CurrentUserTopTracks time_range limit))
    as (p & url & Hp & Hnext).
  destruct (drain_endless client fuel p (items_of p)
              (advance 1 [ApiCall (auth client) (CurrentUserTopTracks time_range limit)] w1)
              url Hnext Hpages)
    as (w' & Hrun & Hcalls).
  exists w'. split.
  - unfold get_top_tracks. rewrite (bind_Ok _ _ _ _ _ Hclient).
    unfold _retry_request. rewrite range_3. cbn [retry_loop]. unfold try_except.
    by rewrite (bind_Ok _ _ _ _ _ (call_pages_answer _ _ _ _ Hp)), Hrun.
  - rewrite Hcalls. simpl. lia.
Qed.
End Endless.

Lemma get_top_tracks_endless_witness :
  ∃ w',
    get_top_tracks 50 "medium_term" 50
      (fresh_client (signed_in fresh_file t0) endless_pages no_features)
    = (Diverge, w')
    ∧ aw_calls w' = 51%nat.
Proof.
  destruct (get_top_tracks_endless 50 "medium_term" 50
              (fresh_client (signed_in fresh_file t0) endless_pages no_features)
              (_get_client
                 (fresh_client (signed_in fresh_file t0) endless_pages no_features)).2
              (Spotify (VStr "BQD-stored")))
    as (w' & Hrun & Hcalls).
  - vm_compute. reflexivity.
  - intros k req. exists page1, (page_url "2"). split; reflexivity.
  - exists w'. split; [exact Hrun|]. rewrite Hcalls. vm_compute. reflexivity.
Defined.

(** ** Batches of audio features, continued *)

Lemma Forall_bool_filter {A} (p : A → bool) (l : list A) :
  Forall (λ x, p x = true) (List.filter p l).
Proof.
  induction l as [|x l IH]; [constructor|]. simpl.
  destruct (p x) eqn:Hx; [by constructor|done].
Qed.

(** The loop over the batches never fails, and collects no [None]. *)
Lemma batches_loop_total (client : spotipy) (track_ids : list string) (starts : list nat) :
  ∀ (all_features : list pyval) (w : api_world),
    Forall (λ f, is_not_None f = true) all_features →
    ∃ features w',
      batches_loop client track_ids starts all_features w = (Ok features, w')
      ∧ Forall (λ f, is_not_None f = true) features.
Proof.
  induction starts as [|i starts IH]; intros all_features w Hall.
  - by exists all_features, w.
  - destruct (batches_loop_turn client track_ids i starts all_features w)
      as (found & w1 & _ & ->).
    assert (Forall (λ f, is_not_None f = true)
              (all_features ++ List.filter is_not_None found)) as Hall'
      by (apply Forall_app; split; [done|apply Forall_bool_filter]).
    destruct (i + 20 <? length track_ids)%nat.
    + rewrite (bind_Ok _ _ _ _ _ (time_sleep_Ok (2 # 10) w1 ltac:(done))).
      by apply IH.
    + unfold bind at 1, ret at 1. by apply IH.
Qed.

Section AnyNumber.
Context `{Json}.

(** X24: once it has a client, [get_audio_features_for_tracks] never
    fails, whatever the number of ids and whatever the API answers: it
    returns a list, and no entry of that list is [None]. *)
Theorem get_audio_features_never_fails (track_ids : list string) (w w0 : api_world)
    (client : spotipy) :
  _get_client w = (Ok client, w0) →
  ∃ features w',
    get_audio_features_for_tracks track_ids w = (Ok features, w')
    ∧ Forall (λ f, f ≠ VNone) features.
Proof.
  intros Hclient.
  destruct (batches_loop_total client track_ids (batch_starts (length track_ids)) [] w0)
    as (features & w' & Hrun & Hall); [constructor|].
  exists features, w'. split.
  - unfold get_audio_features_for_tracks. by rewrite (bind_Ok _ _ _ _ _ Hclient).
  - eapply Forall_impl; [exact Hall|]. by intros [] ?.
Qed.
End AnyNumber.

Lemma get_audio_features_never_fails_witness :
  ∃ features w',
    get_audio_features_for_tracks (take 7 sample_ids)
      (fresh_client (signed_in fresh_file t0) no_pages no_features)
    = (Ok features, w')
    ∧ Forall (λ f, f ≠ VNone) features.
Proof.
  apply (get_audio_features_never_fails (take 7 sample_ids)
           (fresh_client (signed_in fresh_file t0) no_pages no_features)
           (_get_client (fresh_client (signed_in fresh_file t0) no_pages no_features)).2
           (Spotify (VStr "BQD-stored"))).
  vm_compute. reflexivity.
Defined.

(** When every batch request is answered, track by track, by
    [feature]. *)
Lemma batches_loop_answered (client : spotipy) (track_ids : list string)
    (feature : string → pyval) (oracle : nat → pyval → list string → exn + list pyval) :
  (∀ k ids, oracle k (auth client) ids = inr (feature <$> ids)) →
  ∀ (m j : nat) (all_features : list pyval) (w : api_world),
    aw_features w = oracle →
    (j + m = (length track_ids + 19) / 20)%nat →
    ∃ w',
      batches_loop client track_ids ((λ k, 20 * k)%nat <$> seq j m) all_features w
      = (Ok (all_features
             ++ List.filter is_not_None
                  (feature <$> take (20 * m) (drop (20 * j) track_ids)))%list, w')
      ∧ aw_calls w' = (m + aw_calls w)%nat
      ∧ sleeps (aw_log w') = (sleeps (aw_log w) ++ replicate (m - 1) (2 # 10)%Q)%list.
Proof.
  intros Horacle.
  induction m as [|m IH]; intros j all_features w Hw Hcount.
  - exists w. cbn [seq fmap list_fmap batches_loop replicate]. unfold ret.
    by rewrite !app_nil_r.
  - cbn [seq fmap list_fmap batches_loop].
    set (batch := take 20 (drop (20 * j) track_ids)).
    assert (_retry_request (_fetch_batch client batch) 3 1 w
            = (Ok (feature <$> batch),
               advance 1 [ApiCall (auth client) (AudioFeatures batch)] w)) as Hfetch.
    { apply retry_request_first_Ok. unfold _fetch_batch, try_except.
      by rewrite audio_features_answer, Hw, Horacle. }
    rewrite (bind_Ok _ _ _ _ _ Hfetch).
    set (w1 := advance 1 [ApiCall (auth client) (AudioFeatures batch)] w).
    assert ((20 * j + 20 <? length track_ids)%nat = (1 <=? m)%nat) as ->.
    { pose proof (Nat.div_mod_eq (length track_ids + 19) 20) as Hdiv.
      pose proof (Nat.mod_upper_bound (length track_ids + 19) 20 ltac:(lia)) as Hmod.
      destruct (Nat.leb_spec 1 m); [apply Nat.ltb_lt|apply Nat.ltb_ge]; lia. }
    assert (take 20 (drop (20 * j) track_ids)
            ++ take (20 * m) (drop (20 * S j) track_ids)
            = take (20 * S m) (drop (20 * j) track_ids))%list as Htake.
    { replace (20 * S j)%nat with (20 * j + 20)%nat by lia.
      rewrite <-drop_drop, take_take_drop. f_equal. lia. }
    destruct m as [|m].
    + cbn [Nat.leb]. unfold bind at 1, ret at 1.
      destruct (IH (S j) (all_features ++ List.filter is_not_None (feature <$> batch))%list
                  w1 Hw ltac:(lia)) as (w' & Hrun & Hcalls & Hlog).
      exists w'. split; [|split].
      * rewrite Hrun, <-Htake, fmap_app, List.filter_app. by rewrite <-app_assoc.
      * rewrite Hcalls. simpl. lia.
      * rewrite Hlog. cbn [aw_log w1 advance replicate Nat.sub].
        by rewrite sleeps_app, !app_nil_r.
    + cbn [Nat.leb].
      rewrite (bind_Ok _ _ _ _ _ (time_sleep_Ok (2 # 10) w1 ltac:(done))).
      destruct (IH (S j) (all_features ++ List.filter is_not_None (feature <$> batch))%list
                  (log_event (Sleep (2 # 10)) w1) Hw ltac:(lia))
        as (w' & Hrun & Hcalls & Hlog).
      exists w'. split; [|split].
      * rewrite Hrun, <-Htake, fmap_app, List.filter_app. by rewrite <-app_assoc.
      * rewrite Hcalls. simpl. lia.
      * rewrite Hlog. cbn [aw_log w1 advance log_event].
        rewrite !sleeps_app. cbn [sleeps omap list_omap]. rewrite app_nil_r.
        replace (S (S m) - 1)%nat with (S (S m - 1)) by lia.
        by rewrite <-app_assoc.
Qed.

Section Transparent.
Context `{Json}.

(** X25: batching is invisible when the API answers every batch: if each
    request is answered track by track (by [feature], [None] standing for an
    unknown track), the list returned is what one request for all the ids
    would give, without the [None]s and in the order of the ids; it took one
    request per batch of 20 ids (none for no ids), with a pause of 0.2
    seconds between two batches. *)
Theorem get_audio_features_batching (track_ids : list string) (w w0 : api_world)
    (client : spotipy) (feature : string → pyval) :
  _get_client w = (Ok client, w0) →
  (∀ k ids, aw_features w0 k (auth client) ids = inr (feature <$> ids)) →
  ∃ w',
    get_audio_features_for_tracks track_ids w
    = (Ok (List.filter is_not_None (feature <$> track_ids)), w')
    ∧ aw_calls w' = ((length track_ids + 19) / 20 + aw_calls w0)%nat
    ∧ sleeps (aw_log w')
      = (sleeps (aw_log w0)
         ++ replicate ((length track_ids + 19) / 20 - 1) (2 # 10)%Q)%list.
Proof.
  intros Hclient Horacle.
  destruct (batches_loop_answered client track_ids feature (aw_features w0) Horacle
              ((length track_ids + 19) / 20) 0 [] w0 eq_refl eq_refl)
    as (w' & Hrun & Hcalls & Hlog).
  exists w'. split; [|done].
  unfold get_audio_features_for_tracks. rewrite (bind_Ok _ _ _ _ _ Hclient).
  unfold batch_starts. rewrite Hrun.
  change (drop (20 * 0) track_ids) with track_ids. cbn [app].
  rewrite take_ge; [done|].
  pose proof (Nat.div_mod_eq (length track_ids + 19) 20) as Hdiv.
  pose proof (Nat.mod_upper_bound (length track_ids + 19) 20 ltac:(lia)) as Hmod.
  lia.
Qed.
End Transparent.

Lemma get_audio_features_batching_witness :
  ∃ w',
    get_audio_features_for_tracks (take 21 sample_ids ++ [EmptyString])
      (fresh_client (signed_in fresh_file t0) no_pages known_features)
    = (Ok (feature_of <$> take 21 sample_ids), w')
    ∧ aw_calls w' = 2%nat
    ∧ sleeps (aw_log w') = [(2 # 10)%Q].
Proof.
  destruct (get_audio_features_batching (take 21 sample_ids ++ [EmptyString])
              (fresh_client (signed_in fresh_file t0) no_pages known_features)
              (_get_client
                 (fresh_client (signed_in fresh_file t0) no_pages known_features)).2
              (Spotify (VStr "BQD-stored"))
              (λ track_id, if String.eqb track_id EmptyString then VNone
                           else feature_of track_id))
    as (w' & Hrun & Hcalls & Hlog).
  - vm_compute. reflexivity.
  - intros k ids. reflexivity.
  - exists w'. split; [|split].
    + rewrite Hrun. vm_compute. reflexivity.
    + rewrite Hcalls. vm_compute. reflexivity.
    + rewrite Hlog. vm_compute. reflexivity.
Defined.

(** ** The other endpoints *)

Section OtherEndpoints.
Context `{Json}.

(** X26: [get_recently_played] returns the items of the one page it asks
    for and follows no "next" link: after the answer no further request is
    made, whether or not the page has a link. *)
Theorem get_recently_played_first_page
    (current_user_recently_played : spotipy → Z → M api_world page)
    (limit : Z) (w w1 w2 : api_world) (client : spotipy) (p : page) :
  _get_client w = (Ok client, w1) →
  current_user_recently_played client limit w1 = (Ok p, w2) →
  get_recently_played current_user_recently_played limit w = (Ok (items_of p), w2).
Proof.
  intros Hclient Hpage. unfold get_recently_played.
  rewrite (bind_Ok _ _ _ _ _ Hclient).
  apply retry_request_first_Ok. by rewrite (bind_Ok _ _ _ _ _ Hpage).
Qed.

(** X27: [get_top_artists] pages like [get_top_tracks]: when the first
    request is answered by a page and the API serves the chain of its
    "next" links, the list returned holds the items of all the pages, in
    page order; every further page was requested once. *)
Theorem get_top_artists_drains
    (current_user_top_artists : spotipy → string → Z → M api_world page)
    (fuel : nat) (time_range : string) (limit : Z) (w w1 w2 : api_world)
    (client : spotipy) (p : page) (rest : list page) :
  _get_client w = (Ok client, w1) →
  current_user_top_artists client time_range limit w1 = (Ok p, w2) →
  match rest with
  | [] => next_of p = None
  | _ => ∃ url, next_of p = Some url
                ∧ serves (aw_pages w2) (auth client) (aw_calls w2) (Next url) rest
  end →
  (length rest ≤ fuel)%nat →
  ∃ w', get_top_artists current_user_top_artists fuel time_range limit w
        = (Ok (items_of p ++ concat (items_of <$> rest))%list, w')
        ∧ aw_calls w' = (length rest + aw_calls w2)%nat.
Proof.
  intros Hclient Hfirst Hchain Hfuel.
  destruct (drain_serves client rest p fuel (items_of p) w2 Hchain Hfuel)
    as (w' & Hdrain & Hcalls).
  exists w'. split; [|done].
  unfold get_top_artists. rewrite (bind_Ok _ _ _ _ _ Hclient).
  apply retry_request_first_Ok. by rewrite (bind_Ok _ _ _ _ _ Hfirst).
Qed.
End OtherEndpoints.

Lemma get_recently_played_first_page_witness :
  ∃ w2,
    get_recently_played sample_recently_played 50
      (fresh_client (signed_in fresh_file t0) three_pages no_features)
    = (Ok [track "a"; track "b"], w2)
    ∧ aw_calls w2 = 1%nat.
Proof.
  eexists. split.
  - eapply (get_recently_played_first_page sample_recently_played 50
              (fresh_client (signed_in fresh_file t0) three_pages no_features)
              _ _ (Spotify (VStr "BQD-stored")) page1).
    + vm_compute. reflexivity.
    + reflexivity.
  - reflexivity.
Defined.

Lemma get_top_artists_drains_witness :
  ∃ w',
    get_top_artists sample_top_artists 5 "long_term" 50
      (fresh_client (signed_in fresh_file t0) three_pages no_features)
    = (Ok [track "a"; track "b"; track "c"; track "d"; track "e"], w')
    ∧ aw_calls w' = 3%nat.
Proof.
  destruct (get_top_artists_drains sample_top_artists 5 "long_term" 50
              (fresh_client (signed_in fresh_file t0) three_pages no_features)
              (_get_client (fresh_client (signed_in fresh_file t0) three_pages no_features)).2
              (sample_top_artists (Spotify (VStr "BQD-stored")) "long_term" 50
                 (_get_client
                    (fresh_client (signed_in fresh_file t0) three_pages no_features)).2).2
              (Spotify (VStr "BQD-stored")) page1 [page2; page3])
    as (w' & Hrun & Hcalls).
  - vm_compute. reflexivity.
  - reflexivity.
  - exists (page_url "2"). split; [reflexivity|].
    split; [reflexivity|]. exists (page_url "4"). split; [reflexivity|].
    split; reflexivity.
  - simpl. lia.
  - exists w'. split; [exact Hrun|]. rewrite Hcalls. vm_compute. reflexivity.
Defined.

(** ** Credentials and the stored record *)

(** X28: [get_client_credentials] returns only credentials that are set
    and not empty, with the redirect URI of the environment or, when that
    variable is not set, the local callback address; every failure is the
    [ConfigurationError]; the world is left as it is. *)
Theorem get_client_credentials_cases (w : world) :
  (∀ client_id client_secret redirect_uri w',
     get_client_credentials w = (Ok (client_id, client_secret, redirect_uri), w') →
     w' = w
     ∧ w_environ w !! "SPOTIFY_CLIENT_ID" = Some client_id ∧ client_id ≠ EmptyString
     ∧ w_environ w !! "SPOTIFY_CLIENT_SECRET" = Some client_secret
     ∧ client_secret ≠ EmptyString
     ∧ redirect_uri = default "http://localhost:8888/callback"
                        (w_environ w !! "SPOTIFY_REDIRECT_URI"))
  ∧ (∀ r w', get_client_credentials w = (r, w') →
             (∃ credentials, r = Ok credentials) ∨ r = Raise ConfigurationError)
  ∧ ((∃ client_id client_secret,
        w_environ w !! "SPOTIFY_CLIENT_ID" = Some client_id ∧ client_id ≠ EmptyString
        ∧ w_environ w !! "SPOTIFY_CLIENT_SECRET" = Some client_secret
        ∧ client_secret ≠ EmptyString)
     → ∃ credentials, get_client_credentials w = (Ok credentials, w)).
Proof.
  unfold get_client_credentials, bind, os_getenv, gets, raise, ret.
  destruct (w_environ w !! "SPOTIFY_CLIENT_ID") as [[|c client_id]|];
    destruct (w_environ w !! "SPOTIFY_CLIENT_SECRET") as [[|d client_secret]|];
    cbn [nonempty negb orb String.eqb default];
    (split; [|split]);
    try (intros ? ? ? ? [= <- <- <- <-]; by repeat split);
    try (intros ? ? [= <- <-]; by eauto);
    try (intros (? & ? & [= <-] & ? & [= <-] & ?); by eauto);
    try done.
Qed.

Section StoredRecord.
Context `{Json}.

(** X29: [load_tokens] changes nothing, and it answers [None] when
    nothing is at the path, when a directory is there, and when the file's
    text is well-formed UTF-8 on which [json.load] raises
    [JSONDecodeError]; it returns whatever value [json.load] returns, an
    object or not; and every other exception of [json.load]
    ([RecursionError] for text that is nested too deep), like the
    [UnicodeDecodeError] of a file that is not well-formed UTF-8, escapes
    it. *)
Theorem load_tokens_cases (filepath : string) (w : world) :
  (w_fs w !! filepath = None → load_tokens filepath w = (Ok VNone, w))
  ∧ (w_fs w !! filepath = Some Dir → load_tokens filepath w = (Ok VNone, w))
  ∧ (∀ content,
       w_fs w !! filepath = Some (File content) →
       load_tokens filepath w
       = (if utf8_valid (bytes_of content) then
            match json_loads content with
            | inr v => Ok v
            | inl JSONDecodeError | inl OSError => Ok VNone
            | inl e => Raise e
            end
          else Raise UnicodeDecodeError, w)).
Proof.
  split; [|split].
  - intros Hnone. unfold load_tokens, bind at 1, os_path_exists, gets.
    rewrite Hnone. rewrite bool_decide_false by (by intros [? ?]).
    rewrite orb_false_r. destruct (is_root filepath); cbn [negb]; [|done].
    unfold try_except, read_text, bind, gets. by rewrite Hnone.
  - apply load_tokens_directory.
  - intros content Hfile.
    destruct (utf8_valid (bytes_of content)) eqn:Hutf.
    + exact (load_tokens_decoded filepath content w Hfile Hutf).
    + exact (load_tokens_undecodable filepath content w Hfile Hutf).
Qed.

(** X30: a stored value that is no usable record makes [get_valid_token]
    fail with an error that is no [ValueError]: [AttributeError] when the
    file holds a non-empty JSON value other than an object, [TypeError] when
    [expires_at] is no number, and [KeyError] when a record that has not
    expired has no [access_token]. *)
Theorem get_valid_token_malformed_record (w w1 : world) (v : pyval) :
  load_tokens TOKEN_FILE w = (Ok v, w1) →
  truthy v = true →
  (match v with VDict _ => False | _ => True end
   → get_valid_token w = (Raise AttributeError, w1))
  ∧ (∀ d expires_at,
       v = VDict d → d !! "expires_at" = Some expires_at →
       as_number expires_at = None →
       get_valid_token w = (Raise TypeError, tick w1))
  ∧ (∀ d w2,
       v = VDict d → is_token_expired v w1 = (Ok false, w2) →
       d !! "access_token" = None →
       get_valid_token w = (Raise (KeyError "access_token"), w2)).
Proof.
  intros Hload Htruthy. unfold get_valid_token.
  rewrite (bind_Ok _ _ _ _ _ Hload), Htruthy. cbn [negb].
  split; [|split].
  - intros Hv. unfold bind at 1, is_token_expired, bind at 1, dict_get.
    by destruct v.
  - intros d expires_at -> Hd Hnumber.
    unfold bind at 1, is_token_expired, bind, dict_get, ret, time_time.
    rewrite Hd. simpl. by rewrite Hnumber.
  - intros d w2 -> Hexp Htoken.
    rewrite (bind_Ok _ _ _ _ _ Hexp). cbv beta iota.
    unfold bind at 1, ret at 1, dict_item. by rewrite Htoken.
Qed.
End StoredRecord.

Lemma get_valid_token_malformed_record_witness :
  (get_valid_token (signed_in "[1]" t0)).1 = Raise AttributeError.
Proof.
  destruct (get_valid_token_malformed_record (signed_in "[1]" t0) (signed_in "[1]" t0)
              (VList [VInt 1]))
    as [Hlist _].
  - vm_compute. reflexivity.
  - reflexivity.
  - by rewrite Hlist.
Defined.
